(** * SF-PDEV: the noughts-and-crosses search and the sea-battle board

    A shallow embedding of the decision logic of
    [Projects/Project_1/XO_Game.py] (terminal detection, the minimax
    search and the loop of the series) and of
    [Projects/Project_2/Sea_Battle_Game.py] (placement validation, shot
    resolution, the bounded random placement, the moves of the players and
    the rounds of the game), with the properties of both stated and proved
    over the embedding. *)

From stdpp Require Import base decidable option list numbers sets gmap sorting.

Local Open Scope Z_scope.

(* ===================================================================== *)
(** * Part I: definitions                                                 *)
(* ===================================================================== *)

(** ** XO_Game.py *)

Module XO.

(** The three strings a board cell can hold: [' '], ['X'] and ['0']. *)
Inductive mark := Blank | X | Nought.

#[global] Instance mark_eq_dec : EqDecision mark.
Proof. solve_decision. Defined.

(** A board is a Python dict from cell number to mark.  Iteration order of a
    dict is insertion order and assigning to a key that is present keeps its
    place, so the dict is an association list in insertion order. *)
Definition board := list (nat * mark).

Definition keys (d : board) : list nat := d.*1.

Fixpoint dict_get (d : board) (k : nat) : option mark :=
  match d with
  | [] => None
  | (k', v) :: d' => if decide (k' = k) then Some v else dict_get d' k
  end.

(** [d[k] = v]: overwrite in place when [k] is present, append otherwise. *)
Fixpoint dict_set (d : board) (k : nat) (v : mark) : board :=
  match d with
  | [] => [(k, v)]
  | (k', v') :: d' =>
      if decide (k' = k) then (k', v) :: d' else (k', v') :: dict_set d' k v
  end.

(** [get_board]: cells 1..9, all blank. *)
Definition get_board : board := (λ c, (c, Blank)) <$> seq 1 9.

(** [cast_lots] hands out the two signs; the dice only decide which of the
    two assignments is returned. *)
Definition cast_lots (player_one_wins : bool) : mark * mark :=
  if player_one_wins then (X, Nought) else (Nought, X).

(** [players[player]['sign']]: the dict [players] has the keys 0 and 1, and
    indexing it with a bool uses [False == 0], [True == 1]. *)
Definition players_sign (signs : mark * mark) (player : bool) : mark :=
  if player then signs.2 else signs.1.

Definition get_empty_cells (board_mask : board) : list nat :=
  (filter (λ x, x.2 = Blank) board_mask).*1.

Definition win_lines : list (nat * nat * nat) :=
  [ (1, 2, 3); (4, 5, 6); (7, 8, 9);
    (1, 4, 7); (2, 5, 8); (3, 6, 9);
    (1, 5, 9); (3, 5, 7) ]%nat.

Definition line_set (line : nat * nat * nat) : gset nat :=
  {[ line.1.1; line.1.2; line.2 ]}.

(** The set of cells closed by one sign. *)
Definition cells_of (s : mark) (board_mask : board) : gset nat :=
  list_to_set (filter (λ x, x.2 = s) board_mask).*1.

Definition get_winning (board_mask : board) : bool :=
  let x_cells := cells_of X board_mask in
  let o_cells := cells_of Nought board_mask in
  existsb (λ line,
      bool_decide (size (x_cells ∩ line_set line) = 3%nat)
      || bool_decide (size (o_cells ∩ line_set line) = 3%nat))
    win_lines.

(** Scores are the ints -10, 0, 10 and the floats [-inf], [inf]. *)
Inductive score := NegInf | Fin (z : Z) | PosInf.

Definition score_ltb (a b : score) : bool :=
  match a, b with
  | NegInf, NegInf => false
  | NegInf, _ => true
  | Fin _, NegInf => false
  | Fin x, Fin y => bool_decide (x < y)
  | Fin _, PosInf => true
  | PosInf, _ => false
  end.

(** The second component of the returned list: [None], the initial [''],
    or a cell number. *)
Inductive move := MNone | MEmptyStr | MCell (c : nat).

Definition result : Type := score * move.

(** The loop of [get_best_move] over the empty cells.  The board is one
    shared dict: every trial writes into it, the recursive call runs on it
    and hands it back, and the blank is written back afterwards. *)
Fixpoint search_loop (rec : board → bool → option (board * result))
    (sign : mark) (player : bool) (cells : list nat)
    (board_mask : board) (best_score : score) (best_move : move)
    : option (board * result) :=
  match cells with
  | [] => Some (board_mask, (best_score, best_move))
  | cell :: rest =>
      let board_mask := dict_set board_mask cell sign in
      match rec board_mask (negb player) with
      | None => None
      | Some (board_mask, (res, _)) =>
          let board_mask := dict_set board_mask cell Blank in
          if player && score_ltb best_score res then
            search_loop rec sign player rest board_mask res (MCell cell)
          else if negb player && score_ltb res best_score then
            search_loop rec sign player rest board_mask res (MCell cell)
          else
            search_loop rec sign player rest board_mask best_score best_move
      end
  end.

(** [get_best_move], with the recursion depth as fuel; [None] is the search
    running out of it.  The board comes back with the result. *)
Fixpoint get_best_move_fuel (fuel : nat) (signs : mark * mark)
    (board_mask : board) (player : bool) : option (board * result) :=
  match fuel with
  | O => None
  | S fuel =>
      let rm_cells := get_empty_cells board_mask in
      let game_over := get_winning board_mask in
      if game_over && player then Some (board_mask, (Fin (-10), MNone))
      else if game_over && negb player then Some (board_mask, (Fin 10, MNone))
      else if bool_decide (rm_cells = []) then Some (board_mask, (Fin 0, MNone))
      else
        let best_move := MEmptyStr in
        let best_score := if player then NegInf else PosInf in
        search_loop (get_best_move_fuel fuel signs)
          (players_sign signs player) player
          (get_empty_cells board_mask) board_mask best_score best_move
  end.

(** Every level of the recursion fills one blank cell, so one more level
    than there are blank cells is always enough. *)
Definition get_best_move (signs : mark * mark) (board_mask : board)
    (player : bool) : option (board * result) :=
  get_best_move_fuel (S (length (get_empty_cells board_mask)))
    signs board_mask player.

(** The score the search assigns to trying [cell]: the first component of
    the recursive call on the board with the mover's sign written there. *)
Definition trial_score (signs : mark * mark) (board_mask : board)
    (player : bool) (cell : nat) : option score :=
  (λ r, r.2.1) <$>
    get_best_move signs (dict_set board_mask cell (players_sign signs player))
      (negb player).

(** A 3x3 board: the nine keys that [get_board] inserts, in its order. *)
Definition is_board (b : board) : Prop := keys b = seq 1 9.

Definition of_marks (ms : list mark) : board := zip (seq 1 (length ms)) ms.

(** The boards a game can pass through: the blank board, and any board
    obtained by writing a sign into a blank cell. *)
Inductive reachable : board → Prop :=
  | reachable_start : reachable get_board
  | reachable_move b cell s :
      reachable b → cell ∈ get_empty_cells b → s ≠ Blank →
      reachable (dict_set b cell s).

(** One side holds all three cells of a line. *)
Definition owns (s : mark) (b : board) (line : nat * nat * nat) : Prop :=
  (line.1.1, s) ∈ b ∧ (line.1.2, s) ∈ b ∧ (line.2, s) ∈ b.

(** *** Vocabulary of the statements about the search *)

(** What the loop computes once every trial is known to hand the board back:
    a left fold over the cells with the scores of the trials. *)
Fixpoint pure_loop (v : nat → score) (player : bool) (cells : list nat)
    (best_score : score) (best_move : move) : result :=
  match cells with
  | [] => (best_score, best_move)
  | cell :: rest =>
      if player && score_ltb best_score (v cell) then
        pure_loop v player rest (v cell) (MCell cell)
      else if negb player && score_ltb (v cell) best_score then
        pure_loop v player rest (v cell) (MCell cell)
      else pure_loop v player rest best_score best_move
  end.

(** [better p a b]: for the side [p], the score [a] beats the score [b]. *)
Definition better (player : bool) (a b : Z) : Prop :=
  if player then b < a else a < b.

#[global] Instance better_dec player a b : Decision (better player a b).
Proof. destruct player; simpl; apply _. Defined.

(** [c] is the first cell of [l] with the best score [best]: everything
    before it is beaten by [best], nothing after it beats [best]. *)
Definition first_best (player : bool) (f : nat → Z) (l : list nat)
    (c : nat) (best : Z) : Prop :=
  ∃ l1 l2, l = l1 ++ c :: l2 ∧ f c = best ∧
    Forall (λ x, better player best (f x)) l1 ∧
    Forall (λ x, ¬ better player (f x) best) l2.

(** The integer score of the trial of [cell]. *)
Definition trial_z (signs : mark * mark) (b : board) (p : bool)
    (cell : nat) : Z :=
  match trial_score signs b p cell with
  | Some (Fin z) => z
  | _ => 0
  end.

(** *** The series of rounds: the [while] loop of the script *)

(** The strings of [who_playing]. *)
Inductive kind := Human | AiEasy | AiNormal | AiImpossible.

#[global] Instance kind_eq_dec : EqDecision kind.
Proof. solve_decision. Defined.

(** An entry of the dict [players]; the name is only printed. *)
Record player := mkPlayer { who_playing : kind; win : Z; sign : mark }.

Definition set_sign (p : player) (s : mark) : player :=
  mkPlayer (who_playing p) (win p) s.

Definition add_win (p : player) : player :=
  mkPlayer (who_playing p) (win p + 1) (sign p).

(** The globals the loop works on.  [whose_move] is 0 or 1, here [false]
    or [true]; [cell_number] starts as [None].  [board_hint] is only
    printed and is left out. *)
Record game := mkGame {
  cur_board : board;
  players0 : player;
  players1 : player;
  whose_move : bool;
  remaining_moves : Z;
  cell_number : option nat
}.

Definition players (g : game) (i : bool) : player :=
  if i then players1 g else players0 g.

Definition signs_of (g : game) : mark * mark :=
  (sign (players0 g), sign (players1 g)).

Definition set_cell_number (g : game) (c : option nat) : game :=
  mkGame (cur_board g) (players0 g) (players1 g) (whose_move g)
    (remaining_moves g) c.

(** [get_board] run on the dict [board] as it is: the cells 1..9 are
    assigned in turn. *)
Definition get_board_on (b : board) : board :=
  foldl (λ b c, dict_set b c Blank) b (seq 1 9).

(** The players a [game_type] stands for; 5 and everything else is the
    game of two random players. *)
Definition kinds_of (game_type : nat) : kind * kind :=
  match game_type with
  | 0%nat => (Human, AiEasy)
  | 1%nat => (Human, AiNormal)
  | 2%nat => (Human, Human)
  | 3%nat => (Human, AiImpossible)
  | _ => (AiEasy, AiEasy)
  end.

(** The state before the loop: the blank board, the signs by lot, no wins,
    and the holder of X to move. *)
Definition start (kinds : kind * kind) (w : bool) : game :=
  mkGame get_board
    (mkPlayer kinds.1 0 (cast_lots w).1)
    (mkPlayer kinds.2 0 (cast_lots w).2)
    (if decide ((cast_lots w).1 = X) then false else true)
    9 None.

(** What comes from outside during one round of the loop: the number
    [input_valid] returned for the move, whether the answer to "giving up"
    was 1, the index [random.choice] drew, and the lots cast after a
    draw. *)
Record turn_input := mkInput {
  entered : nat;
  gives_up : bool;
  pick : nat;
  lots : bool
}.

(** [ai_easy]: [random.choice] of the list. *)
Definition ai_easy (empty_cells : list nat) (pick : nat) : option nat :=
  empty_cells !! pick.

Definition win_cells : gset nat := {[1; 3; 5; 7; 9]}%nat.

(** [tuple(win_cells.intersection(remaining_cells))].  The order of the
    tuple is the order in which the set is iterated, which the language
    leaves open (CPython gives (9, 3, 5, 7) for the corners and the centre
    without 1); the order of [elements] stands for it.  The statements use
    the list through its length and its members only, and hold for every
    index [random.choice] can draw. *)
Definition opening_cells (remaining_cells : list nat) : list nat :=
  elements (win_cells ∩ list_to_set remaining_cells).

(** [get_best_move(board)[1]], with the board the call hands back.  The
    call is made with the default flag [True].  When the second component
    is not a cell the script would go on to use it as a key; that case is
    left without a result. *)
Definition best_cell (g : game) : option (nat * board) :=
  match get_best_move (signs_of g) (cur_board g) true with
  | Some (b, (_, MCell c)) => Some (c, b)
  | _ => None
  end.

(** The loop body from [board[cell_number] = ...] on. *)
Definition make_move (g : game) (b : board) (cell : nat) (inp : turn_input)
    : game :=
  let mover := whose_move g in
  let s := sign (players g mover) in
  let b := dict_set b cell s in
  if get_winning b then
    let p0 := if decide (s = Nought)
              then set_sign (players0 g) (sign (players1 g))
              else players0 g in
    let p1 := if decide (s = Nought)
              then set_sign (players1 g) (sign (players0 g))
              else players1 g in
    mkGame (get_board_on b)
      (if mover then p0 else add_win p0)
      (if mover then add_win p1 else p1)
      mover 9 (Some cell)
  else
    let remaining := remaining_moves g - 1 in
    if decide (remaining = 0) then
      mkGame (get_board_on b)
        (set_sign (players0 g) (cast_lots (lots inp)).1)
        (set_sign (players1 g) (cast_lots (lots inp)).2)
        (if decide ((cast_lots (lots inp)).1 = X) then false else true)
        9 (Some cell)
    else
      mkGame b (players0 g) (players1 g) (negb mover) remaining (Some cell).

(** How one round of the loop ends: at its end or by [continue], or by
    [break]. *)
Inductive step_result :=
  | Continue (g : game)
  | Break (g : game).

Definition game_of (r : step_result) : game :=
  match r with Continue g | Break g => g end.

(** One round of the loop.  [None] stands for what the script cannot reach:
    a number from [input_valid] that is neither 0 nor a blank cell, an index
    [random.choice] cannot draw, a search without a cell. *)
Definition iteration (g : game) (inp : turn_input) : option step_result :=
  let remaining_cells := get_empty_cells (cur_board g) in
  match who_playing (players g (whose_move g)) with
  | Human =>
      if decide (entered inp = 0%nat) then
        let g := set_cell_number g (Some 0%nat) in
        Some (if gives_up inp then Break g else Continue g)
      else if decide (entered inp ∈ remaining_cells) then
        Some (Continue (make_move g (cur_board g) (entered inp) inp))
      else None
  | AiEasy =>
      cell ← ai_easy remaining_cells (pick inp);
      Some (Continue (make_move g (cur_board g) cell inp))
  | AiNormal =>
      if decide (8 ≤ remaining_moves g) then
        cell ← opening_cells remaining_cells !! pick inp;
        Some (Continue (make_move g (cur_board g) cell inp))
      else
        cb ← best_cell g;
        Some (Continue (make_move g cb.2 cb.1 inp))
  | AiImpossible =>
      cb ← best_cell g;
      Some (Continue (make_move g cb.2 cb.1 inp))
  end.

(** How the loop was left. *)
Inductive ending := SeriesDecided | GaveUp | OutOfInput.

(** The [while] loop over the inputs of its rounds. *)
Fixpoint play (g : game) (inputs : list turn_input)
    : option (game * ending) :=
  if decide (Z.abs (win (players0 g) - win (players1 g)) < 3) then
    match inputs with
    | [] => Some (g, OutOfInput)
    | inp :: rest =>
        match iteration g inp with
        | None => None
        | Some (Continue g) => play g rest
        | Some (Break g) => Some (g, GaveUp)
        end
    end
  else Some (g, SeriesDecided).

(** The last lines of the script: who is congratulated, if anybody. *)
Inductive farewell :=
  | Congratulations (champion : bool)
  | YouLost
  | NoFarewell.

Definition announce (g : game) : farewell :=
  if bool_decide (cell_number g ≠ Some 0%nat)
     && bool_decide (who_playing (players1 g) = Human) then
    Congratulations
      (if decide (win (players0 g) > win (players1 g)) then false else true)
  else if bool_decide (cell_number g ≠ Some 0%nat)
          && bool_decide (who_playing (players1 g) ≠ Human) then
    (if decide (win (players0 g) > win (players1 g))
     then Congratulations false else YouLost)
  else NoFarewell.

(** *** Vocabulary of the statements about the series *)

Definition count_mark (s : mark) (b : board) : nat :=
  length (filter (λ x, x.2 = s) b).

(** What holds whenever the loop tests its condition: a 3x3 board nobody
    has won, with a blank cell; the counter of remaining moves equal to the
    number of blank cells; the two signs handed out by lot; as many X as 0
    with X to move, or one X more with 0 to move; and a computer that
    searches only in the place of the second player. *)
Record game_inv (g : game) : Prop := mkInv {
  inv_board : is_board (cur_board g);
  inv_not_won : get_winning (cur_board g) = false;
  inv_remaining :
    remaining_moves g = Z.of_nat (length (get_empty_cells (cur_board g)));
  inv_some_empty : get_empty_cells (cur_board g) ≠ [];
  inv_signs : ∃ w, signs_of g = cast_lots w;
  inv_turn :
    (count_mark X (cur_board g) = count_mark Nought (cur_board g)
     ∧ sign (players g (whose_move g)) = X)
    ∨ (count_mark X (cur_board g) = S (count_mark Nought (cur_board g))
       ∧ sign (players g (whose_move g)) = Nought);
  inv_kinds :
    who_playing (players0 g) = Human ∨ who_playing (players0 g) = AiEasy
}.

(** What holds of the wins at the head of the loop: they are not negative,
    no lead exceeds three, and a lead of three came with a move. *)
Definition series_inv (g : game) : Prop :=
  0 ≤ win (players0 g) ∧ 0 ≤ win (players1 g) ∧
  Z.abs (win (players0 g) - win (players1 g)) ≤ 3 ∧
  (Z.abs (win (players0 g) - win (players1 g)) = 3 →
   ∃ c, cell_number g = Some c ∧ c ≠ 0%nat).

(** The inputs the outside can give in a state. *)
Definition valid_input (g : game) (inp : turn_input) : Prop :=
  match who_playing (players g (whose_move g)) with
  | Human =>
      entered inp = 0%nat ∨ entered inp ∈ get_empty_cells (cur_board g)
  | AiEasy => (pick inp < length (get_empty_cells (cur_board g)))%nat
  | AiNormal =>
      8 ≤ remaining_moves g →
      (pick inp < length (opening_cells (get_empty_cells (cur_board g))))%nat
  | AiImpossible => True
  end.

(** *** Vocabulary of the statements about the full search as a player *)

(** A line of three equal signs, read off the cells of the board. *)
Definition holds_line (b : board) (line : nat * nat * nat) : bool :=
  match dict_get b line.1.1, dict_get b line.1.2, dict_get b line.2 with
  | Some X, Some X, Some X => true
  | Some Nought, Some Nought, Some Nought => true
  | _, _, _ => false
  end.

Definition line_held (b : board) : bool := existsb (holds_line b) win_lines.

(** [existsb] and [forallb] that stop at the first cell that decides. *)
Fixpoint some_cell (f : nat → bool) (cells : list nat) : bool :=
  match cells with
  | [] => false
  | c :: rest => if f c then true else some_cell f rest
  end.

Fixpoint every_cell (f : nat → bool) (cells : list nat) : bool :=
  match cells with
  | [] => true
  | c :: rest => if f c then every_cell f rest else false
  end.

(** The score [get_best_move] returns for a board and a side. *)
Definition value (signs : mark * mark) (b : board) (player : bool) : Z :=
  match get_best_move signs b player with
  | Some (_, (Fin z, _)) => z
  | _ => 0
  end.

(** Two checks of a bound [t] on that score, which look only at the moves
    that decide.  The score of a board with a line or without a blank cell
    is compared with [t].  Otherwise the score is at least [t] when some
    move of the side of [True], or every move of the other side, leads to
    a board whose score is; and at most [t] the other way round.  [fuel]
    bounds the moves looked at; without fuel a check fails. *)
Fixpoint at_least (fuel : nat) (signs : mark * mark) (b : board)
    (player : bool) (t : Z) : bool :=
  match fuel with
  | O => false
  | S fuel =>
      if line_held b then bool_decide (t ≤ if player then -10 else 10)
      else if bool_decide (get_empty_cells b = []) then bool_decide (t ≤ 0)
      else
        let after c :=
          at_least fuel signs (dict_set b c (players_sign signs player))
            (negb player) t in
        if player then some_cell after (get_empty_cells b)
        else every_cell after (get_empty_cells b)
  end.

Fixpoint at_most (fuel : nat) (signs : mark * mark) (b : board)
    (player : bool) (t : Z) : bool :=
  match fuel with
  | O => false
  | S fuel =>
      if line_held b then bool_decide ((if player then -10 else 10) ≤ t)
      else if bool_decide (get_empty_cells b = []) then bool_decide (0 ≤ t)
      else
        let after c :=
          at_most fuel signs (dict_set b c (players_sign signs player))
            (negb player) t in
        if player then every_cell after (get_empty_cells b)
        else some_cell after (get_empty_cells b)
  end.

(** The first of the cells whose trial for the side of [True] is checked
    to reach [z], when the trials of the cells before it are checked to
    stay below [z]. *)
Fixpoint first_reaching (fuel : nat) (signs : mark * mark) (b : board)
    (z : Z) (cells : list nat) : option nat :=
  match cells with
  | [] => None
  | c :: rest =>
      let b' := dict_set b c (players_sign signs true) in
      if at_least fuel signs b' false z then Some c
      else if at_most fuel signs b' false (z - 10)
      then first_reaching fuel signs b z rest
      else None
  end.

(** The cell the search returns under the flag [True] when its score is
    [z], found with the checks. *)
Definition quick_best (signs : mark * mark) (b : board) (z : Z)
    : option nat :=
  let fuel := S (length (get_empty_cells b)) in
  if at_most fuel signs b true z
  then first_reaching fuel signs b z (get_empty_cells b)
  else None.

Fixpoint first_score (f : Z → option nat) (zs : list Z) : option nat :=
  match zs with
  | [] => None
  | z :: zs =>
      match f z with
      | Some c => Some c
      | None => first_score f zs
      end
  end.

(** What [best_cell] returns, found with the checks. *)
Definition quick_cell (g : game) : option (nat * board) :=
  c ← first_score (quick_best (signs_of g) (cur_board g)) [10; 0; -10];
  Some (c, cur_board g).

(** [iteration] and [play] with the cell of the searching players taken
    from [search]; with [best_cell] for it they are [iteration] and
    [play]. *)
Definition iteration_with (search : game → option (nat * board))
    (g : game) (inp : turn_input) : option step_result :=
  let remaining_cells := get_empty_cells (cur_board g) in
  match who_playing (players g (whose_move g)) with
  | Human =>
      if decide (entered inp = 0%nat) then
        let g := set_cell_number g (Some 0%nat) in
        Some (if gives_up inp then Break g else Continue g)
      else if decide (entered inp ∈ remaining_cells) then
        Some (Continue (make_move g (cur_board g) (entered inp) inp))
      else None
  | AiEasy =>
      cell ← ai_easy remaining_cells (pick inp);
      Some (Continue (make_move g (cur_board g) cell inp))
  | AiNormal =>
      if decide (8 ≤ remaining_moves g) then
        cell ← opening_cells remaining_cells !! pick inp;
        Some (Continue (make_move g (cur_board g) cell inp))
      else
        cb ← search g;
        Some (Continue (make_move g cb.2 cb.1 inp))
  | AiImpossible =>
      cb ← search g;
      Some (Continue (make_move g cb.2 cb.1 inp))
  end.

Fixpoint play_with (search : game → option (nat * board)) (g : game)
    (inputs : list turn_input) : option (game * ending) :=
  if decide (Z.abs (win (players0 g) - win (players1 g)) < 3) then
    match inputs with
    | [] => Some (g, OutOfInput)
    | inp :: rest =>
        match iteration_with search g inp with
        | None => None
        | Some (Continue g) => play_with search g rest
        | Some (Break g) => Some (g, GaveUp)
        end
    end
  else Some (g, SeriesDecided).

(** A series of a person against the full search in which the person has
    not won a round and the search, asked for the side to move, does not
    score the board as lost for the computer. *)
Definition unbeaten (g : game) : Prop :=
  who_playing (players0 g) = Human ∧
  who_playing (players1 g) = AiImpossible ∧
  win (players0 g) = 0 ∧
  0 ≤ value (signs_of g) (cur_board g) (whose_move g).

(** Positions used below: a full board without a winning line, a position
    with two blank cells left, one after the first two moves, one where X
    has two in the bottom row, and one where two moves are equally good. *)
Definition drawn_board : board :=
  of_marks [X; Nought; X; X; Nought; Nought; Nought; X; X].

Definition late_board : board :=
  of_marks [X; Nought; X; X; Nought; Nought; Nought; Blank; Blank].

Definition open_board : board :=
  of_marks [X; Nought; Blank; Blank; Blank; Blank; Blank; Blank; Blank].

Definition two_in_row : board :=
  of_marks [X; X; Blank; Nought; Nought; Blank; Blank; Blank; Blank].

Definition tie_board : board :=
  of_marks [X; Nought; Blank; Blank; X; Blank; Blank; Blank; Nought].

(** Inputs of the loop: a person entering [n]; three rounds in which the
    first to move fills the bottom row; and a state in the middle of a
    round against the full search. *)
Definition types (n : nat) : turn_input := mkInput n false 0 true.

Definition three_rounds : list turn_input :=
  types <$> [1; 4; 2; 5; 3; 1; 4; 2; 5; 3; 1; 4; 2; 5; 3]%nat.

Definition mid_game : game :=
  mkGame tie_board (mkPlayer Human 1 X) (mkPlayer AiImpossible 0 Nought)
    false 5 (Some 9%nat).

Definition search_turn : game :=
  mkGame two_in_row (mkPlayer Human 0 Nought) (mkPlayer AiImpossible 2 X)
    true 5 (Some 5%nat).

(** A series against the full search in which the person, first with X,
    always takes the blank cell of the highest number (the rounds of the
    computer have the input 0, which is not read), and the state it ends
    in. *)
Definition blunders : list turn_input :=
  types <$> [9; 0; 8; 0; 6; 0; 0; 9; 0; 8; 0; 0; 9; 0; 8; 0]%nat.

Definition lost_series : game :=
  mkGame get_board (mkPlayer Human 0 Nought) (mkPlayer AiImpossible 3 X)
    true 9 (Some 2%nat).

End XO.

(** ** Sea_Battle_Game.py *)

Module SeaBattle.

Inductive GameException :=
  | BoardOutsideException
  | OccupiedCellException
  | CoordinateTypeException
  | BoardSizeException
  | WrongPositionShipException.

(** A call either returns a value or raises. *)
Inductive outcome (A : Type) :=
  | Return (a : A)
  | Raise (e : GameException).
Arguments Return {A} a.
Arguments Raise {A} e.

Record Cell := mkCell { row : Z; column : Z }.

(** [Cell.__eq__] compares rows and columns. *)
#[global] Instance Cell_eq_dec : EqDecision Cell.
Proof. solve_decision. Defined.

Record Ship := mkShip {
  coord : Cell;
  ship_length : Z;
  orientation : Z;
  health : Z
}.

(** [Ship.__init__]: the health starts at the length. *)
Definition Ship_init (coord : Cell) (length orientation : Z) : Ship :=
  mkShip coord length orientation length.

(** [Ship.cells]: [range(length)] steps along the rows when the orientation
    is truthy and along the columns otherwise. *)
Definition cells (s : Ship) : list Cell :=
  (λ cell,
     if bool_decide (orientation s ≠ 0)
     then mkCell (row (coord s) + cell) (column (coord s))
     else mkCell (row (coord s)) (column (coord s) + cell))
  <$> seqZ 0 (ship_length s).

Definition set_health (s : Ship) (h : Z) : Ship :=
  mkShip (coord s) (ship_length s) (orientation s) h.

(** The strings of the mask: [" "], ["▓"], ["X"], ["."] and ["·"]. *)
Inductive Sym := SBlank | SShip | SHit | SMiss | SHalo.

#[global] Instance Sym_eq_dec : EqDecision Sym.
Proof. solve_decision. Defined.

Record Board := mkBoard {
  size : Z;
  hide : bool;
  count : Z;
  mask : list (list Sym);
  occupy_cells : list Cell;
  ships : list Ship
}.

Definition set_count (b : Board) (n : Z) : Board :=
  mkBoard (size b) (hide b) n (mask b) (occupy_cells b) (ships b).
Definition set_mask (b : Board) (m : list (list Sym)) : Board :=
  mkBoard (size b) (hide b) (count b) m (occupy_cells b) (ships b).
Definition set_occupy_cells (b : Board) (l : list Cell) : Board :=
  mkBoard (size b) (hide b) (count b) (mask b) l (ships b).
Definition set_ships (b : Board) (l : list Ship) : Board :=
  mkBoard (size b) (hide b) (count b) (mask b) (occupy_cells b) l.

(** [Board.__init__].  The guard is the chained comparison
    [5 > size > 10], that is [5 > size and size > 10]. *)
Definition Board_init (hide : bool) (size : Z) : outcome Board :=
  if bool_decide (5 > size) && bool_decide (size > 10)
  then Raise BoardSizeException
  else Return
    (mkBoard size hide 0
       (replicate (Z.to_nat size) (replicate (Z.to_nat size) SBlank))
       [] []).

Definition outside_board (b : Board) (cell : Cell) : bool :=
  negb (bool_decide (0 ≤ row cell < size b)
        && bool_decide (0 ≤ column cell < size b)).

(** [mask[cell.row][cell.column] = s].  Every caller has checked
    [outside_board] first, so both indices are within the lists. *)
Definition mask_set (m : list (list Sym)) (cell : Cell) (s : Sym)
    : list (list Sym) :=
  alter (λ r, <[Z.to_nat (column cell) := s]> r) (Z.to_nat (row cell)) m.

(** The mask read at a cell with indices that are not negative. *)
Definition mask_get (m : list (list Sym)) (cell : Cell) : option Sym :=
  m !! Z.to_nat (row cell) ≫= λ r, r !! Z.to_nat (column cell).

Definition around_ship : list (Z * Z) :=
  [ (-1, -1); (-1, 0); (-1, 1);
    (0, -1); (0, 0); (0, 1);
    (1, -1); (1, 0); (1, 1) ].

Definition neighbour (cell : Cell) (d : Z * Z) : Cell :=
  mkCell (row cell + d.1) (column cell + d.2).

(** The body of the inner loop of [aureole]. *)
Definition aureole_step (visibility : bool) (b : Board) (current_cell : Cell)
    : Board :=
  if negb (outside_board b current_cell)
     && bool_decide (current_cell ∉ occupy_cells b)
  then
    let b := if visibility
             then set_mask b (mask_set (mask b) current_cell SHalo)
             else b in
    set_occupy_cells b (occupy_cells b ++ [current_cell])
  else b.

Definition aureole (ship : Ship) (visibility : bool) (b : Board) : Board :=
  foldl (λ b cell,
           foldl (λ b d, aureole_step visibility b (neighbour cell d))
             b around_ship)
    b (cells ship).

(** The first loop of [add_ship]: it only reads the board. *)
Fixpoint check_cells (b : Board) (cs : list Cell) : outcome unit :=
  match cs with
  | [] => Return ()
  | cell :: rest =>
      if outside_board b cell || bool_decide (cell ∈ occupy_cells b)
      then Raise WrongPositionShipException
      else check_cells b rest
  end.

Definition place_cell (sign : Sym) (b : Board) (cell : Cell) : Board :=
  let b := set_mask b (mask_set (mask b) cell sign) in
  set_occupy_cells b (occupy_cells b ++ [cell]).

(** [Board.add_ship]: the board as the call leaves it, and how it ended. *)
Definition add_ship (ship : Ship) (b : Board) : Board * outcome unit :=
  let sign := if hide b then SBlank else SShip in
  match check_cells b (cells ship) with
  | Raise e => (b, Raise e)
  | Return _ =>
      let b := foldl (place_cell sign) b (cells ship) in
      let b := set_ships b (ships b ++ [ship]) in
      (aureole ship false b, Return ())
  end.

(** The lines [shot] prints. *)
Inductive message := MsgHit | MsgDestroyed | MsgWounded | MsgMiss.

(** The loop of [shot] over the ships stops at the first ship that has the
    cell: its position in the list and the ship. *)
Fixpoint find_ship (cell : Cell) (i : nat) (ss : list Ship)
    : option (nat * Ship) :=
  match ss with
  | [] => None
  | ship :: rest =>
      if bool_decide (cell ∈ cells ship) then Some (i, ship)
      else find_ship cell (S i) rest
  end.

(** [Board.shot]: the board afterwards, the lines printed, the result. *)
Definition shot (cell : Cell) (b : Board)
    : Board * list message * outcome bool :=
  if outside_board b cell then (b, [], Raise BoardOutsideException)
  else if bool_decide (cell ∈ occupy_cells b)
  then (b, [], Raise OccupiedCellException)
  else
    let b := set_occupy_cells b (occupy_cells b ++ [cell]) in
    match find_ship cell 0 (ships b) with
    | Some (i, ship) =>
        let ship := set_health ship (health ship - 1) in
        let b := set_ships b (<[i := ship]> (ships b)) in
        let b := set_mask b (mask_set (mask b) cell SHit) in
        if bool_decide (health ship = 0) then
          let b := set_count b (count b + 1) in
          let b := aureole ship true b in
          (b, [MsgHit; MsgDestroyed], Return true)
        else (b, [MsgHit; MsgWounded], Return true)
    | None =>
        let b := set_mask b (mask_set (mask b) cell SMiss) in
        (b, [MsgMiss], Return false)
    end.

(** [Board.begin]. *)
Definition begin (b : Board) : Board := set_occupy_cells b [].

(** The operations that change a board, as data, to speak about sequences
    of them. *)
Inductive BoardOp :=
  | OpAddShip (ship : Ship)
  | OpAureole (ship : Ship) (visibility : bool)
  | OpShot (cell : Cell)
  | OpBegin.

Definition run_op (b : Board) (op : BoardOp) : Board :=
  match op with
  | OpAddShip ship => (add_ship ship b).1
  | OpAureole ship visibility => aureole ship visibility b
  | OpShot cell => (shot cell b).1.1
  | OpBegin => begin b
  end.

Definition is_begin (op : BoardOp) : bool :=
  match op with OpBegin => true | _ => false end.

(** *** Random placement *)

(** The list [ships] of [random_place] and the slice [ships[begin::]]. *)
Definition ships_list : list Z := [4; 3; 2; 3; 2; 2; 1; 1; 1; 1].

Definition catalog (size : Z) : list Z :=
  let begin := if bool_decide (size < 10) then 9 - size else 0 in
  drop (Z.to_nat begin) ships_list.

(** The random source: what the [k]-th call of [randint] answers when asked
    for a number between [a] and [b]. *)
Definition randomness := nat → Z → Z → Z.

Inductive error :=
  | GameError (e : GameException)
  | ValueError.

(** [randint(a, b)] raises [ValueError] on an empty range. *)
Definition randint (rnd : randomness) (k : nat) (a b : Z) : option Z :=
  if bool_decide (b < a) then None else Some (rnd k a b).

(** One sampling of a ship: the direction, then the row, then the column. *)
Definition sample_ship (rnd : randomness) (k : nat) (size ship_length : Z)
    : option Ship :=
  direction ← randint rnd k 0 1;
  if bool_decide (direction ≠ 0) then
    r ← randint rnd (k + 1) 0 size;
    c ← randint rnd (k + 2) 0 (size - ship_length);
    Some (Ship_init (mkCell r c) ship_length direction)
  else
    r ← randint rnd (k + 1) 0 (size - ship_length);
    c ← randint rnd (k + 2) 0 size;
    Some (Ship_init (mkCell r c) ship_length direction).

(** How the [while True] loop for one ship leaves: by [return False, board],
    by [break], or by an exception nobody catches.  [attempts] is the
    counter of the pass and [k] the number of [randint] calls so far. *)
Inductive loop_exit :=
  | Exhausted (attempts : Z) (k : nat) (board : Board)
  | Placed (attempts : Z) (k : nat) (board : Board)
  | Crashed (e : error).

Fixpoint place_ship (rnd : randomness) (fuel : nat) (size ship_length : Z)
    (attempts : Z) (k : nat) (board : Board) : option loop_exit :=
  match fuel with
  | O => None
  | S fuel =>
      let attempts := attempts + 1 in
      if bool_decide (attempts > 2000) then Some (Exhausted attempts k board)
      else
        match sample_ship rnd k size ship_length with
        | None => Some (Crashed ValueError)
        | Some ship =>
            match add_ship ship board with
            | (board, Return _) => Some (Placed attempts (k + 3) board)
            | (board, Raise WrongPositionShipException) =>
                place_ship rnd fuel size ship_length attempts (k + 3) board
            | (board, Raise e) => Some (Crashed (GameError e))
            end
        end
  end.

(** The [for] loop over the catalog; the counter [attempts] runs on from
    one ship to the next.  No ship can take more than 2001 rounds of its
    loop, since each round adds one to the counter. *)
Fixpoint place_all (rnd : randomness) (size : Z) (lengths : list Z)
    (attempts : Z) (k : nat) (board : Board) : option loop_exit :=
  match lengths with
  | [] => Some (Placed attempts k board)
  | ship_length :: rest =>
      match place_ship rnd 2001 size ship_length attempts k board with
      | Some (Placed attempts k board) =>
          place_all rnd size rest attempts k board
      | r => r
      end
  end.

Inductive pass_result :=
  | PassError (e : error)
  | PassDone (ok : bool) (board : Board).

(** [Game.random_place]: the number of [randint] calls afterwards and the
    pair returned. *)
Definition random_place (rnd : randomness) (self_size : Z) (hide : bool)
    (k : nat) : option (nat * pass_result) :=
  match Board_init hide self_size with
  | Raise e => Some (k, PassError (GameError e))
  | Return board =>
      let size := self_size - 1 in
      match place_all rnd size (catalog self_size) 0 k board with
      | None => None
      | Some (Exhausted _ k board) => Some (k, PassDone false board)
      | Some (Placed _ k board) => Some (k, PassDone true (begin board))
      | Some (Crashed e) => Some (k, PassError e)
      end
  end.

(** [Game.random_board]: the [while] loop has no bound of its own, so the
    number of passes is the fuel. *)
Fixpoint random_board (rnd : randomness) (fuel : nat) (self_size : Z)
    (hide : bool) (k : nat) : option (nat * (error + Board)) :=
  match fuel with
  | O => None
  | S fuel =>
      match random_place rnd self_size hide k with
      | None => None
      | Some (k, PassDone true board) => Some (k, inr board)
      | Some (k, PassDone false _) => random_board rnd fuel self_size hide k
      | Some (k, PassError e) => Some (k, inl e)
      end
  end.

(** *** More of the classes *)

(** [Ship.hit_check]. *)
Definition hit_check (ship : Ship) (cell : Cell) : bool :=
  bool_decide (cell ∈ cells ship).

(** The board [Board.__init__] returns. *)
Definition new_board (hide : bool) (size : Z) : Board :=
  mkBoard size hide 0
    (replicate (Z.to_nat size) (replicate (Z.to_nat size) SBlank)) [] [].

(** A run of [add_ship] calls on one board, accepted or not. *)
Definition add_ships (b : Board) (attempts : list Ship) : Board :=
  foldl (λ b ship, (add_ship ship b).1) b attempts.

(** [Player.move]: coordinates are requested until a shot goes through;
    every exception is printed and the request repeated.  [targets] is what
    [requesting_coordinates] returns call after call; [None] is the loop
    still waiting when they are used up.  The lines are those of [shot] and
    of the handler; what [requesting_coordinates] prints is not in them. *)
Inductive line := Said (m : message) | Complaint (e : GameException).

Fixpoint move (targets : list Cell) (opponent : Board)
    : option (Board * list line * bool) :=
  match targets with
  | [] => None
  | target :: rest =>
      match shot target opponent with
      | (opponent, said, Return another_move) =>
          Some (opponent, Said <$> said, another_move)
      | (opponent, said, Raise e) =>
          match move rest opponent with
          | Some (opponent, lines, another_move) =>
              Some (opponent, (Said <$> said) ++ Complaint e :: lines,
                    another_move)
          | None => None
          end
      end
  end.

(** [AI.requesting_coordinates] draws both coordinates from
    [0 .. BOARD_SIZE - 1], with the global [BOARD_SIZE = 6]. *)
Definition BOARD_SIZE : Z := 6.

Definition ai_target (rnd : randomness) (k : nat) : option Cell :=
  r ← randint rnd k 0 (BOARD_SIZE - 1);
  c ← randint rnd (k + 1) 0 (BOARD_SIZE - 1);
  Some (mkCell r c).

(** One round of the loop of [User.requesting_coordinates].  What has been
    typed is given by what the string operations of the loop answer for it:
    [len(coords)], [column.isalpha()], [row.isdigit()], [int(row)] ([None]
    when it raises [ValueError]) and
    [LETTER_INDEX.find(column, 0, BOARD_SIZE)].  The round asks again with a
    message, returns a cell, or ends in the error of [int]. *)
Record typed := mkTyped {
  coords_len : nat;
  column_isalpha : bool;
  row_isdigit : bool;
  int_row : option Z;
  column_found : Z
}.

Inductive reminder := TwoCoordinates | LetterNumber | NoSuchNumber | NoSuchLetter.

Inductive request :=
  | AskAgain (m : reminder)
  | Coordinates (cell : Cell)
  | RequestError (e : error).

Definition request_round (t : typed) : request :=
  if bool_decide (coords_len t ≠ 2%nat) then AskAgain TwoCoordinates
  else if negb (row_isdigit t) || negb (column_isalpha t)
  then AskAgain LetterNumber
  else
    match int_row t with
    | None => RequestError ValueError
    | Some r =>
        if bool_decide (1 > r) && bool_decide (r > BOARD_SIZE)
        then AskAgain NoSuchNumber
        else if bool_decide (column_found t = -1) then AskAgain NoSuchLetter
        else Coordinates (mkCell (r - 1) (column_found t))
    end.

(** The state of [game_cycle]: the board of the user, the board of the
    computer and the counter [num], odd when the user is to move. *)
Record cycle := mkCycle {
  user_board : Board;
  computer_board : Board;
  num : Z
}.

Inductive verdict := UserWon | ComputerWon.

(** One round of the loop of [game_cycle], given the coordinates the mover
    comes up with: the state after it, and who has won if the loop is left.
    The user shoots at the board of the computer, the computer at the board
    of the user. *)
Definition cycle_round (st : cycle) (targets : list Cell)
    : option (cycle * option verdict) :=
  let user_moves := bool_decide (num st `mod` 2 ≠ 0) in
  match move targets (if user_moves then computer_board st
                      else user_board st) with
  | None => None
  | Some (shot_at, _, another_move) =>
      let st := if user_moves
                then mkCycle (user_board st) shot_at (num st)
                else mkCycle shot_at (computer_board st) (num st) in
      let st := if another_move
                then mkCycle (user_board st) (computer_board st) (num st - 1)
                else st in
      if bool_decide (count (computer_board st) = 7) then Some (st, Some UserWon)
      else if bool_decide (count (user_board st) = 7)
      then Some (st, Some ComputerWon)
      else Some (mkCycle (user_board st) (computer_board st) (num st + 1),
                 None)
  end.

(** The catalog as the specification words it: the reference catalog with
    the longest ships first, one ship dropped from the front for every unit
    the size is below 10. *)
Definition reference_by_length : list Z := [4; 3; 3; 2; 2; 2; 1; 1; 1; 1].

Definition catalog_by_spec (size : Z) : list Z :=
  drop (Z.to_nat (10 - size)) reference_by_length.

(** *** Vocabulary of the statements about the board *)

(** The mask of a board is a square of the side of the board, as
    [Board.__init__] builds it. *)
Definition board_wf (b : Board) : Prop :=
  length (mask b) = Z.to_nat (size b) ∧
  Forall (λ r, length r = Z.to_nat (size b)) (mask b).

#[global] Instance board_wf_dec b : Decision (board_wf b).
Proof. unfold board_wf. apply _. Defined.

Definition in_bounds (b : Board) (c : Cell) : Prop :=
  0 ≤ row c < size b ∧ 0 ≤ column c < size b.

#[global] Instance in_bounds_dec b c : Decision (in_bounds b c).
Proof. unfold in_bounds. apply _. Defined.

(** The cells [aureole] looks at, in the order of its two loops. *)
Definition halo_cells (ship : Ship) : list Cell :=
  cell ← cells ship; neighbour cell <$> around_ship.

(** A ship may be placed when each of its cells is inside the board and
    none of them is in the occupancy list. *)
Definition placeable (b : Board) (ship : Ship) : Prop :=
  Forall (λ c, in_bounds b c ∧ c ∉ occupy_cells b) (cells ship).

(** Every ship on the board has its cells, and the cells around them that
    lie on the board, in the occupancy list. *)
Definition covers (b : Board) (ship : Ship) : Prop :=
  (∀ c, c ∈ cells ship → c ∈ occupy_cells b) ∧
  (∀ n, n ∈ halo_cells ship → in_bounds b n → n ∈ occupy_cells b).

Definition placement_inv (b : Board) : Prop := Forall (covers b) (ships b).

#[global] Instance placeable_dec b ship : Decision (placeable b ship).
Proof. unfold placeable, in_bounds. apply _. Defined.

(** The board a successful shot at a ship leaves before the halo is
    looked at. *)
Definition hit_board (b : Board) (cell : Cell) (before : list Ship)
    (hit : Ship) (after : list Ship) : Board :=
  mkBoard (size b) (hide b) (count b) (mask_set (mask b) cell SHit)
    (occupy_cells b ++ [cell]) (before ++ hit :: after).

(** A cell of the mask shows a shot or a revealed halo. *)
Definition shown (m : list (list Sym)) (c : Cell) : Prop :=
  mask_get m c = Some SHit ∨ mask_get m c = Some SMiss
  ∨ mask_get m c = Some SHalo.

(** Two cells touch: they are the same cell or neighbours, also across a
    corner. *)
Definition near (c1 c2 : Cell) : Prop :=
  -1 ≤ row c2 - row c1 ≤ 1 ∧ -1 ≤ column c2 - column c1 ≤ 1.

#[global] Instance near_dec c1 c2 : Decision (near c1 c2).
Proof. unfold near. apply _. Defined.

(** No cell of the one list touches a cell of the other. *)
Definition apart (l1 l2 : list Cell) : Prop :=
  ∀ c1 c2, c1 ∈ l1 → c2 ∈ l2 → ¬ near c1 c2.

#[global] Instance apart_dec l1 l2 : Decision (apart l1 l2).
Proof.
  refine (cast_if
            (decide (Forall (λ c1, Forall (λ c2, ¬ near c1 c2) l2) l1)));
    rename select (_ (Forall _ _)) into H || rename select (Forall _ _) into H.
  - intros c1 c2 H1 H2. rewrite Forall_forall in H. specialize (H c1 H1).
    rewrite Forall_forall in H. by apply H.
  - intros Ha. apply H. apply Forall_forall. intros c1 H1.
    apply Forall_forall. intros c2 H2. by apply Ha.
Defined.

(** The lists are apart from one another, pair by pair. *)
Fixpoint separated (ls : list (list Cell)) : Prop :=
  match ls with
  | [] => True
  | l :: ls => Forall (apart l) ls ∧ separated ls
  end.

#[global] Instance separated_dec ls : Decision (separated ls).
Proof. induction ls; simpl; apply _. Defined.

(** The cells of a ship that are not in the occupancy list. *)
Definition unshot (b : Board) (ship : Ship) : list Cell :=
  filter (λ c, c ∉ occupy_cells b) (cells ship).

(** What holds of a board during the shooting: its ships do not touch, the
    health of a ship is the number of its cells not shot at yet, and the
    counter is the number of ships without health. *)
Record battle_inv (b : Board) : Prop := mkBattle {
  battle_separated : separated (cells <$> ships b);
  battle_health :
    Forall (λ s, health s = Z.of_nat (length (unshot b s))) (ships b);
  battle_count :
    count b = Z.of_nat (length (filter (λ s, health s = 0) (ships b)))
}.

(** The ships of a board lie on the board and do not touch. *)
Definition fleet_ok (b : Board) : Prop :=
  Forall (λ s, Forall (in_bounds b) (cells s)) (ships b) ∧
  separated (cells <$> ships b).

(** Every cell of the ship has been shot at. *)
Definition sunk (b : Board) (ship : Ship) : Prop :=
  Forall (λ c, c ∈ occupy_cells b) (cells ship).

#[global] Instance sunk_dec b ship : Decision (sunk b ship).
Proof. unfold sunk. apply _. Defined.

Definition sunk_ships (b : Board) : list Ship := filter (sunk b) (ships b).

(** A run of shots at one board, refused or not. *)
Definition shots (b : Board) (targets : list Cell) : Board :=
  foldl (λ b cell, (shot cell b).1.1) b targets.

(** The exception [shot] answers a cell it refuses with. *)
Definition refusal (b : Board) (cell : Cell) : GameException :=
  if outside_board b cell then BoardOutsideException
  else OccupiedCellException.

(** What an exit of the loops says about the counters it started from:
    [a] attempts and [k] calls of [randint].  Every attempt that samples
    a ship makes three calls, no exit leaves the counter above 2001, and
    the exit by exhaustion happens at the attempt after the 2000th. *)
Definition exit_within (a : Z) (k : nat) (r : loop_exit) : Prop :=
  match r with
  | Placed a' k' _ =>
      a ≤ a' ≤ 2000 ∧ Z.of_nat k' = Z.of_nat k + 3 * (a' - a)
  | Exhausted a' k' _ =>
      a' = 2001 ∧ Z.of_nat k' = Z.of_nat k + 3 * (2000 - a)
  | Crashed _ => True
  end.

Definition no_crash (r : loop_exit) : Prop :=
  match r with Crashed _ => False | _ => True end.

(** The ships on the board at an exit by [break]. *)
Definition placed_ships (n : nat) (r : loop_exit) : Prop :=
  match r with Placed _ _ b' => length (ships b') = n | _ => True end.

(** The position of the random source after [n] passes that all fail. *)
Fixpoint after_failures (rnd : randomness) (n : nat) (self_size : Z)
    (hide : bool) (k : nat) : option nat :=
  match n with
  | O => Some k
  | S n =>
      match random_place rnd self_size hide k with
      | Some (k', PassDone false _) => after_failures rnd n self_size hide k'
      | _ => None
      end
  end.

(** *** Sample data *)

(** The board [Board(size=6)] starts as, a two-cell ship in its corner and a
    one-cell ship next to it. *)
Definition board6 : Board :=
  mkBoard 6 false 0 (replicate 6 (replicate 6 SBlank)) [] [].

Definition corner_ship : Ship := Ship_init (mkCell 0 0) 2 0.

Definition near_ship : Ship := Ship_init (mkCell 1 1) 1 0.

(** [board6] with [corner_ship] placed, before and after [begin]. *)
Definition placed_board : Board := (add_ship corner_ship board6).1.

Definition battle_board : Board := begin placed_board.

(** A random source that always answers with the lower bound, and one that
    moves over the range as the calls go on. *)
Definition lowest : randomness := λ _ a _, a.

Definition scattered : randomness :=
  λ k a b, a + (Z.of_nat k / 3 + 2 * (Z.of_nat k `mod` 3)) `mod` (b - a + 1).

(** The board a pass with [scattered] returns on a 6 by 6 grid. *)
Definition fleet_board : Board :=
  match random_place scattered 6 false 0 with
  | Some (_, PassDone true b) => b
  | _ => board6
  end.

End SeaBattle.

(* ===================================================================== *)
(** * Part II: properties                                                 *)
(* ===================================================================== *)

Module XO_facts.
Import XO.

(** ** The dict operations *)

Lemma dict_set_keys d k v s :
  dict_get d k = Some v → keys (dict_set d k s) = keys d.
Proof.
  unfold keys. induction d as [|[k' v'] d IH]; csimpl; [done|].
  case_decide; csimpl; [done|]. intros Hg. f_equal. by apply IH.
Qed.

Lemma dict_set_restore d k v s :
  dict_get d k = Some v → dict_set (dict_set d k s) k v = d.
Proof.
  induction d as [|[k' v'] d IH]; simpl; [done|].
  case_decide as Hk; simpl.
  - intros [= ->]. by rewrite decide_True.
  - intros Hg. rewrite decide_False by done. by rewrite IH.
Qed.

Lemma dict_get_elem_of d k v :
  NoDup (keys d) → (k, v) ∈ d → dict_get d k = Some v.
Proof.
  unfold keys. induction d as [|[k' v'] d IH]; simpl.
  - by intros _ ?%elem_of_nil.
  - rewrite NoDup_cons. intros [Hk Hd] [[= -> ->]|Hin]%elem_of_cons.
    + by rewrite decide_True.
    + rewrite decide_False; [by apply IH|].
      intros ->. apply Hk. apply list_elem_of_fmap. by exists (k, v).
Qed.

Lemma elem_of_empty_cells d k :
  k ∈ get_empty_cells d ↔ (k, Blank) ∈ d.
Proof.
  unfold get_empty_cells. rewrite list_elem_of_fmap. split.
  - intros [[k' v] [-> [Hv ?]%list_elem_of_filter]]. simpl in *. by subst.
  - intros H. exists (k, Blank). split; [done|]. by apply list_elem_of_filter.
Qed.

Lemma dict_get_empty_cell d k :
  NoDup (keys d) → k ∈ get_empty_cells d → dict_get d k = Some Blank.
Proof. rewrite elem_of_empty_cells. apply dict_get_elem_of. Qed.

(** Writing a sign over a blank cell removes exactly one empty cell. *)
Lemma empty_cells_set_length d k s :
  dict_get d k = Some Blank → s ≠ Blank →
  S (length (get_empty_cells (dict_set d k s))) = length (get_empty_cells d).
Proof.
  unfold get_empty_cells. intros Hg Hs. rewrite !length_fmap.
  induction d as [|[k' v'] d IH]; cbn [dict_get dict_set] in *; [done|].
  case_decide as Hk.
  - injection Hg as ->. rewrite (filter_cons_False _ (k', s)) by done.
    by rewrite (filter_cons_True _ (k', Blank)).
  - destruct (decide (v' = Blank)) as [->|Hv].
    + rewrite !(filter_cons_True _ (k', Blank)) by done.
      rewrite !length_cons. f_equal. by apply IH.
    + rewrite !(filter_cons_False _ (k', v')) by done. by apply IH.
Qed.

Lemma players_sign_not_blank w p : players_sign (cast_lots w) p ≠ Blank.
Proof. by destruct w, p. Qed.

(** ** The loop without the board *)

Lemma search_loop_pure rec sign player v cells b bs bm :
  (∀ c, c ∈ cells → dict_get b c = Some Blank) →
  (∀ c, c ∈ cells → ∃ m,
      rec (dict_set b c sign) (negb player)
      = Some (dict_set b c sign, (v c, m))) →
  search_loop rec sign player cells b bs bm
  = Some (b, pure_loop v player cells bs bm).
Proof.
  revert bs bm. induction cells as [|c rest IH]; intros bs bm Hget Hrec.
  - done.
  - simpl. destruct (Hrec c) as [m ->]; [by left|].
    rewrite dict_set_restore by (apply Hget; by left).
    assert (∀ bs' bm', search_loop rec sign player rest b bs' bm'
                       = Some (b, pure_loop v player rest bs' bm')) as IH'.
    { intros. apply IH; intros; [apply Hget|apply Hrec]; by right. }
    rewrite !IH'. by repeat case_match.
Qed.

Lemma pure_loop_step player f pre rest c best :
  first_best player f pre c best →
  ∃ c' best',
    pure_loop (λ x, Fin (f x)) player rest (Fin best) (MCell c)
    = (Fin best', MCell c') ∧
    first_best player f (pre ++ rest) c' best'.
Proof.
  revert pre c best. induction rest as [|x rest IH]; intros pre c best Hfb.
  - exists c, best. by rewrite app_nil_r.
  - replace (pre ++ x :: rest) with ((pre ++ [x]) ++ rest)
      by by rewrite <-app_assoc.
    destruct Hfb as (l1 & l2 & -> & Hc & H1 & H2). simpl.
    destruct (decide (better player (f x) best)) as [Hb|Hb].
    + assert (first_best player f ((l1 ++ c :: l2) ++ [x]) x (f x)) as Hfb.
      { exists (l1 ++ c :: l2), []. split_and!; [done..| |done].
        rewrite Forall_app, Forall_cons. split_and!.
        - eapply Forall_impl; [exact H1|]. intros y Hy. simpl in Hy.
          destruct player; simpl in *; lia.
        - by rewrite Hc.
        - eapply Forall_impl; [exact H2|]. intros y Hy. simpl in Hy.
          destruct player; simpl in *; lia. }
      destruct player; simpl in Hb |- *.
      * rewrite bool_decide_eq_true_2 by done. by apply IH.
      * rewrite bool_decide_eq_true_2 by done. by apply IH.
    + assert (first_best player f ((l1 ++ c :: l2) ++ [x]) c best) as Hfb.
      { exists l1, (l2 ++ [x]). split_and!; [by rewrite <-app_assoc|done..|].
        rewrite Forall_app, Forall_singleton. done. }
      destruct player; simpl in Hb |- *.
      * rewrite bool_decide_eq_false_2 by done. by apply IH.
      * rewrite bool_decide_eq_false_2 by done. by apply IH.
Qed.

(** From the initial [-inf] / [inf] the first cell always replaces the
    initial [''], whatever its score. *)
Lemma pure_loop_first_best player f c rest :
  ∃ c' best,
    pure_loop (λ x, Fin (f x)) player (c :: rest)
      (if player then NegInf else PosInf) MEmptyStr
    = (Fin best, MCell c') ∧
    first_best player f (c :: rest) c' best.
Proof.
  destruct (pure_loop_step player f [c] rest c (f c)) as (c' & best' & ? & ?).
  { exists [], []. split_and!; by try constructor. }
  exists c', best'. split; [|done]. by destruct player.
Qed.

(** ** Termination: the fuel is enough, and more fuel changes nothing *)

Lemma search_loop_mono (rec1 rec2 : board → bool → option (board * result))
    sign player cells b bs bm r :
  (∀ b' p' r', rec1 b' p' = Some r' → rec2 b' p' = Some r') →
  search_loop rec1 sign player cells b bs bm = Some r →
  search_loop rec2 sign player cells b bs bm = Some r.
Proof.
  intros Hrec. revert b bs bm.
  induction cells as [|c rest IH]; intros b bs bm; simpl; [done|].
  destruct (rec1 _ _) as [[b' [res m]]|] eqn:E; [|done].
  rewrite (Hrec _ _ _ E). repeat case_match; apply IH.
Qed.

Lemma get_best_move_fuel_eq fuel signs b p :
  get_best_move_fuel (S fuel) signs b p =
  if get_winning b && p then Some (b, (Fin (-10), MNone))
  else if get_winning b && negb p then Some (b, (Fin 10, MNone))
  else if bool_decide (get_empty_cells b = []) then Some (b, (Fin 0, MNone))
  else search_loop (get_best_move_fuel fuel signs) (players_sign signs p) p
         (get_empty_cells b) b (if p then NegInf else PosInf) MEmptyStr.
Proof. done. Qed.

Lemma get_best_move_fuel_S fuel signs b p r :
  get_best_move_fuel fuel signs b p = Some r →
  get_best_move_fuel (S fuel) signs b p = Some r.
Proof.
  revert b p r. induction fuel as [|fuel IH]; intros b p r; [done|].
  rewrite (get_best_move_fuel_eq (S fuel)), (get_best_move_fuel_eq fuel).
  repeat case_match; try done;
    apply search_loop_mono; intros b' p' r'; apply IH.
Qed.

Lemma get_best_move_fuel_le fuel fuel' signs b p r :
  (fuel ≤ fuel')%nat →
  get_best_move_fuel fuel signs b p = Some r →
  get_best_move_fuel fuel' signs b p = Some r.
Proof.
  induction 1 as [|fuel' _ IH]; [done|].
  intros H. by apply get_best_move_fuel_S, IH.
Qed.

(** With one level per blank cell and one to spare the search returns: a
    finite score, and the board it was given. *)
Lemma get_best_move_fuel_total w fuel b p :
  NoDup (keys b) →
  (length (get_empty_cells b) < fuel)%nat →
  ∃ z m, get_best_move_fuel fuel (cast_lots w) b p = Some (b, (Fin z, m)).
Proof.
  revert b p. induction fuel as [|fuel IH]; intros b p Hnd Hlen; [lia|].
  rewrite get_best_move_fuel_eq.
  destruct (get_winning b && p); [by eexists _, _|].
  destruct (get_winning b && negb p); [by eexists _, _|].
  case_bool_decide as Hrm; [by eexists _, _|].
  set (sign := players_sign (cast_lots w) p).
  set (f := λ c, match get_best_move_fuel fuel (cast_lots w)
                         (dict_set b c sign) (negb p) with
                 | Some (_, (Fin z, _)) => z
                 | _ => 0
                 end).
  rewrite (search_loop_pure _ sign p (λ c, Fin (f c))).
  - destruct (get_empty_cells b) as [|c rest]; [done|].
    destruct (pure_loop_first_best p f c rest) as (c' & best & -> & _).
    by eexists _, _.
  - intros c. apply dict_get_empty_cell, Hnd.
  - intros c Hc. pose proof (dict_get_empty_cell _ _ Hnd Hc) as Hg.
    destruct (IH (dict_set b c sign) (negb p)) as (z & m & Hz).
    + unfold keys in *. by erewrite dict_set_keys.
    + pose proof (empty_cells_set_length b c sign Hg
                    (players_sign_not_blank w p)). lia.
    + exists m. unfold f. by rewrite Hz.
Qed.

Lemma get_best_move_fuel_enough w fuel b p :
  NoDup (keys b) →
  (length (get_empty_cells b) < fuel)%nat →
  get_best_move_fuel fuel (cast_lots w) b p = get_best_move (cast_lots w) b p.
Proof.
  intros Hnd Hlen. unfold get_best_move.
  destruct (get_best_move_fuel_total w (S (length (get_empty_cells b))) b p)
    as (z & m & Hz); [done|lia|].
  rewrite Hz. eapply get_best_move_fuel_le; [|exact Hz]. lia.
Qed.

Lemma get_best_move_total w b p :
  NoDup (keys b) →
  ∃ z m, get_best_move (cast_lots w) b p = Some (b, (Fin z, m)).
Proof. intros Hnd. apply get_best_move_fuel_total; [done|lia]. Qed.

Lemma trial_score_total w b p c :
  NoDup (keys b) → c ∈ get_empty_cells b →
  trial_score (cast_lots w) b p c = Some (Fin (trial_z (cast_lots w) b p c)).
Proof.
  intros Hnd Hc. unfold trial_z, trial_score.
  destruct (get_best_move_total w
              (dict_set b c (players_sign (cast_lots w) p)) (negb p))
    as (z & m & ->); [|done].
  unfold keys in *. erewrite dict_set_keys; [done|].
  by apply dict_get_empty_cell.
Qed.

(** On a position that is not terminal the search is the fold of the loop
    over the blank cells, and the board is the one it was given. *)
Lemma get_best_move_unfold w b p :
  NoDup (keys b) →
  get_winning b = false →
  get_empty_cells b ≠ [] →
  get_best_move (cast_lots w) b p
  = Some (b, pure_loop (λ c, Fin (trial_z (cast_lots w) b p c)) p
               (get_empty_cells b)
               (if p then NegInf else PosInf) MEmptyStr).
Proof.
  intros Hnd Hwin Hrm. unfold get_best_move at 1.
  rewrite get_best_move_fuel_eq, Hwin. cbn [andb].
  rewrite bool_decide_eq_false_2 by done.
  apply search_loop_pure.
  - intros c. by apply dict_get_empty_cell.
  - intros c Hc. pose proof (dict_get_empty_cell _ _ Hnd Hc) as Hg.
    pose proof (trial_score_total w b p c Hnd Hc) as Ht.
    unfold trial_score in Ht.
    rewrite get_best_move_fuel_enough.
    + destruct (get_best_move_total w
                  (dict_set b c (players_sign (cast_lots w) p)) (negb p))
        as (z & m & Hz).
      { unfold keys in *. by erewrite dict_set_keys. }
      rewrite Hz in Ht |- *. injection Ht as <-. by exists m.
    + unfold keys in *. by erewrite dict_set_keys.
    + pose proof (empty_cells_set_length b c _ Hg
                    (players_sign_not_blank w p)). lia.
Qed.


Lemma is_board_NoDup b : is_board b → NoDup (keys b).
Proof. intros ->. apply NoDup_seq. Qed.


Lemma reachable_is_board b : reachable b → is_board b.
Proof.
  induction 1 as [|b c s _ IH Hc _]; [done|].
  unfold is_board, keys in *. erewrite dict_set_keys; [done|].
  apply dict_get_empty_cell; [|done]. unfold keys. rewrite IH.
  apply NoDup_seq.
Qed.

(** The shape of the result on a position that is not terminal. *)
Lemma get_best_move_first_best w b p :
  NoDup (keys b) → get_winning b = false → get_empty_cells b ≠ [] →
  ∃ best c,
    get_best_move (cast_lots w) b p = Some (b, (Fin best, MCell c)) ∧
    first_best p (trial_z (cast_lots w) b p) (get_empty_cells b) c best.
Proof.
  intros Hnd Hwin Hrm. rewrite get_best_move_unfold by done.
  destruct (get_empty_cells b) as [|c0 rest]; [done|].
  destruct (pure_loop_first_best p (trial_z (cast_lots w) b p) c0 rest)
    as (c & best & -> & Hfb).
  by exists best, c.
Qed.

(** ** The search *)

(** With X in the hands of the side the flag [True] stands for, the search
    completes the bottom row. *)
Example get_best_move_takes_win :
  get_best_move (cast_lots false) two_in_row true
  = Some (two_in_row, (Fin 10, MCell 3)).
Proof. by vm_compute. Qed.

(** On [tie_board] the blank cells are 3, 4, 6, 7 and 8; the trials of 4
    and of 7 reach the best score, and the search answers 4. *)
Example get_best_move_tie :
  (λ c, trial_score (cast_lots false) tie_board true c)
    <$> get_empty_cells tie_board
  = Some <$> [Fin 0; Fin 10; Fin 0; Fin 10; Fin 0] ∧
  get_best_move (cast_lots false) tie_board true
  = Some (tie_board, (Fin 10, MCell 4)).
Proof. by vm_compute. Qed.

(** C1: on every 3x3 board (the reachable ones are among them, see
    [reachable_is_board]) on which the game is not over and a blank cell is
    left, [get_best_move] returns, for either side flag, a cell number, and
    that cell is one of the blank cells of the board it was given. *)
Theorem get_best_move_returns_empty_cell w b p :
  is_board b → get_winning b = false → get_empty_cells b ≠ [] →
  ∃ s c,
    get_best_move (cast_lots w) b p = Some (b, (s, MCell c)) ∧
    c ∈ get_empty_cells b ∧ dict_get b c = Some Blank.
Proof.
  intros Hb Hwin Hrm. apply is_board_NoDup in Hb.
  destruct (get_best_move_first_best w b p) as
    (best & c & Hr & l1 & l2 & Hl & _); [done..|].
  assert (c ∈ get_empty_cells b) by (rewrite Hl; set_solver).
  exists (Fin best), c. split_and!; [done..|].
  by apply dict_get_empty_cell.
Qed.

Lemma get_best_move_returns_empty_cell_witness :
  ∃ s c,
    get_best_move (cast_lots true) late_board true
    = Some (late_board, (s, MCell c)) ∧
    c ∈ get_empty_cells late_board ∧ dict_get late_board c = Some Blank.
Proof.
  apply (get_best_move_returns_empty_cell true late_board true).
  - reflexivity.
  - vm_compute. reflexivity.
  - vm_compute. discriminate.
Defined.

(** C2: [get_best_move] returns, and the board it hands back is the board
    it was given: with enough recursion depth it yields a result on the
    unchanged board, and at no depth does a call that returns leave a trial
    mark behind. *)
Theorem get_best_move_restores_board w b p :
  NoDup (keys b) →
  (∃ r, get_best_move (cast_lots w) b p = Some (b, r)) ∧
  (∀ fuel b' r,
      get_best_move_fuel fuel (cast_lots w) b p = Some (b', r) → b' = b).
Proof.
  intros Hnd.
  destruct (get_best_move_total w b p Hnd) as (z & m & Hz).
  split; [by eexists|]. intros fuel b' r Hf.
  pose (n := (fuel `max` S (length (get_empty_cells b)))%nat).
  assert (get_best_move_fuel n (cast_lots w) b p = Some (b', r)) as H1.
  { eapply get_best_move_fuel_le; [|exact Hf]. lia. }
  rewrite get_best_move_fuel_enough in H1 by (done || lia).
  congruence.
Qed.

Lemma get_best_move_restores_board_witness :
  (∃ r, get_best_move (cast_lots false) open_board false
        = Some (open_board, r)) ∧
  (∀ fuel b' r,
      get_best_move_fuel fuel (cast_lots false) open_board false
      = Some (b', r) → b' = open_board).
Proof.
  apply (get_best_move_restores_board false open_board false).
  exact (NoDup_seq 1 9).
Defined.



(** ** The terminal detector *)

Lemma elem_of_cells_of s b k : k ∈ cells_of s b ↔ (k, s) ∈ b.
Proof.
  unfold cells_of. rewrite elem_of_list_to_set, list_elem_of_fmap. split.
  - intros [[k' v] [-> [Hv ?]%list_elem_of_filter]]. simpl in *. by subst.
  - intros Hin. exists (k, s). split; [done|]. by apply list_elem_of_filter.
Qed.

(** A set meets a triple of distinct cells in three elements exactly when
    it contains all three. *)
Lemma size_inter_line (cs : gset nat) (a b c : nat) :
  a ≠ b → a ≠ c → b ≠ c →
  size (cs ∩ line_set (a, b, c)) = 3%nat ↔ a ∈ cs ∧ b ∈ cs ∧ c ∈ cs.
Proof.
  intros Hab Hac Hbc. unfold line_set. simpl.
  assert (size ({[a; b; c]} : gset nat) = 3%nat) as Hsize.
  { rewrite size_union, size_union, !size_singleton; [done|..].
    - by apply disjoint_singleton_l, not_elem_of_singleton.
    - apply disjoint_union_l.
      split; by apply disjoint_singleton_l, not_elem_of_singleton. }
  assert (∀ x, x ∈ ({[a; b; c]} : gset nat) ↔ x = a ∨ x = b ∨ x = c) as Hin.
  { intros x. rewrite !elem_of_union, !elem_of_singleton. tauto. }
  split.
  - intros H3.
    assert (cs ∩ {[a; b; c]} ≡ {[a; b; c]}) as Heq.
    { apply set_subseteq_size_equiv; [apply intersection_subseteq_r|].
      by rewrite H3, Hsize. }
    assert (∀ x, x = a ∨ x = b ∨ x = c → x ∈ cs) as Hcs.
    { intros x Hx. apply Hin, Heq, elem_of_intersection in Hx. tauto. }
    split_and!; apply Hcs; tauto.
  - intros (Ha & Hb & Hc).
    assert (cs ∩ {[a; b; c]} ≡ {[a; b; c]}) as Heq.
    { intros x. rewrite elem_of_intersection, Hin.
      split; [tauto|]. intros Hx. split; [|done].
      destruct Hx as [->|[->| ->]]; done. }
    by rewrite Heq.
Qed.

Lemma win_lines_distinct :
  Forall (λ l : nat * nat * nat, l.1.1 ≠ l.1.2 ∧ l.1.1 ≠ l.2 ∧ l.1.2 ≠ l.2)
    win_lines.
Proof. repeat constructor; simpl; lia. Qed.

Lemma line_owned_iff s b line :
  line ∈ win_lines →
  size (cells_of s b ∩ line_set line) = 3%nat ↔ owns s b line.
Proof.
  intros Hl. unfold owns. rewrite <-!elem_of_cells_of.
  pose proof win_lines_distinct as Hd. rewrite Forall_forall in Hd.
  destruct (Hd _ Hl) as (? & ? & ?). destruct line as [[a c] d].
  by apply size_inter_line.
Qed.

Lemma get_winning_true b :
  get_winning b = true ↔
  ∃ line s, line ∈ win_lines ∧ (s = X ∨ s = Nought) ∧ owns s b line.
Proof.
  unfold get_winning. rewrite existsb_exists. split.
  - intros (line & Hl%list_elem_of_In & Hor). exists line.
    apply orb_true_iff in Hor as [H|H]; apply bool_decide_eq_true in H;
      apply line_owned_iff in H; eauto.
  - intros (line & s & Hl & Hs & Hown). exists line.
    split; [by apply list_elem_of_In|]. apply orb_true_iff.
    apply (line_owned_iff _ _ _ Hl) in Hown.
    destruct Hs as [-> | ->]; [left|right]; by apply bool_decide_eq_true.
Qed.

(** C4, as stated: the detector would report a full board without a line.
    On [drawn_board] no blank cell is left and the detector answers
    [false]. *)
Lemma get_winning_not_draw :
  get_empty_cells drawn_board = [] ∧
  ¬ (get_winning drawn_board = true ↔
     (∃ line s, line ∈ win_lines ∧ (s = X ∨ s = Nought)
                ∧ owns s drawn_board line)
     ∨ get_empty_cells drawn_board = []).
Proof.
  split; [done|]. intros [_ H].
  assert (get_winning drawn_board = true) as Hw by (apply H; by right).
  vm_compute in Hw. discriminate.
Qed.

(** C4, amended: on any board, partially filled or full, [get_winning]
    answers [true] exactly when one of the eight lines is held by one side,
    X or 0; a full board without such a line gets [false].  It reads the
    board and returns a bool. *)
Theorem get_winning_iff_line_owned b :
  (get_winning b = true ↔
   ∃ line s, line ∈ win_lines ∧ (s = X ∨ s = Nought) ∧ owns s b line) ∧
  length win_lines = 8%nat.
Proof. split; [apply get_winning_true|done]. Qed.

End XO_facts.

Module XO_search_facts.
Import XO XO_facts.

(** ** More on the dict and the two readers of the board *)

Lemma dict_get_set_eq d k v : dict_get (dict_set d k v) k = Some v.
Proof.
  induction d as [|[k' v'] d IH]; simpl.
  - by rewrite decide_True.
  - destruct (decide (k' = k)) as [->|Hne]; simpl.
    + by rewrite decide_True.
    + by rewrite decide_False.
Qed.

Lemma dict_get_set_ne d k k' v :
  k ≠ k' → dict_get (dict_set d k v) k' = dict_get d k'.
Proof.
  intros Hne. induction d as [|[k0 v0] d IH]; simpl.
  - by rewrite decide_False.
  - destruct (decide (k0 = k)) as [->|Hk]; simpl.
    + by rewrite !decide_False.
    + by rewrite IH.
Qed.

Lemma dict_get_Some_elem_of d k v : dict_get d k = Some v → (k, v) ∈ d.
Proof.
  induction d as [|[k' v'] d IH]; simpl; [done|].
  destruct (decide (k' = k)) as [->|Hne].
  - intros [= ->]. by left.
  - intros Hg. right. by apply IH.
Qed.

Lemma elem_of_dict_get d k v :
  NoDup (keys d) → (k, v) ∈ d ↔ dict_get d k = Some v.
Proof.
  intros Hnd. split; [by apply dict_get_elem_of|].
  apply dict_get_Some_elem_of.
Qed.

Lemma dict_set_NoDup d k v s :
  dict_get d k = Some v → NoDup (keys d) → NoDup (keys (dict_set d k s)).
Proof. intros Hg Hnd. by erewrite dict_set_keys. Qed.

(** A cell other than the one written holds what it held. *)
Lemma elem_of_dict_set_ne d c s k v :
  NoDup (keys d) → dict_get d c = Some Blank → k ≠ c →
  (k, v) ∈ dict_set d c s ↔ (k, v) ∈ d.
Proof.
  intros Hnd Hc Hne.
  rewrite !elem_of_dict_get by eauto using dict_set_NoDup.
  by rewrite dict_get_set_ne.
Qed.

Lemma filter_all {A} (P : A → Prop) `{!∀ x, Decision (P x)} (l : list A) :
  Forall P l → filter P l = l.
Proof.
  induction 1 as [|x l Hx _ IH]; [done|].
  by rewrite filter_cons_True, IH.
Qed.

(** X1: writing a sign into a blank cell takes that cell, and no other, out of
    the list of blank cells; the order of the rest is kept. *)
Theorem get_empty_cells_after_move b c s :
  NoDup (keys b) → c ∈ get_empty_cells b → s ≠ Blank →
  get_empty_cells (dict_set b c s)
  = filter (λ k, k ≠ c) (get_empty_cells b).
Proof.
  unfold get_empty_cells, keys. intros Hnd Hc Hs.
  apply elem_of_empty_cells in Hc.
  induction b as [|[k v] b IH]; [by apply elem_of_nil in Hc|].
  apply NoDup_cons in Hnd as [Hk Hnd]. cbn [dict_set].
  destruct (decide (k = c)) as [->|Hne].
  - assert (v = Blank) as ->.
    { apply elem_of_cons in Hc as [[= ->]|Hin]; [done|].
      destruct Hk. apply list_elem_of_fmap. by exists (c, Blank). }
    rewrite (filter_cons_False _ (c, s)) by done.
    rewrite (filter_cons_True _ (c, Blank)) by done. csimpl.
    rewrite filter_cons_False by naive_solver.
    symmetry. apply filter_all, Forall_forall.
    intros k' Hk' ->. apply Hk.
    apply list_elem_of_fmap in Hk' as [y [-> Hy]].
    apply list_elem_of_filter in Hy as [_ Hy].
    apply list_elem_of_fmap. by exists y.
  - apply elem_of_cons in Hc as [[= -> ->]|Hin]; [done|].
    destruct (decide (v = Blank)) as [->|Hv].
    + rewrite !(filter_cons_True _ (k, Blank)) by done. csimpl.
      rewrite filter_cons_True by done. f_equal. by apply IH.
    + rewrite !(filter_cons_False _ (k, v)) by done. by apply IH.
Qed.

Lemma get_empty_cells_after_move_witness :
  get_empty_cells (dict_set tie_board 4%nat X)
  = filter (λ k, k ≠ 4%nat) (get_empty_cells tie_board).
Proof.
  apply (get_empty_cells_after_move tie_board 4%nat X).
  - exact (NoDup_seq 1 9).
  - compute_done.
  - discriminate.
Defined.

(** X2: a line that is held stays held: after a further move into a blank cell
    [get_winning] still answers [True]. *)
Theorem get_winning_stays b c s :
  NoDup (keys b) → c ∈ get_empty_cells b →
  get_winning b = true → get_winning (dict_set b c s) = true.
Proof.
  intros Hnd Hc Hw. pose proof (dict_get_empty_cell _ _ Hnd Hc) as Hg.
  apply get_winning_true in Hw as (line & s' & Hl & Hs' & H1 & H2 & H3).
  assert (∀ k, (k, s') ∈ b → (k, s') ∈ dict_set b c s) as Hkept.
  { intros k Hk. apply elem_of_dict_set_ne; [done..| |done].
    intros ->. apply (dict_get_elem_of _ _ _ Hnd) in Hk.
    destruct Hs' as [-> | ->]; congruence. }
  apply get_winning_true. exists line, s'.
  split_and!; [done..|]. split_and!; by apply Hkept.
Qed.

Lemma get_winning_stays_witness :
  get_winning (dict_set (dict_set two_in_row 3%nat X) 6%nat Nought) = true.
Proof.
  apply (get_winning_stays (dict_set two_in_row 3%nat X) 6%nat Nought).
  - exact (NoDup_seq 1 9).
  - compute_done.
  - by vm_compute.
Defined.

(** ** More on the search *)

(** On a board that is won or full the search does not look further. *)
Lemma get_best_move_terminal signs b p :
  get_winning b = true ∨ get_empty_cells b = [] →
  get_best_move signs b p
  = Some (b, (Fin (if get_winning b then if p then -10 else 10 else 0),
              MNone)).
Proof.
  intros Ht. unfold get_best_move. rewrite get_best_move_fuel_eq.
  destruct (get_winning b) eqn:Hw; [by destruct p|].
  destruct Ht as [?|He]; [done|].
  rewrite !andb_false_l. by rewrite bool_decide_eq_true_2.
Qed.

Lemma get_best_move_range w n b p :
  (length (get_empty_cells b) ≤ n)%nat → NoDup (keys b) →
  ∃ z m, get_best_move (cast_lots w) b p = Some (b, (Fin z, m)) ∧
         (z = -10 ∨ z = 0 ∨ z = 10).
Proof.
  revert b p. induction n as [|n IH]; intros b p Hlen Hnd.
  - rewrite get_best_move_terminal.
    + eexists _, _. split; [done|]. by repeat case_match; auto.
    + right. by apply nil_length_inv, Nat.le_0_r.
  - destruct (get_winning b) eqn:Hw.
    { rewrite get_best_move_terminal by auto. rewrite Hw.
      eexists _, _. split; [done|]. by destruct p; auto. }
    destruct (decide (get_empty_cells b = [])) as [He|He].
    { rewrite get_best_move_terminal by auto. rewrite Hw.
      eexists _, _. split; [done|]. auto. }
    destruct (get_best_move_first_best w b p Hnd Hw He)
      as (best & c & -> & l1 & l2 & Hl & Hc & _).
    eexists _, _. split; [done|].
    assert (c ∈ get_empty_cells b) as Hin
      by (rewrite Hl; apply elem_of_app; right; by left).
    pose proof (dict_get_empty_cell _ _ Hnd Hin) as Hg.
    destruct (IH (dict_set b c (players_sign (cast_lots w) p)) (negb p))
      as (z & m & Hz & Hr).
    + pose proof (empty_cells_set_length b c _ Hg
                    (players_sign_not_blank w p)). lia.
    + by eapply dict_set_NoDup.
    + rewrite <-Hc. unfold trial_z, trial_score. by rewrite Hz.
Qed.

(** X3: the search always comes back with one of the scores -10, 0 and 10.  The
    cell it names is [None] exactly on a board that is won or full: there
    the score is -10 or 10 by the side flag when the board is won, and 0
    when it is only full. *)
Theorem get_best_move_outcome w b p :
  NoDup (keys b) →
  ∃ z m,
    get_best_move (cast_lots w) b p = Some (b, (Fin z, m)) ∧
    (z = -10 ∨ z = 0 ∨ z = 10) ∧
    (m = MNone ↔ get_winning b = true ∨ get_empty_cells b = []) ∧
    (get_winning b = true → z = if p then -10 else 10) ∧
    (get_winning b = false → get_empty_cells b = [] → z = 0).
Proof.
  intros Hnd.
  destruct (get_best_move_range w _ b p (Nat.le_refl _) Hnd)
    as (z & m & Hz & Hr).
  exists z, m. split_and!; [done..| | |].
  - destruct (get_winning b) eqn:Hw.
    { rewrite get_best_move_terminal in Hz by auto.
      injection Hz as _ <-. split; auto. }
    destruct (decide (get_empty_cells b = [])) as [He|He].
    { rewrite get_best_move_terminal in Hz by auto.
      injection Hz as _ <-. split; auto. }
    destruct (get_best_move_first_best w b p Hnd Hw He)
      as (best & c & Hb & _).
    rewrite Hb in Hz. injection Hz as _ <-.
    split; [done|]. by intros [?|?].
  - intros Hw. rewrite get_best_move_terminal in Hz by auto.
    rewrite Hw in Hz. by injection Hz as <- _.
  - intros Hw He. rewrite get_best_move_terminal in Hz by auto.
    rewrite Hw in Hz. by injection Hz as <- _.
Qed.

Lemma get_best_move_outcome_witness :
  ∃ z m,
    get_best_move (cast_lots true) drawn_board false
    = Some (drawn_board, (Fin z, m)) ∧
    (z = -10 ∨ z = 0 ∨ z = 10) ∧
    (m = MNone ↔
     get_winning drawn_board = true ∨ get_empty_cells drawn_board = []) ∧
    (get_winning drawn_board = true → z = if false then -10 else 10) ∧
    (get_winning drawn_board = false →
     get_empty_cells drawn_board = [] → z = 0).
Proof.
  apply (get_best_move_outcome true drawn_board false).
  exact (NoDup_seq 1 9).
Defined.

(** X4: when the side to move can complete a line at once, the search scores
    the position as won for that side, 10 under the flag [True] and -10
    under [False], and names a blank cell whose trial has that score. *)
Theorem get_best_move_sees_win w b p c :
  NoDup (keys b) → get_winning b = false → c ∈ get_empty_cells b →
  get_winning (dict_set b c (players_sign (cast_lots w) p)) = true →
  ∃ c',
    get_best_move (cast_lots w) b p
    = Some (b, (Fin (if p then 10 else -10), MCell c')) ∧
    c' ∈ get_empty_cells b ∧
    trial_score (cast_lots w) b p c' = Some (Fin (if p then 10 else -10)).
Proof.
  intros Hnd Hw Hc Hwin.
  assert (get_empty_cells b ≠ []) as He.
  { intros E. rewrite E in Hc. by apply elem_of_nil in Hc. }
  destruct (get_best_move_first_best w b p Hnd Hw He)
    as (best & c' & Hb & l1 & l2 & Hl & Hbest & H1 & H2).
  assert (c' ∈ get_empty_cells b) as Hin'
    by (rewrite Hl; apply elem_of_app; right; by left).
  assert (trial_z (cast_lots w) b p c = if p then 10 else -10) as Htc.
  { unfold trial_z, trial_score.
    rewrite get_best_move_terminal by auto. rewrite Hwin. by destruct p. }
  assert (best = -10 ∨ best = 0 ∨ best = 10) as Hrange.
  { destruct (get_best_move_range w _ b p (Nat.le_refl _) Hnd)
      as (z & m & Hz & Hr). rewrite Hb in Hz. by injection Hz as <- _. }
  assert (best = if p then 10 else -10) as ->.
  { rewrite Forall_forall in H1, H2. rewrite Hl in Hc.
    apply elem_of_app in Hc as [Hc|[->|Hc]%elem_of_cons].
    - specialize (H1 _ Hc). rewrite Htc in H1.
      destruct p; simpl in H1; lia.
    - by rewrite <-Hbest.
    - specialize (H2 _ Hc). rewrite Htc in H2.
      destruct p; simpl in H2; lia. }
  exists c'. split_and!; [done..|].
  rewrite trial_score_total by done. by rewrite Hbest.
Qed.

Lemma get_best_move_sees_win_witness :
  ∃ c',
    get_best_move (cast_lots false) two_in_row true
    = Some (two_in_row, (Fin (if true then 10 else -10), MCell c')) ∧
    c' ∈ get_empty_cells two_in_row ∧
    trial_score (cast_lots false) two_in_row true c'
    = Some (Fin (if true then 10 else -10)).
Proof.
  apply (get_best_move_sees_win false two_in_row true 3%nat).
  - exact (NoDup_seq 1 9).
  - by vm_compute.
  - compute_done.
  - by vm_compute.
Defined.

End XO_search_facts.

Module XO_game_facts.
Import XO XO_facts XO_search_facts.

(** ** Boards of the series *)

(** A 3x3 board is its nine marks. *)
Lemma is_board_marks b :
  is_board b → ∃ ms, length ms = 9%nat ∧ b = of_marks ms.
Proof.
  unfold is_board, keys. intros Hk. exists b.*2.
  assert (length b = 9%nat) as Hlen.
  { rewrite <-(length_fmap fst), Hk. done. }
  split; [by rewrite length_fmap|].
  unfold of_marks. rewrite length_fmap, Hlen, <-Hk.
  by rewrite zip_fst_snd.
Qed.

Lemma get_board_on_board b : is_board b → get_board_on b = get_board.
Proof.
  intros (ms & Hlen & ->)%is_board_marks.
  do 10 (destruct ms as [|? ms]; try done).
Qed.

Lemma is_board_dict_set b c s :
  is_board b → c ∈ get_empty_cells b → is_board (dict_set b c s).
Proof.
  intros Hb Hc. unfold is_board, keys in *.
  erewrite dict_set_keys; [done|].
  apply dict_get_empty_cell; [|done]. by apply is_board_NoDup.
Qed.

Lemma empty_cell_positive b c :
  is_board b → c ∈ get_empty_cells b → (1 ≤ c ≤ 9)%nat.
Proof.
  intros Hb Hc. apply elem_of_empty_cells in Hc.
  assert (c ∈ keys b) as Hk.
  { unfold keys. apply list_elem_of_fmap. by exists (c, Blank). }
  rewrite Hb in Hk. apply elem_of_seq in Hk. lia.
Qed.

(** Writing a sign over a blank adds one to the number of that sign and
    leaves the number of the other sign. *)
Lemma count_mark_set b c s s' :
  dict_get b c = Some Blank → s ≠ Blank → s' ≠ Blank →
  count_mark s' (dict_set b c s)
  = if decide (s' = s) then S (count_mark s' b) else count_mark s' b.
Proof.
  unfold count_mark. intros Hg Hs Hs'.
  destruct (decide (s' = s)) as [->|Hd];
    (induction b as [|[k v] b IH]; cbn [dict_get dict_set] in *; [done|]);
    (destruct (decide (k = c)) as [->|Hne];
     [injection Hg as ->;
      rewrite (filter_cons_False _ (c, Blank)) by (simpl; congruence)|]).
  - by rewrite (filter_cons_True _ (c, s)).
  - destruct (decide (v = s)) as [->|Hv].
    + rewrite !(filter_cons_True _ (k, s)) by done.
      rewrite !length_cons. f_equal. by apply IH.
    + rewrite !(filter_cons_False _ (k, v)) by done. by apply IH.
  - by rewrite (filter_cons_False _ (c, s)) by (simpl; congruence).
  - destruct (decide (v = s')) as [->|Hv].
    + rewrite !(filter_cons_True _ (k, s')) by done.
      rewrite !length_cons. f_equal. by apply IH.
    + rewrite !(filter_cons_False _ (k, v)) by done. by apply IH.
Qed.

Lemma cast_lots_signs w :
  (cast_lots w).1 ≠ Blank ∧ (cast_lots w).2 ≠ Blank ∧
  ((cast_lots w).1 = X ↔ (cast_lots w).2 = Nought) ∧
  ((cast_lots w).1 = Nought ↔ (cast_lots w).2 = X).
Proof. by destruct w. Qed.

Lemma get_board_facts :
  is_board get_board ∧ get_winning get_board = false ∧
  length (get_empty_cells get_board) = 9%nat ∧
  count_mark X get_board = 0%nat ∧ count_mark Nought get_board = 0%nat.
Proof. split_and!; by vm_compute. Qed.

Lemma game_inv_reset (p0 p1 : player) (m : bool) cn :
  (∃ w, (sign p0, sign p1) = cast_lots w) →
  sign (if m then p1 else p0) = X →
  who_playing p0 = Human ∨ who_playing p0 = AiEasy →
  game_inv (mkGame get_board p0 p1 m 9 cn).
Proof.
  intros Hs Hx Hk.
  destruct get_board_facts as (H1 & H2 & H3 & H4 & H5).
  constructor; cbn [cur_board remaining_moves players0 players1 whose_move];
    try done.
  left. rewrite H4, H5. split; [done|]. by destruct m.
Qed.

(** The loop body from the assignment on keeps what holds at the head of
    the loop, whichever blank cell the move goes to. *)
Lemma make_move_inv g c inp :
  game_inv g → c ∈ get_empty_cells (cur_board g) →
  game_inv (make_move g (cur_board g) c inp).
Proof.
  intros [Hb Hw Hr He [w Hs] Ht Hk] Hc.
  pose proof (is_board_NoDup _ Hb) as Hnd.
  pose proof (dict_get_empty_cell _ _ Hnd Hc) as Hg.
  destruct g as [b p0 p1 m r cn].
  unfold signs_of, make_move, players in *.
  cbn [cur_board players0 players1 whose_move remaining_moves] in *.
  set (s := sign (if m then p1 else p0)) in *.
  assert (s ≠ Blank) as Hsb by (destruct Ht as [[_ ->]|[_ ->]]; done).
  pose proof (is_board_dict_set b c s Hb Hc) as Hb'.
  pose proof (empty_cells_set_length b c s Hg Hsb) as Hlen.
  assert (sign p0 = X ∧ sign p1 = Nought ∨ sign p0 = Nought ∧ sign p1 = X)
    as Hsigns by (destruct w; injection Hs as -> ->; auto).
  destruct (get_winning (dict_set b c s)) eqn:Hw'.
  - rewrite get_board_on_board by done.
    apply game_inv_reset.
    + subst s. destruct Hsigns as [[E0 E1]|[E0 E1]], m;
        rewrite ?E0, ?E1; simpl; rewrite ?E0, ?E1;
        first [by exists true|by exists false].
    + subst s. destruct Hsigns as [[E0 E1]|[E0 E1]], m;
        rewrite ?E0, ?E1; simpl; by rewrite ?E0, ?E1.
    + by destruct m, (decide (s = Nought)).
  - case_decide as Hdraw.
    + rewrite get_board_on_board by done.
      apply game_inv_reset; simpl; [|by destruct (lots inp)|done].
      exists (lots inp). by destruct (lots inp).
    + constructor; cbn [cur_board remaining_moves players0 players1
                         whose_move players]; try done.
      * lia.
      * intros E. rewrite E in Hlen. simpl in Hlen. lia.
      * by exists w.
      * rewrite !(count_mark_set b c s) by done. unfold players.
        cbn [players0 players1].
        subst s. destruct Hsigns as [[E0 E1]|[E0 E1]], m;
          cbn [negb] in *; rewrite ?E0, ?E1 in *;
          destruct Ht as [[Ht ?]|[Ht ?]]; try done;
          simpl; rewrite Ht; auto.
Qed.

(** ** The choice of the cell *)

Lemma empty_cells_NoDup b : NoDup (keys b) → NoDup (get_empty_cells b).
Proof.
  unfold keys, get_empty_cells.
  induction b as [|[k v] b IH]; csimpl; [done|].
  rewrite NoDup_cons. intros [Hk Hnd].
  destruct (decide (v = Blank)) as [->|Hv].
  - rewrite (filter_cons_True _ (k, Blank)) by done. csimpl.
    apply NoDup_cons. split; [|by apply IH].
    intros Hin. apply Hk.
    apply list_elem_of_fmap in Hin as [y [-> Hy]].
    apply list_elem_of_filter in Hy as [_ Hy].
    apply list_elem_of_fmap. by exists y.
  - rewrite (filter_cons_False _ (k, v)) by done. by apply IH.
Qed.

Lemma elem_of_opening_cells rem c :
  c ∈ opening_cells rem ↔ c ∈ win_cells ∧ c ∈ rem.
Proof.
  unfold opening_cells.
  by rewrite elem_of_elements, elem_of_intersection, elem_of_list_to_set.
Qed.

(** With at most one cell taken, four of the five cells the normal player
    opens with are still blank. *)
Lemma opening_cells_enough b :
  is_board b → (8 ≤ length (get_empty_cells b))%nat →
  (4 ≤ length (opening_cells (get_empty_cells b)))%nat.
Proof.
  intros Hb Hlen. unfold opening_cells.
  set (R := list_to_set (get_empty_cells b) : gset nat).
  set (U := list_to_set (seq 1 9) : gset nat).
  change (4 ≤ size (win_cells ∩ R))%nat.
  assert (size R = length (get_empty_cells b)) as HR.
  { apply size_list_to_set, empty_cells_NoDup, is_board_NoDup, Hb. }
  assert (size U = 9%nat) as HU by (apply size_list_to_set, NoDup_seq).
  assert (R ⊆ U) as HRU.
  { intros c Hc. apply elem_of_list_to_set in Hc.
    apply elem_of_list_to_set, elem_of_seq.
    pose proof (empty_cell_positive b c Hb Hc). lia. }
  assert (win_cells ∖ R ⊆ U ∖ R) as Hsub.
  { intros c [Hc Hn]%elem_of_difference. apply elem_of_difference.
    split; [|done]. revert Hc. unfold win_cells, U.
    rewrite !elem_of_union, !elem_of_singleton, elem_of_list_to_set,
      elem_of_seq. lia. }
  apply subseteq_size in Hsub.
  rewrite (size_difference U R) in Hsub by done.
  rewrite size_difference_alt in Hsub.
  assert (size win_cells = 5%nat) as Hw by by vm_compute.
  lia.
Qed.

(** The search run by the loop names a blank cell and hands the board back
    as it was. *)
Lemma best_cell_spec g :
  game_inv g →
  ∃ c z, best_cell g = Some (c, cur_board g) ∧
         c ∈ get_empty_cells (cur_board g) ∧
         get_best_move (signs_of g) (cur_board g) true
         = Some (cur_board g, (Fin z, MCell c)).
Proof.
  intros [Hb Hw _ He [w Hs] _ _]. unfold best_cell. rewrite Hs.
  destruct (get_best_move_first_best w (cur_board g) true)
    as (z & c & Hr & l1 & l2 & Hl & _); [by apply is_board_NoDup|done..|].
  rewrite Hr. exists c, z. split_and!; [done| |done].
  rewrite Hl. apply elem_of_app. right. by left.
Qed.

(** One round of the loop either records the 0 a person entered and leaves
    everything else, or moves into a blank cell. *)
Lemma iteration_cases g inp r :
  game_inv g → iteration g inp = Some r →
  (who_playing (players g (whose_move g)) = Human ∧ entered inp = 0%nat ∧
   r = (if gives_up inp then Break else Continue)
         (set_cell_number g (Some 0%nat)))
  ∨ ∃ c, r = Continue (make_move g (cur_board g) c inp) ∧
         c ∈ get_empty_cells (cur_board g).
Proof.
  intros Hinv. unfold iteration.
  destruct (who_playing (players g (whose_move g))) eqn:Hk.
  - case_decide as H0.
    { intros [= <-]. left. split_and!; [done..|]. by destruct (gives_up inp). }
    case_decide as Hin; [|done]. intros [= <-]. right. by eexists.
  - unfold ai_easy.
    destruct (get_empty_cells (cur_board g) !! pick inp) as [c|] eqn:Hc;
      [|done].
    intros [= <-]. right. exists c. split; [done|].
    by eapply list_elem_of_lookup_2.
  - case_decide as Hopen.
    + destruct (opening_cells _ !! pick inp) as [c|] eqn:Hc; [|done].
      intros [= <-]. right. exists c. split; [done|].
      apply list_elem_of_lookup_2 in Hc.
      by apply elem_of_opening_cells in Hc as [_ ?].
    + destruct (best_cell_spec g Hinv) as (c & z & -> & Hc & _).
      intros [= <-]. right. by exists c.
  - destruct (best_cell_spec g Hinv) as (c & z & -> & Hc & _).
    intros [= <-]. right. by exists c.
Qed.

(** ** The loop *)

Lemma start_inv gt w : game_inv (start (kinds_of gt) w).
Proof.
  apply game_inv_reset; simpl.
  - exists w. by destruct w.
  - by destruct w.
  - destruct gt as [|[|[|[|?]]]]; auto.
Qed.

Lemma iteration_inv g inp r :
  game_inv g → iteration g inp = Some r → game_inv (game_of r).
Proof.
  intros Hinv Hit.
  destruct (iteration_cases g inp r Hinv Hit) as [(_ & _ & ->)|(c & -> & Hc)].
  - destruct (gives_up inp); simpl; destruct Hinv; by constructor.
  - by apply make_move_inv.
Qed.

Lemma play_inv g inputs g' e :
  game_inv g → play g inputs = Some (g', e) → game_inv g'.
Proof.
  revert g. induction inputs as [|inp rest IH]; intros g Hinv; simpl.
  - case_decide; by intros [= <- _].
  - case_decide; [|by intros [= <- _]].
    destruct (iteration g inp) as [[g1|g1]|] eqn:Hit; [| |done].
    + apply IH. by apply (iteration_inv g inp (Continue g1)).
    + intros [= <- _]. by apply (iteration_inv g inp (Break g1)).
Qed.

(** X5: whatever the kind of game and the lots, and whatever is entered or
    drawn, every state in which the loop tests its condition or is left has
    a 3x3 board that nobody has won and that has a blank cell; the counter
    [remaining_moves] is the number of blank cells; one player holds X and
    the other 0; the board has as many X as 0 when the holder of X is to
    move and one X more when the holder of 0 is; and the first player is a
    person or the random player. *)
Theorem series_keeps_inv gt w inputs g e :
  play (start (kinds_of gt) w) inputs = Some (g, e) → game_inv g.
Proof. apply play_inv, start_inv. Qed.

Lemma series_keeps_inv_witness : game_inv (mkGame get_board
  (mkPlayer Human 3 X) (mkPlayer Human 0 Nought) false 9 (Some 3%nat)).
Proof.
  apply (series_keeps_inv 2 true three_rounds _ SeriesDecided).
  by vm_compute.
Defined.

(** X6: in a state of the series, as [game_inv] describes it, the round of
    the loop goes through for everything the outside can supply: 0 or a
    blank cell from a person, an index within the list from
    [random.choice].  The list the normal player opens from has at least
    four cells while eight or nine moves remain, and the search always
    names a cell. *)
Theorem iteration_goes_through g inp :
  game_inv g → valid_input g inp →
  (∃ r, iteration g inp = Some r) ∧
  (8 ≤ remaining_moves g →
   (4 ≤ length (opening_cells (get_empty_cells (cur_board g))))%nat) ∧
  (∃ c, best_cell g = Some (c, cur_board g)).
Proof.
  intros Hinv Hval. split_and!.
  - unfold valid_input, iteration in *.
    destruct (who_playing (players g (whose_move g))).
    + case_decide; [by eexists|]. destruct Hval as [?|Hin]; [done|].
      rewrite decide_True by done. by eexists.
    + unfold ai_easy.
      destruct (lookup_lt_is_Some_2 _ _ Hval) as [c ->]. by eexists.
    + case_decide as Hopen.
      * destruct (lookup_lt_is_Some_2 _ _ (Hval Hopen)) as [c ->].
        by eexists.
      * destruct (best_cell_spec g Hinv) as (c & z & -> & _). by eexists.
    + destruct (best_cell_spec g Hinv) as (c & z & -> & _). by eexists.
  - intros Hopen. destruct Hinv as [Hb _ Hr _ _ _ _].
    apply opening_cells_enough; [done|]. lia.
  - destruct (best_cell_spec g Hinv) as (c & z & -> & _). by eexists.
Qed.

Lemma iteration_goes_through_witness :
  (∃ r, iteration mid_game (types 4) = Some r) ∧
  (8 ≤ remaining_moves mid_game →
   (4 ≤ length (opening_cells (get_empty_cells (cur_board mid_game))))%nat) ∧
  (∃ c, best_cell mid_game = Some (c, cur_board mid_game)).
Proof.
  apply (iteration_goes_through mid_game (types 4)).
  - constructor; [done|by vm_compute..|by exists true| |by left].
    left. by vm_compute.
  - right. compute_done.
Defined.

(** X7: a round of the loop that makes a move makes it into a blank cell of
    the board, numbered 1 to 9, whoever moves.  A normal player with eight
    or nine moves remaining takes a corner or the centre.  Otherwise the
    normal player, and always the full-search player, sits in the second
    place, so that the flag [True] of the search stands for its own sign,
    and it takes the cell the search names. *)
Theorem moves_fill_blanks g inp g' c :
  game_inv g → iteration g inp = Some (Continue g') →
  cell_number g' = Some c → c ≠ 0%nat →
  g' = make_move g (cur_board g) c inp ∧
  c ∈ get_empty_cells (cur_board g) ∧ (1 ≤ c ≤ 9)%nat ∧
  (who_playing (players g (whose_move g)) = AiNormal →
   8 ≤ remaining_moves g → c ∈ [1; 3; 5; 7; 9]%nat) ∧
  (who_playing (players g (whose_move g)) = AiImpossible
   ∨ who_playing (players g (whose_move g)) = AiNormal
     ∧ remaining_moves g < 8 →
   whose_move g = true ∧
   players_sign (signs_of g) true = sign (players g (whose_move g)) ∧
   ∃ z, get_best_move (signs_of g) (cur_board g) true
        = Some (cur_board g, (Fin z, MCell c))).
Proof.
  intros Hinv Hit Hcn Hc0.
  assert (∀ c', cell_number (make_move g (cur_board g) c' inp) = Some c')
    as Hcell.
  { intros c'. unfold make_move. by repeat case_match. }
  assert (g' = make_move g (cur_board g) c inp
          ∧ c ∈ get_empty_cells (cur_board g)) as [Hg' Hc].
  { destruct (iteration_cases g inp _ Hinv Hit)
      as [(_ & _ & Hr)|(c' & [= ->] & Hc')].
    - destruct (gives_up inp); [done|]. injection Hr as ->.
      simpl in Hcn. congruence.
    - rewrite Hcell in Hcn. injection Hcn as ->. done. }
  split; [exact Hg'|]. split; [exact Hc|]. split; [|split].
  - apply (empty_cell_positive (cur_board g)); [apply Hinv|done].
  - intros Hk Hopen. unfold iteration in Hit. rewrite Hk in Hit.
    rewrite decide_True in Hit by done.
    destruct (opening_cells _ !! pick inp) as [c'|] eqn:Hpick; [|done].
    injection Hit as Hit. rewrite <-Hit, Hcell in Hcn. injection Hcn as ->.
    apply list_elem_of_lookup_2, elem_of_opening_cells in Hpick as [Hw _].
    revert Hw. unfold win_cells.
    rewrite !elem_of_union, !elem_of_singleton, !elem_of_cons, elem_of_nil.
    tauto.
  - intros Hk.
    assert (whose_move g = true) as Hm.
    { destruct (whose_move g) eqn:Hm; [done|].
      destruct Hinv as [_ _ _ _ _ _ Hkinds]. unfold players in Hk.
      destruct Hk as [Hk|[Hk _]], Hkinds as [Hk0|Hk0]; congruence. }
    split_and!; [done|by rewrite Hm|].
    destruct (best_cell_spec g Hinv) as (c' & z & Hbest & _ & Hz).
    assert (iteration g inp
            = Some (Continue (make_move g (cur_board g) c' inp))) as Hit'.
    { unfold iteration. destruct Hk as [->|[-> Hlt]].
      - by rewrite Hbest.
      - rewrite decide_False by lia. by rewrite Hbest. }
    rewrite Hit' in Hit. injection Hit as Hit.
    rewrite <-Hit, Hcell in Hcn. injection Hcn as ->. by exists z.
Qed.

Lemma moves_fill_blanks_witness :
  make_move search_turn (cur_board search_turn) 3 (types 0)
  = make_move search_turn (cur_board search_turn) 3 (types 0) ∧
  3%nat ∈ get_empty_cells (cur_board search_turn) ∧ (1 ≤ 3 ≤ 9)%nat ∧
  (who_playing (players search_turn (whose_move search_turn)) = AiNormal →
   8 ≤ remaining_moves search_turn → 3%nat ∈ [1; 3; 5; 7; 9]%nat) ∧
  (who_playing (players search_turn (whose_move search_turn)) = AiImpossible
   ∨ who_playing (players search_turn (whose_move search_turn)) = AiNormal
     ∧ remaining_moves search_turn < 8 →
   whose_move search_turn = true ∧
   players_sign (signs_of search_turn) true
   = sign (players search_turn (whose_move search_turn)) ∧
   ∃ z, get_best_move (signs_of search_turn) (cur_board search_turn) true
        = Some (cur_board search_turn, (Fin z, MCell 3))).
Proof.
  apply (moves_fill_blanks search_turn (types 0)
           (make_move search_turn (cur_board search_turn) 3 (types 0)) 3%nat).
  - constructor; [done|by vm_compute..|by exists false| |by left].
    left. by vm_compute.
  - by vm_compute.
  - by vm_compute.
  - discriminate.
Defined.

(** X8: how a move ends a round or passes the turn.  A move that completes a
    line: the board is blank again, the mover has one win more and the
    other player as many as before, the mover holds X whatever it held and
    is to move.  A move that fills the last cell without a line: the board
    is blank again, the wins stay, the signs are cast anew and the holder of
    X is to move.  Any other move: the mark is on the board, one move less
    remains, the other player is to move, wins and signs stay. *)
Theorem make_move_ends_round g c inp :
  game_inv g → c ∈ get_empty_cells (cur_board g) →
  let m := whose_move g in
  let b := dict_set (cur_board g) c (sign (players g m)) in
  let g' := make_move g (cur_board g) c inp in
  (get_winning b = true →
     cur_board g' = get_board ∧ remaining_moves g' = 9 ∧
     whose_move g' = m ∧
     sign (players g' m) = X ∧ sign (players g' (negb m)) = Nought ∧
     win (players g' m) = win (players g m) + 1 ∧
     win (players g' (negb m)) = win (players g (negb m))) ∧
  (get_winning b = false → remaining_moves g = 1 →
     cur_board g' = get_board ∧ remaining_moves g' = 9 ∧
     signs_of g' = cast_lots (lots inp) ∧
     sign (players g' (whose_move g')) = X ∧
     win (players0 g') = win (players0 g) ∧
     win (players1 g') = win (players1 g)) ∧
  (get_winning b = false → remaining_moves g ≠ 1 →
     cur_board g' = b ∧ remaining_moves g' = remaining_moves g - 1 ∧
     whose_move g' = negb m ∧
     players0 g' = players0 g ∧ players1 g' = players1 g).
Proof.
  intros [Hb Hw Hr He [w Hs] Ht Hk] Hc. cbv zeta.
  pose proof (is_board_dict_set _ c (sign (players g (whose_move g))) Hb Hc)
    as Hb'.
  unfold make_move, signs_of, players in *.
  assert (sign (players0 g) = X ∧ sign (players1 g) = Nought
          ∨ sign (players0 g) = Nought ∧ sign (players1 g) = X)
    as Hsigns by (destruct w; injection Hs as -> ->; auto).
  split_and!.
  - intros ->. rewrite get_board_on_board by done.
    destruct (whose_move g), Hsigns as [[E0 E1]|[E0 E1]];
      rewrite ?E0, ?E1; simpl; rewrite ?E0, ?E1; done.
  - intros -> H1. rewrite decide_True by lia.
    rewrite get_board_on_board by done. simpl.
    split_and!; try done; by destruct (lots inp).
  - intros -> H1. by rewrite decide_False by lia.
Qed.

Lemma make_move_ends_round_witness :
  let m := whose_move search_turn in
  let b := dict_set (cur_board search_turn) 3
             (sign (players search_turn m)) in
  let g' := make_move search_turn (cur_board search_turn) 3 (types 0) in
  (get_winning b = true →
     cur_board g' = get_board ∧ remaining_moves g' = 9 ∧
     whose_move g' = m ∧
     sign (players g' m) = X ∧ sign (players g' (negb m)) = Nought ∧
     win (players g' m) = win (players search_turn m) + 1 ∧
     win (players g' (negb m)) = win (players search_turn (negb m))) ∧
  (get_winning b = false → remaining_moves search_turn = 1 →
     cur_board g' = get_board ∧ remaining_moves g' = 9 ∧
     signs_of g' = cast_lots (lots (types 0)) ∧
     sign (players g' (whose_move g')) = X ∧
     win (players0 g') = win (players0 search_turn) ∧
     win (players1 g') = win (players1 search_turn)) ∧
  (get_winning b = false → remaining_moves search_turn ≠ 1 →
     cur_board g' = b ∧
     remaining_moves g' = remaining_moves search_turn - 1 ∧
     whose_move g' = negb m ∧
     players0 g' = players0 search_turn ∧
     players1 g' = players1 search_turn).
Proof.
  apply (make_move_ends_round search_turn 3%nat (types 0)).
  - constructor; [done|by vm_compute..|by exists false| |by left].
    left. by vm_compute.
  - compute_done.
Defined.

(** ** The series *)

Lemma make_move_wins g b c inp :
  cell_number (make_move g b c inp) = Some c ∧
  (win (players0 (make_move g b c inp)) = win (players0 g)
   ∧ win (players1 (make_move g b c inp)) = win (players1 g)
   ∨ win (players0 (make_move g b c inp)) = win (players0 g) + 1
     ∧ win (players1 (make_move g b c inp)) = win (players1 g)
   ∨ win (players0 (make_move g b c inp)) = win (players0 g)
     ∧ win (players1 (make_move g b c inp)) = win (players1 g) + 1).
Proof.
  unfold make_move. repeat case_match; simpl; auto.
Qed.

Lemma iteration_series g inp r :
  game_inv g → series_inv g →
  Z.abs (win (players0 g) - win (players1 g)) < 3 →
  iteration g inp = Some r →
  series_inv (game_of r) ∧
  (∀ g', r = Break g' →
     cell_number g' = Some 0%nat ∧
     Z.abs (win (players0 g') - win (players1 g')) < 3).
Proof.
  intros Hinv (H0 & H1 & H3 & Hc) Hlt Hit.
  destruct (iteration_cases g inp r Hinv Hit) as [(_ & _ & ->)|(c & -> & Hin)].
  - split.
    + assert (series_inv (set_cell_number g (Some 0%nat))) as Hs.
      { unfold series_inv.
        cbn [set_cell_number players0 players1 cell_number].
        split_and!; [done..|]. intros E. lia. }
      by destruct (gives_up inp).
    + intros g'. destruct (gives_up inp); [|done]. by intros [= <-].
  - split; [|done]. simpl.
    destruct (make_move_wins g (cur_board g) c inp) as [Hcn Hw].
    pose proof (empty_cell_positive _ _ (inv_board _ Hinv) Hin).
    unfold series_inv. rewrite Hcn.
    split_and!; [lia..|]. intros _. exists c. split; [done|lia].
Qed.

Lemma play_series g inputs g' e :
  game_inv g → series_inv g → play g inputs = Some (g', e) →
  series_inv g' ∧
  match e with
  | SeriesDecided => Z.abs (win (players0 g') - win (players1 g')) = 3
  | GaveUp =>
      Z.abs (win (players0 g') - win (players1 g')) < 3 ∧
      cell_number g' = Some 0%nat
  | OutOfInput => Z.abs (win (players0 g') - win (players1 g')) < 3
  end.
Proof.
  revert g. induction inputs as [|inp rest IH]; intros g Hinv Hser; simpl.
  - case_decide as Hlt; intros [= <- <-]; (split; [done|]); [done|].
    destruct Hser as (_ & _ & ? & _). lia.
  - case_decide as Hlt.
    2:{ intros [= <- <-]. split; [done|].
        destruct Hser as (_ & _ & ? & _). lia. }
    destruct (iteration g inp) as [r|] eqn:Hit; [|done].
    destruct (iteration_series g inp r Hinv Hser Hlt Hit) as [Hs Hb].
    pose proof (iteration_inv g inp r Hinv Hit) as Hi.
    destruct r as [g1|g1]; simpl in *.
    + by apply IH.
    + intros [= <- <-]. split; [done|].
      destruct (Hb g1 eq_refl). done.
Qed.

(** X9: the series, from the first state on.  The wins are never negative.
    The loop is left by its condition exactly at a lead of three wins, and
    then the one ahead is congratulated: by name if it is the first player
    or a person, while a first player who is behind a computer is told it
    has lost.  It is left by giving up only below that lead, with 0 as the
    last number entered, and then nobody is congratulated. *)
Theorem series_ends_on_lead gt w inputs g e :
  play (start (kinds_of gt) w) inputs = Some (g, e) →
  0 ≤ win (players0 g) ∧ 0 ≤ win (players1 g) ∧
  match e with
  | SeriesDecided =>
      Z.abs (win (players0 g) - win (players1 g)) = 3 ∧
      announce g =
        if decide (win (players0 g) > win (players1 g))
        then Congratulations false
        else if decide (who_playing (players1 g) = Human)
             then Congratulations true else YouLost
  | GaveUp =>
      Z.abs (win (players0 g) - win (players1 g)) < 3 ∧
      cell_number g = Some 0%nat ∧ announce g = NoFarewell
  | OutOfInput => Z.abs (win (players0 g) - win (players1 g)) < 3
  end.
Proof.
  intros Hplay.
  assert (series_inv (start (kinds_of gt) w)) as Hser.
  { unfold series_inv. simpl. split_and!; try lia. }
  destruct (play_series _ _ _ _ (start_inv gt w) Hser Hplay)
    as [(H0 & H1 & H3 & Hc) He].
  split_and!; [done..|]. destruct e; [| |done].
  - split; [done|]. destruct (Hc He) as (c & Hcn & Hc0).
    unfold announce. rewrite Hcn.
    rewrite (bool_decide_eq_true_2 (Some c ≠ Some 0%nat)) by congruence.
    simpl. repeat case_decide; simpl; try done.
  - destruct He as [Hlt Hcn]. split_and!; [done..|].
    unfold announce. rewrite Hcn.
    by rewrite (bool_decide_eq_false_2 (Some 0%nat ≠ Some 0%nat)) by auto.
Qed.

Lemma series_ends_on_lead_witness :
  let g := mkGame get_board (mkPlayer Human 3 X) (mkPlayer Human 0 Nought)
             false 9 (Some 3%nat) in
  0 ≤ win (players0 g) ∧ 0 ≤ win (players1 g) ∧
  Z.abs (win (players0 g) - win (players1 g)) = 3 ∧
  announce g =
    if decide (win (players0 g) > win (players1 g))
    then Congratulations false
    else if decide (who_playing (players1 g) = Human)
         then Congratulations true else YouLost.
Proof.
  apply (series_ends_on_lead 2 true three_rounds _ SeriesDecided).
  by vm_compute.
Defined.

End XO_game_facts.

Module XO_unbeaten_facts.
Import XO XO_facts XO_search_facts XO_game_facts.

(** ** Lines read off the cells *)

Lemma holds_line_owns b line :
  NoDup (keys b) →
  holds_line b line = true ↔ ∃ s, (s = X ∨ s = Nought) ∧ owns s b line.
Proof.
  intros Hnd. unfold owns.
  pose proof (λ k v, elem_of_dict_get b k v Hnd) as E. setoid_rewrite E.
  clear E. unfold holds_line.
  destruct (dict_get b line.1.1) as [[]|], (dict_get b line.1.2) as [[]|],
    (dict_get b line.2) as [[]|];
    (split;
     [intros H; try done; first [by exists X; auto|by exists Nought; auto]
     |intros (s & [-> | ->] & ? & ? & ?); congruence]).
Qed.

Lemma line_held_winning b : NoDup (keys b) → line_held b = get_winning b.
Proof.
  intros Hnd. apply Bool.eq_iff_eq_true. rewrite get_winning_true.
  unfold line_held. rewrite existsb_exists. split.
  - intros (line & Hin & Hl).
    apply holds_line_owns in Hl as (s & Hs & Ho); [|done].
    exists line, s. split; [by apply list_elem_of_In|]. by split.
  - intros (line & s & Hin & Hs & Ho). exists line.
    split; [by apply list_elem_of_In|]. apply holds_line_owns; [done|].
    by exists s.
Qed.

(** ** The score of the board and the moves *)

Lemma trial_z_value signs b p c :
  trial_z signs b p c
  = value signs (dict_set b c (players_sign signs p)) (negb p).
Proof.
  unfold trial_z, trial_score, value.
  by destruct (get_best_move signs (dict_set b c (players_sign signs p))
                 (negb p)) as [[? [[] ?]]|].
Qed.

Lemma some_cell_existsb f cells : some_cell f cells = existsb f cells.
Proof.
  induction cells as [|c cells IH]; [done|]. simpl. by destruct (f c).
Qed.

Lemma every_cell_forallb f cells : every_cell f cells = forallb f cells.
Proof.
  induction cells as [|c cells IH]; [done|]. simpl. by destruct (f c).
Qed.

(** The score at a board that goes on is the score of one of its trials,
    and no trial is better for the side to move. *)
Lemma value_node w b p :
  NoDup (keys b) → get_winning b = false → get_empty_cells b ≠ [] →
  ∃ c0, c0 ∈ get_empty_cells b ∧
    value (cast_lots w) b p = trial_z (cast_lots w) b p c0 ∧
    ∀ x, x ∈ get_empty_cells b →
      if p then trial_z (cast_lots w) b p x ≤ value (cast_lots w) b p
      else value (cast_lots w) b p ≤ trial_z (cast_lots w) b p x.
Proof.
  intros Hnd Hw He.
  destruct (get_best_move_first_best w b p Hnd Hw He)
    as (best & c0 & Hg & l1 & l2 & Hl & Hf & H1 & H2).
  unfold value. rewrite Hg. rewrite Forall_forall in H1, H2.
  exists c0. split; [rewrite Hl; apply elem_of_app; right; by left|].
  split; [done|]. intros x Hx. rewrite Hl in Hx.
  apply elem_of_app in Hx as [Hx|[->|Hx]%elem_of_cons].
  - specialize (H1 x Hx). destruct p; simpl in H1; lia.
  - destruct p; lia.
  - specialize (H2 x Hx). destruct p; simpl in H2; lia.
Qed.

Lemma value_terminal signs b p :
  get_winning b = true ∨ get_empty_cells b = [] →
  value signs b p
  = if get_winning b then if p then -10 else 10 else 0.
Proof.
  intros H. unfold value. by rewrite get_best_move_terminal.
Qed.

Lemma child_NoDup w b p c :
  NoDup (keys b) → c ∈ get_empty_cells b →
  NoDup (keys (dict_set b c (players_sign (cast_lots w) p))).
Proof.
  intros Hnd Hc. apply (dict_set_NoDup _ _ Blank); [|done].
  by apply dict_get_empty_cell.
Qed.

(** The checks are right about the score the search returns. *)
Lemma at_least_value w fuel b p t :
  NoDup (keys b) → at_least fuel (cast_lots w) b p t = true →
  t ≤ value (cast_lots w) b p.
Proof.
  revert b p. induction fuel as [|fuel IH]; intros b p Hnd; [done|].
  cbn [at_least]. rewrite (line_held_winning _ Hnd).
  destruct (get_winning b) eqn:Hw.
  - rewrite value_terminal, Hw by by left. apply bool_decide_eq_true_1.
  - case_bool_decide as He.
    + rewrite value_terminal, Hw by by right. apply bool_decide_eq_true_1.
    + cbv zeta. rewrite some_cell_existsb, every_cell_forallb. intros Hch.
      destruct (value_node w b p Hnd Hw He) as (c0 & Hc0 & Hv & Hall).
      destruct p.
      * apply existsb_exists in Hch as (c & Hc%list_elem_of_In & Hn).
        apply IH in Hn; [|by apply child_NoDup].
        rewrite <- trial_z_value in Hn. specialize (Hall c Hc).
        simpl in Hall. lia.
      * rewrite forallb_forall in Hch.
        specialize (Hch c0 (proj1 (list_elem_of_In _ _) Hc0)).
        apply IH in Hch; [|by apply child_NoDup].
        rewrite <- trial_z_value in Hch. lia.
Qed.

Lemma at_most_value w fuel b p t :
  NoDup (keys b) → at_most fuel (cast_lots w) b p t = true →
  value (cast_lots w) b p ≤ t.
Proof.
  revert b p. induction fuel as [|fuel IH]; intros b p Hnd; [done|].
  cbn [at_most]. rewrite (line_held_winning _ Hnd).
  destruct (get_winning b) eqn:Hw.
  - rewrite value_terminal, Hw by by left. apply bool_decide_eq_true_1.
  - case_bool_decide as He.
    + rewrite value_terminal, Hw by by right. apply bool_decide_eq_true_1.
    + cbv zeta. rewrite some_cell_existsb, every_cell_forallb. intros Hch.
      destruct (value_node w b p Hnd Hw He) as (c0 & Hc0 & Hv & Hall).
      destruct p.
      * rewrite forallb_forall in Hch.
        specialize (Hch c0 (proj1 (list_elem_of_In _ _) Hc0)).
        apply IH in Hch; [|by apply child_NoDup].
        rewrite <- trial_z_value in Hch. lia.
      * apply existsb_exists in Hch as (c & Hc%list_elem_of_In & Hn).
        apply IH in Hn; [|by apply child_NoDup].
        rewrite <- trial_z_value in Hn. specialize (Hall c Hc).
        simpl in Hall. lia.
Qed.

(** On the blank board the side to move, the holder of X, is not lost,
    whichever player it is. *)
Lemma value_root w :
  0 ≤ value (cast_lots w) get_board
        (if decide ((cast_lots w).1 = X) then false else true).
Proof.
  apply (at_least_value w 10); [apply is_board_NoDup, get_board_facts|].
  destruct w; by vm_compute.
Qed.

(** A score that is not negative stays so after any move of the person
    and after the move the search names for the computer. *)
Lemma value_step w b p c :
  NoDup (keys b) → get_winning b = false → c ∈ get_empty_cells b →
  (p = true →
   ∃ z, get_best_move (cast_lots w) b true = Some (b, (Fin z, MCell c))) →
  0 ≤ value (cast_lots w) b p →
  0 ≤ value (cast_lots w) (dict_set b c (players_sign (cast_lots w) p))
        (negb p).
Proof.
  intros Hnd Hw Hc Hbest Hv.
  assert (get_empty_cells b ≠ []) as Hne
    by (intros E; rewrite E in Hc; by apply elem_of_nil in Hc).
  destruct (get_best_move_first_best w b p Hnd Hw Hne)
    as (best & c0 & Hg & l1 & l2 & Hl & Hf & H1 & H2).
  unfold value in Hv. rewrite Hg in Hv. rewrite <- trial_z_value.
  destruct p.
  - destruct (Hbest eq_refl) as [z Hz]. rewrite Hg in Hz.
    injection Hz as -> ->. lia.
  - rewrite Hl in Hc. rewrite Forall_forall in H1, H2.
    apply elem_of_app in Hc as [Hc|[->|Hc]%elem_of_cons].
    + specialize (H1 c Hc). simpl in H1. lia.
    + lia.
    + specialize (H2 c Hc). simpl in H2. lia.
Qed.

Lemma make_move_unbeaten g c inp :
  game_inv g → unbeaten g → c ∈ get_empty_cells (cur_board g) →
  (whose_move g = true →
   ∃ z, get_best_move (signs_of g) (cur_board g) true
        = Some (cur_board g, (Fin z, MCell c))) →
  unbeaten (make_move g (cur_board g) c inp).
Proof.
  intros [Hb Hw Hr He [w Hs] Ht Hk] (Hk0 & Hk1 & Hwin & Hv) Hc Hbest.
  pose proof (is_board_NoDup _ Hb) as Hnd.
  pose proof (value_step w (cur_board g) (whose_move g) c Hnd Hw Hc) as Hstep.
  rewrite <- Hs in Hstep. specialize (Hstep Hbest Hv).
  destruct g as [b p0 p1 m r cn].
  unfold unbeaten, signs_of, make_move, players in *.
  cbn [cur_board players0 players1 whose_move remaining_moves] in *.
  set (s := sign (if m then p1 else p0)) in *.
  assert (players_sign (sign p0, sign p1) m = s) as Hps by by destruct m.
  rewrite Hps in Hstep.
  pose proof (is_board_dict_set b c s Hb Hc) as Hb'.
  assert (sign p0 = X ∧ sign p1 = Nought ∨ sign p0 = Nought ∧ sign p1 = X)
    as Hsigns by (destruct w; injection Hs as -> ->; auto).
  destruct (get_winning (dict_set b c s)) eqn:Hw'.
  - destruct m.
    + rewrite get_board_on_board by done.
      cbn [cur_board players0 players1 whose_move].
      subst s. destruct Hsigns as [[E0 E1]|[E0 E1]]; rewrite E1; simpl;
        rewrite ?E0, ?E1; (split_and!; [done..|]); apply (value_root false).
    + unfold value in Hstep.
      rewrite get_best_move_terminal in Hstep by by left.
      rewrite Hw' in Hstep. simpl in Hstep. lia.
  - case_decide as Hdraw.
    + rewrite get_board_on_board by done.
      cbn [cur_board players0 players1 whose_move].
      split_and!; [done..|]. simpl.
      pose proof (value_root (lots inp)) as Hroot.
      by destruct (lots inp).
    + cbn [cur_board players0 players1 whose_move]. by split_and!.
Qed.

Lemma iteration_unbeaten g inp r :
  game_inv g → unbeaten g → iteration g inp = Some r →
  unbeaten (game_of r).
Proof.
  intros Hinv Hun Hit. destruct (whose_move g) eqn:Hm.
  - destruct (best_cell_spec g Hinv) as (c & z & Hbc & Hc & Hg).
    pose proof Hun as (_ & Hk1 & _). unfold iteration, players in Hit.
    rewrite Hm, Hk1, Hbc in Hit. simpl in Hit. injection Hit as <-. simpl.
    apply make_move_unbeaten; [done..|]. intros _. by exists z.
  - destruct (iteration_cases g inp r Hinv Hit)
      as [(_ & _ & ->)|(c & -> & Hc)].
    + by destruct (gives_up inp).
    + apply make_move_unbeaten; [done..|]. by rewrite Hm.
Qed.

Lemma play_unbeaten g inputs g' e :
  game_inv g → unbeaten g → play g inputs = Some (g', e) → unbeaten g'.
Proof.
  revert g. induction inputs as [|inp rest IH]; intros g Hinv Hun; simpl.
  - case_decide; by intros [= <- _].
  - case_decide; [|by intros [= <- _]].
    destruct (iteration g inp) as [[g1|g1]|] eqn:Hit; [| |done].
    + apply IH.
      * by apply (iteration_inv g inp (Continue g1)).
      * by apply (iteration_unbeaten g inp (Continue g1)).
    + intros [= <- _]. by apply (iteration_unbeaten g inp (Break g1)).
Qed.

Lemma start_unbeaten w : unbeaten (start (kinds_of 3) w).
Proof.
  unfold unbeaten, start, signs_of. simpl. split_and!; [done..|].
  pose proof (value_root w) as Hroot. by destruct w.
Qed.

(** ** The cell of the search, found with the checks *)

Lemma first_reaching_spec w fuel b z cells c :
  NoDup (keys b) → (∀ x, x ∈ cells → x ∈ get_empty_cells b) →
  first_reaching fuel (cast_lots w) b z cells = Some c →
  ∃ l1 l2, cells = l1 ++ c :: l2 ∧
    z ≤ trial_z (cast_lots w) b true c ∧
    Forall (λ x, trial_z (cast_lots w) b true x < z) l1.
Proof.
  intros Hnd. induction cells as [|x cells IH]; intros Hin; [done|].
  cbn [first_reaching]. cbv zeta.
  assert (NoDup (keys (dict_set b x (players_sign (cast_lots w) true))))
    as Hx by (apply child_NoDup; [done|apply Hin; by left]).
  destruct (at_least fuel _ _ false z) eqn:Hl.
  - intros [= <-]. exists [], cells. split; [done|]. split; [|done].
    rewrite trial_z_value. by apply (at_least_value w fuel).
  - destruct (at_most fuel _ _ false (z - 10)) eqn:Hm; [|done].
    intros Hr. destruct IH as (l1 & l2 & -> & Hc & Hl1); [|done|].
    { intros y Hy. apply Hin. by right. }
    exists (x :: l1), l2. split; [done|]. split; [done|].
    constructor; [|done]. rewrite trial_z_value. cbn [negb].
    apply (at_most_value w fuel) in Hm; [|done]. lia.
Qed.

Lemma first_unique (l1 k1 l2 k2 : list nat) c c0 :
  l1 ++ c :: l2 = k1 ++ c0 :: k2 → c ∉ k1 → c0 ∉ l1 → c = c0.
Proof.
  revert k1. induction l1 as [|x l1 IH]; intros [|y k1]; simpl.
  - by intros [= -> _].
  - intros [= -> _] Hc. destruct Hc. by left.
  - intros [= -> _] _ Hc. destruct Hc. by left.
  - intros [= -> E] Hc Hc0. apply (IH k1 E).
    + intros H. apply Hc. by right.
    + intros H. apply Hc0. by right.
Qed.

Lemma quick_best_spec w b z c :
  NoDup (keys b) → get_winning b = false →
  quick_best (cast_lots w) b z = Some c →
  get_best_move (cast_lots w) b true = Some (b, (Fin z, MCell c)).
Proof.
  intros Hnd Hw. unfold quick_best. cbv zeta.
  destruct (at_most _ _ b true z) eqn:Hm; [|done].
  apply (at_most_value w) in Hm; [|done]. intros Hr.
  apply first_reaching_spec in Hr as (l1 & l2 & Hl & Hc & Hl1); [|done..].
  assert (get_empty_cells b ≠ []) as He
    by (rewrite Hl; by destruct l1).
  destruct (get_best_move_first_best w b true Hnd Hw He)
    as (best & c0 & Hg & k1 & k2 & Hk & Hf & H1 & H2).
  unfold value in Hm. rewrite Hg in Hm.
  rewrite Forall_forall in H1, H2, Hl1. simpl in H1, H2.
  assert (c ∈ get_empty_cells b) as Hin
    by (rewrite Hl; apply elem_of_app; right; by left).
  assert (trial_z (cast_lots w) b true c ≤ best) as Hle.
  { rewrite Hk in Hin.
    apply elem_of_app in Hin as [Hin|[->|Hin]%elem_of_cons].
    - specialize (H1 c Hin). lia.
    - lia.
    - specialize (H2 c Hin). lia. }
  assert (best = z) as -> by lia.
  assert (c = c0) as ->; [|done].
  apply (first_unique l1 k1 l2 k2); [by rewrite <- Hl, <- Hk| |].
  - intros Hin'. specialize (H1 c Hin'). lia.
  - intros Hin'. specialize (Hl1 c0 Hin'). simpl in Hl1. lia.
Qed.

Lemma first_score_Some f zs c :
  first_score f zs = Some c → ∃ z, f z = Some c.
Proof.
  induction zs as [|z zs IH]; [done|]. simpl.
  destruct (f z) as [c'|] eqn:E; [|done]. intros [= <-]. by exists z.
Qed.

Lemma quick_cell_best g cb :
  game_inv g → quick_cell g = Some cb → best_cell g = Some cb.
Proof.
  intros [Hb Hw _ _ [w Hs] _ _]. unfold quick_cell, best_cell.
  destruct (first_score _ _) as [c|] eqn:E; [|done]. simpl.
  intros [= <-]. apply first_score_Some in E as [z Hz]. rewrite Hs in Hz |- *.
  by rewrite (quick_best_spec w _ z c (is_board_NoDup _ Hb) Hw Hz).
Qed.

Lemma iteration_quick g inp r :
  game_inv g → iteration_with quick_cell g inp = Some r →
  iteration g inp = Some r.
Proof.
  intros Hinv. unfold iteration_with, iteration.
  destruct (who_playing _); [done..| |].
  - case_decide; [done|].
    destruct (quick_cell g) as [cb|] eqn:E; [|done].
    by rewrite (quick_cell_best g cb Hinv E).
  - destruct (quick_cell g) as [cb|] eqn:E; [|done].
    by rewrite (quick_cell_best g cb Hinv E).
Qed.

(** A series run with the checks is a series of the loop. *)
Lemma play_quick g inputs r :
  game_inv g → play_with quick_cell g inputs = Some r →
  play g inputs = Some r.
Proof.
  revert g. induction inputs as [|inp rest IH]; intros g Hinv; [done|].
  simpl. case_decide; [|done].
  destruct (iteration_with quick_cell g inp) as [[g1|g1]|] eqn:E;
    [| |done]; rewrite (iteration_quick g inp _ Hinv E); [|done].
  apply IH. by apply (iteration_inv g inp (Continue g1)), iteration_quick.
Qed.

(** X21: against the full search (the game "impossible") the person never
    wins a round, whatever the lots and whatever the person enters: the
    win counter of the person is 0 in every state of the series.  So the
    series is decided only by the third win of the computer, and the last
    line then tells the person that it has lost. *)
Theorem impossible_never_loses w inputs g e :
  play (start (kinds_of 3) w) inputs = Some (g, e) →
  win (players0 g) = 0 ∧
  (e = SeriesDecided → win (players1 g) = 3 ∧ announce g = YouLost).
Proof.
  intros Hplay.
  destruct (play_unbeaten _ _ _ _ (start_inv 3 w) (start_unbeaten w) Hplay)
    as (_ & Hk1 & Hwin & _).
  split; [done|]. intros ->.
  assert (series_inv (start (kinds_of 3) w)) as Hser.
  { unfold series_inv. simpl. split_and!; try lia. }
  destruct (play_series _ _ _ _ (start_inv 3 w) Hser Hplay)
    as [(_ & H1 & _ & Hc) Hlead].
  simpl in Hlead. destruct (Hc Hlead) as (c & Ecn & Hc0).
  split; [lia|]. unfold announce. rewrite Ecn, Hk1.
  rewrite (bool_decide_eq_true_2 (Some c ≠ Some 0%nat)) by congruence.
  rewrite (bool_decide_eq_false_2 (AiImpossible = Human)) by done.
  rewrite bool_decide_eq_true_2 by done. simpl.
  by rewrite decide_False by lia.
Qed.

Lemma impossible_never_loses_witness :
  win (players0 lost_series) = 0 ∧
  (SeriesDecided = SeriesDecided →
   win (players1 lost_series) = 3 ∧ announce lost_series = YouLost).
Proof.
  apply (impossible_never_loses true blunders lost_series SeriesDecided).
  apply play_quick; [apply start_inv|by vm_compute].
Defined.

End XO_unbeaten_facts.

Module SeaBattle_facts.
Import SeaBattle.

(** Membership in a list put together with [++] and [::]. *)
Ltac list_in :=
  rewrite ?elem_of_app, ?elem_of_cons, ?elem_of_nil; tauto.

(** ** The mask *)

Lemma outside_board_false b c : outside_board b c = false ↔ in_bounds b c.
Proof.
  unfold outside_board, in_bounds.
  rewrite negb_false_iff, andb_true_iff, !bool_decide_eq_true. done.
Qed.

Lemma outside_board_true b c : outside_board b c = true ↔ ¬ in_bounds b c.
Proof. rewrite <-outside_board_false. by destruct (outside_board b c). Qed.

Lemma mask_set_shape (n : nat) m c s :
  length m = n ∧ Forall (λ r, length r = n) m →
  length (mask_set m c s) = n ∧ Forall (λ r, length r = n) (mask_set m c s).
Proof.
  intros [Hl Hr]. unfold mask_set. rewrite length_alter. split; [done|].
  apply Forall_alter; [done|]. intros r _ Hlen. by rewrite length_insert.
Qed.

Lemma mask_get_set_eq (n : nat) m c s :
  length m = n ∧ Forall (λ r, length r = n) m →
  (Z.to_nat (row c) < n)%nat → (Z.to_nat (column c) < n)%nat →
  mask_get (mask_set m c s) c = Some s.
Proof.
  intros [Hl Hr] Hrow Hcol. unfold mask_get, mask_set.
  rewrite list_lookup_alter_eq.
  destruct (lookup_lt_is_Some_2 m (Z.to_nat (row c))) as [r Hrm]; [lia|].
  rewrite Hrm. simpl. apply list_lookup_insert_eq.
  rewrite Forall_forall in Hr. rewrite (Hr r); [done|].
  by eapply list_elem_of_lookup_2.
Qed.

Lemma mask_get_set_ne m c c' s :
  0 ≤ row c → 0 ≤ column c → 0 ≤ row c' → 0 ≤ column c' → c ≠ c' →
  mask_get (mask_set m c s) c' = mask_get m c'.
Proof.
  intros ? ? ? ? Hne. unfold mask_get, mask_set.
  destruct (decide (Z.to_nat (row c) = Z.to_nat (row c'))) as [Heq|Hr].
  - rewrite <-Heq, list_lookup_alter_eq.
    destruct (m !! Z.to_nat (row c)) as [r|]; [|done]. simpl.
    apply list_lookup_insert_ne. intros Hc. apply Hne.
    destruct c, c'. simpl in *. f_equal; lia.
  - by rewrite list_lookup_alter_ne.
Qed.

(** ** [aureole] *)

Lemma elem_of_halo_cells ship n :
  n ∈ halo_cells ship ↔
  ∃ c d, c ∈ cells ship ∧ d ∈ around_ship ∧ n = neighbour c d.
Proof.
  unfold halo_cells. rewrite list_elem_of_bind. split.
  - intros (c & (d & -> & Hd)%list_elem_of_fmap & Hc). by exists c, d.
  - intros (c & d & Hc & Hd & ->). exists c. split; [|done].
    apply list_elem_of_fmap. by exists d.
Qed.

Lemma aureole_flat ship v b :
  aureole ship v b = foldl (aureole_step v) b (halo_cells ship).
Proof.
  unfold aureole, halo_cells. generalize (cells ship) as cs. intros cs.
  revert b. induction cs as [|c cs IH]; intros b; [done|].
  rewrite bind_cons, foldl_app, <-IH, foldl_fmap. reflexivity.
Qed.

Lemma aureole_step_fields v b x :
  size (aureole_step v b x) = size b ∧ hide (aureole_step v b x) = hide b ∧
  count (aureole_step v b x) = count b ∧ ships (aureole_step v b x) = ships b.
Proof. unfold aureole_step. by repeat case_match. Qed.

Lemma aureole_step_occupy v b x :
  occupy_cells (aureole_step v b x) =
  occupy_cells b ++
    (if decide (in_bounds b x ∧ x ∉ occupy_cells b) then [x] else []).
Proof.
  unfold aureole_step.
  destruct (outside_board b x) eqn:Ho; simpl.
  - apply outside_board_true in Ho.
    rewrite decide_False by tauto. by rewrite app_nil_r.
  - apply outside_board_false in Ho. case_bool_decide.
    + rewrite decide_True by done. by destruct v.
    + rewrite decide_False by tauto. by rewrite app_nil_r.
Qed.

Lemma aureole_step_mask v b x :
  mask (aureole_step v b x) =
  if decide (in_bounds b x ∧ x ∉ occupy_cells b)
  then (if v then mask_set (mask b) x SHalo else mask b)
  else mask b.
Proof.
  unfold aureole_step.
  destruct (outside_board b x) eqn:Ho; simpl.
  - apply outside_board_true in Ho. by rewrite decide_False by tauto.
  - apply outside_board_false in Ho. case_bool_decide.
    + rewrite decide_True by done. by destruct v.
    + by rewrite decide_False by tauto.
Qed.

Lemma in_bounds_size b b' c :
  size b' = size b → in_bounds b' c ↔ in_bounds b c.
Proof. unfold in_bounds. by intros ->. Qed.

Lemma in_bounds_aureole_step v b x n :
  in_bounds (aureole_step v b x) n ↔ in_bounds b n.
Proof. apply in_bounds_size, aureole_step_fields. Qed.

Lemma aureole_step_wf v b x : board_wf b → board_wf (aureole_step v b x).
Proof.
  intros Hwf. unfold board_wf.
  destruct (aureole_step_fields v b x) as (-> & _).
  rewrite aureole_step_mask. repeat case_match; try done.
  by apply mask_set_shape.
Qed.

Lemma halo_fold_fields v b l :
  size (foldl (aureole_step v) b l) = size b ∧
  hide (foldl (aureole_step v) b l) = hide b ∧
  count (foldl (aureole_step v) b l) = count b ∧
  ships (foldl (aureole_step v) b l) = ships b.
Proof.
  revert b. induction l as [|x l IH]; intros b; [done|]. simpl.
  destruct (IH (aureole_step v b x)) as (-> & -> & -> & ->).
  apply aureole_step_fields.
Qed.

Lemma halo_fold_wf v b l :
  board_wf b → board_wf (foldl (aureole_step v) b l).
Proof.
  revert b. induction l as [|x l IH]; intros b Hwf; [done|]. simpl.
  by apply IH, aureole_step_wf.
Qed.

Lemma halo_fold_prefix v b l :
  occupy_cells b `prefix_of` occupy_cells (foldl (aureole_step v) b l).
Proof.
  revert b. induction l as [|x l IH]; intros b; [done|]. simpl.
  etrans; [|apply IH]. rewrite aureole_step_occupy. by apply prefix_app_r.
Qed.

Lemma halo_fold_occupy v b l n :
  n ∈ occupy_cells (foldl (aureole_step v) b l) ↔
  n ∈ occupy_cells b ∨ (n ∈ l ∧ in_bounds b n).
Proof.
  revert b. induction l as [|x l IH]; intros b; simpl.
  - rewrite elem_of_nil. tauto.
  - rewrite IH, aureole_step_occupy, elem_of_app, elem_of_cons.
    rewrite in_bounds_aureole_step.
    case_decide as Hx; [rewrite list_elem_of_singleton|rewrite elem_of_nil].
    + split; [|tauto]. intros [[?| ->]|?]; tauto.
    + split; [tauto|]. intros [?|[[->|?] ?]]; [tauto| |tauto].
      destruct (decide (x ∈ occupy_cells b)); tauto.
Qed.

(** Without visibility the mask is not touched. *)
Lemma halo_fold_mask_hidden b l :
  mask (foldl (aureole_step false) b l) = mask b.
Proof.
  revert b. induction l as [|x l IH]; intros b; [done|]. simpl.
  rewrite IH, aureole_step_mask. by case_decide.
Qed.

(** With visibility a cell inside the board shows the dot exactly when it is
    looked at and was not occupied before; every other cell keeps what it
    showed. *)
Lemma halo_fold_mask_visible b l n :
  board_wf b → in_bounds b n →
  mask_get (mask (foldl (aureole_step true) b l)) n =
  if decide (n ∈ occupy_cells b) then mask_get (mask b) n
  else if decide (n ∈ l) then Some SHalo
  else mask_get (mask b) n.
Proof.
  revert b. induction l as [|x l IH]; intros b Hwf Hn; cbn [foldl].
  - destruct (decide (n ∈ [])) as [[]%elem_of_nil|]. by case_decide.
  - rewrite IH; [|by apply aureole_step_wf|by apply in_bounds_aureole_step].
    rewrite aureole_step_occupy, aureole_step_mask.
    destruct (decide (in_bounds b x ∧ x ∉ occupy_cells b)) as [[Hx Hxo]|Hx].
    + destruct (decide (n = x)) as [->|Hne].
      * rewrite decide_True by list_in.
        rewrite (decide_False (P := x ∈ occupy_cells b)) by done.
        rewrite (decide_True (P := x ∈ x :: l)) by list_in.
        destruct Hwf, Hx as [? ?].
        eapply mask_get_set_eq; [done|lia..].
      * assert (mask_get (mask_set (mask b) x SHalo) n = mask_get (mask b) n)
          as Hm.
        { destruct Hx as [? ?], Hn as [? ?].
          apply mask_get_set_ne; (lia || done). }
        rewrite Hm.
        destruct (decide (n ∈ occupy_cells b)).
        -- by rewrite decide_True by list_in.
        -- rewrite decide_False by list_in.
           destruct (decide (n ∈ l)).
           ++ by rewrite decide_True by list_in.
           ++ by rewrite decide_False by list_in.
    + rewrite app_nil_r. destruct (decide (n ∈ occupy_cells b)); [done|].
      destruct (decide (n ∈ l)).
      * by rewrite decide_True by list_in.
      * rewrite decide_False; [done|].
        intros [->|?]%elem_of_cons; tauto.
Qed.

Lemma aureole_fields ship v b :
  size (aureole ship v b) = size b ∧ hide (aureole ship v b) = hide b ∧
  count (aureole ship v b) = count b ∧ ships (aureole ship v b) = ships b.
Proof. rewrite aureole_flat. apply halo_fold_fields. Qed.

Lemma aureole_prefix ship v b :
  occupy_cells b `prefix_of` occupy_cells (aureole ship v b).
Proof. rewrite aureole_flat. apply halo_fold_prefix. Qed.

Lemma aureole_occupy ship v b n :
  n ∈ occupy_cells (aureole ship v b) ↔
  n ∈ occupy_cells b ∨ (n ∈ halo_cells ship ∧ in_bounds b n).
Proof. rewrite aureole_flat. apply halo_fold_occupy. Qed.

Lemma aureole_wf ship v b : board_wf b → board_wf (aureole ship v b).
Proof. rewrite aureole_flat. apply halo_fold_wf. Qed.

Lemma cells_in_halo ship c : c ∈ cells ship → c ∈ halo_cells ship.
Proof.
  intros Hc. apply elem_of_halo_cells. exists c, (0, 0).
  split_and!; [done| |].
  - unfold around_ship. list_in.
  - destruct c as [r k]. unfold neighbour. simpl. f_equal; lia.
Qed.

(** ** [add_ship] *)

Lemma check_cells_spec b cs :
  (Forall (λ c, in_bounds b c ∧ c ∉ occupy_cells b) cs
   ∧ check_cells b cs = Return ())
  ∨ (¬ Forall (λ c, in_bounds b c ∧ c ∉ occupy_cells b) cs
     ∧ check_cells b cs = Raise WrongPositionShipException).
Proof.
  induction cs as [|c cs IH]; simpl; [by left|].
  destruct (outside_board b c) eqn:Ho; simpl.
  - right. split; [|done]. rewrite Forall_cons.
    apply outside_board_true in Ho. tauto.
  - apply outside_board_false in Ho. case_bool_decide as Hocc.
    + right. split; [|done]. rewrite Forall_cons. tauto.
    + destruct IH as [[IH ->]|[IH ->]]; [left|right];
        (split; [|done]); rewrite Forall_cons; tauto.
Qed.

Lemma place_fold_fields sign b cs :
  size (foldl (place_cell sign) b cs) = size b ∧
  hide (foldl (place_cell sign) b cs) = hide b ∧
  count (foldl (place_cell sign) b cs) = count b ∧
  ships (foldl (place_cell sign) b cs) = ships b ∧
  occupy_cells (foldl (place_cell sign) b cs) = occupy_cells b ++ cs.
Proof.
  revert b. induction cs as [|c cs IH]; intros b; simpl.
  - by rewrite app_nil_r.
  - destruct (IH (place_cell sign b c)) as (-> & -> & -> & -> & ->).
    simpl. by rewrite <-app_assoc.
Qed.

Lemma place_fold_wf sign b cs :
  board_wf b → board_wf (foldl (place_cell sign) b cs).
Proof.
  revert b. induction cs as [|c cs IH]; intros b Hwf; [done|]. simpl.
  apply IH. unfold board_wf in *. simpl. by apply mask_set_shape.
Qed.

Lemma place_fold_mask sign b cs n :
  board_wf b → Forall (in_bounds b) cs → in_bounds b n →
  mask_get (mask (foldl (place_cell sign) b cs)) n =
  if decide (n ∈ cs) then Some sign else mask_get (mask b) n.
Proof.
  revert b. induction cs as [|c cs IH]; intros b Hwf Hcs Hn; cbn [foldl].
  - by destruct (decide (n ∈ [])) as [[]%elem_of_nil|].
  - apply Forall_cons in Hcs as [Hc Hcs].
    rewrite IH; [| |done..].
    2:{ unfold board_wf in *. simpl. by apply mask_set_shape. }
    simpl. destruct (decide (n ∈ cs)).
    + by rewrite decide_True by list_in.
    + destruct (decide (n = c)) as [->|Hne].
      * rewrite decide_True by list_in. destruct Hwf, Hc as [? ?].
        eapply mask_get_set_eq; [done|lia..].
      * rewrite decide_False by list_in. destruct Hc as [? ?], Hn as [? ?].
        apply mask_get_set_ne; (lia || done).
Qed.

(** The board after a successful [add_ship]. *)
Lemma add_ship_accepted ship b :
  placeable b ship →
  add_ship ship b =
  (aureole ship false
     (set_ships
        (foldl (place_cell (if hide b then SBlank else SShip)) b (cells ship))
        (ships b ++ [ship])),
   Return ()).
Proof.
  intros Hok. unfold add_ship.
  destruct (check_cells_spec b (cells ship)) as [[_ ->]|[Hno _]]; [|done].
  destruct (place_fold_fields (if hide b then SBlank else SShip)
              b (cells ship)) as (_ & _ & _ & -> & _).
  done.
Qed.

Lemma add_ship_rejected ship b :
  ¬ placeable b ship →
  add_ship ship b = (b, Raise WrongPositionShipException).
Proof.
  intros Hno. unfold add_ship.
  by destruct (check_cells_spec b (cells ship)) as [[? _]|[_ ->]].
Qed.

Lemma add_ship_fields ship b :
  size (add_ship ship b).1 = size b ∧ hide (add_ship ship b).1 = hide b ∧
  count (add_ship ship b).1 = count b.
Proof.
  destruct (decide (placeable b ship)) as [Hok|Hno].
  - rewrite add_ship_accepted by done. simpl.
    destruct (aureole_fields ship false
      (set_ships (foldl (place_cell (if hide b then SBlank else SShip))
                    b (cells ship)) (ships b ++ [ship])))
      as (-> & -> & -> & _).
    simpl. destruct (place_fold_fields (if hide b then SBlank else SShip)
                       b (cells ship)) as (-> & -> & -> & _). done.
  - by rewrite add_ship_rejected.
Qed.

Lemma add_ship_occupy ship b n :
  placeable b ship →
  n ∈ occupy_cells (add_ship ship b).1 ↔
  n ∈ occupy_cells b ∨ n ∈ cells ship
  ∨ (n ∈ halo_cells ship ∧ in_bounds b n).
Proof.
  intros Hok. rewrite add_ship_accepted by done. simpl.
  rewrite aureole_occupy. simpl.
  destruct (place_fold_fields (if hide b then SBlank else SShip)
              b (cells ship)) as (Hs & _ & _ & _ & ->).
  rewrite elem_of_app. unfold in_bounds. simpl. rewrite Hs. tauto.
Qed.

Lemma add_ship_prefix ship b :
  occupy_cells b `prefix_of` occupy_cells (add_ship ship b).1.
Proof.
  destruct (decide (placeable b ship)) as [Hok|Hno].
  - rewrite add_ship_accepted by done. simpl.
    etrans; [|apply aureole_prefix]. simpl.
    destruct (place_fold_fields (if hide b then SBlank else SShip)
                b (cells ship)) as (_ & _ & _ & _ & ->).
    by apply prefix_app_r.
  - by rewrite add_ship_rejected.
Qed.

Lemma add_ship_wf ship b : board_wf b → board_wf (add_ship ship b).1.
Proof.
  intros Hwf. destruct (decide (placeable b ship)) as [Hok|Hno].
  - rewrite add_ship_accepted by done. simpl. apply aureole_wf.
    by apply (place_fold_wf (if hide b then SBlank else SShip) b (cells ship)).
  - by rewrite add_ship_rejected.
Qed.

Lemma covers_mono b b' ship :
  size b' = size b →
  (∀ n, n ∈ occupy_cells b → n ∈ occupy_cells b') →
  covers b ship → covers b' ship.
Proof.
  intros Hs Hsub [Hc Hh]. split; [by auto|].
  intros n Hn Hb. apply Hsub, Hh; [done|]. by apply (in_bounds_size b b').
Qed.

(** [add_ship], accepted or not, leaves every ship of the board with its
    cells and its halo in the occupancy list. *)
Lemma add_ship_keeps_inv ship b :
  placement_inv b → placement_inv (add_ship ship b).1.
Proof.
  intros Hinv. destruct (decide (placeable b ship)) as [Hok|Hno];
    [|by rewrite add_ship_rejected].
  assert (∀ s, covers b s → covers (add_ship ship b).1 s) as Hmono.
  { intros s. apply covers_mono; [apply add_ship_fields|].
    intros n Hn. apply add_ship_occupy; tauto. }
  unfold placement_inv.
  assert (ships (add_ship ship b).1 = ships b ++ [ship]) as ->.
  { rewrite add_ship_accepted by done. simpl.
    by destruct (aureole_fields ship false
      (set_ships (foldl (place_cell (if hide b then SBlank else SShip))
                    b (cells ship)) (ships b ++ [ship])))
      as (_ & _ & _ & ->). }
  apply Forall_app. split.
  - eapply Forall_impl; [exact Hinv|]. exact Hmono.
  - apply Forall_singleton. split.
    + intros c Hc. apply add_ship_occupy; tauto.
    + intros n Hn Hb. apply add_ship_occupy; [done|].
      right. right. split; [done|].
      eapply in_bounds_size; [|exact Hb]. symmetry. apply add_ship_fields.
Qed.

(** So it is over a whole placement phase, from the new board on: the
    occupancy list a ship is checked against holds the cells and the halo of
    every ship placed before it. *)
Lemma placement_phase_inv hide size attempts :
  placement_inv
    (foldl (λ b ship, (add_ship ship b).1)
       (mkBoard size hide 0
          (replicate (Z.to_nat size) (replicate (Z.to_nat size) SBlank))
          [] [])
       attempts).
Proof.
  induction attempts as [|ship attempts IH] using rev_ind.
  - by apply Forall_nil.
  - rewrite foldl_app. simpl. by apply add_ship_keeps_inv.
Qed.

(** C5: [add_ship] accepts a ship exactly when each of its cells is inside
    the board and none is in the occupancy list.  On acceptance the ship
    joins the ships, all its cells show the ship sign and are occupied, the
    cells around them that lie on the board are occupied, nothing leaves the
    occupancy list and no other cell of the mask changes.  On rejection the
    exception is [WrongPositionShipException] and the board is the one
    passed in.  Either way every ship on the board keeps its cells and its
    halo in the occupancy list. *)
Theorem add_ship_all_or_nothing ship b :
  board_wf b →
  ((add_ship ship b).2 = Return () ↔ placeable b ship) ∧
  (placeable b ship →
     ships (add_ship ship b).1 = ships b ++ [ship] ∧
     (∀ c, c ∈ cells ship →
        c ∈ occupy_cells (add_ship ship b).1 ∧
        mask_get (mask (add_ship ship b).1) c
        = Some (if hide b then SBlank else SShip)) ∧
     (∀ n, n ∈ halo_cells ship → in_bounds b n →
        n ∈ occupy_cells (add_ship ship b).1) ∧
     (∀ n, n ∈ occupy_cells b → n ∈ occupy_cells (add_ship ship b).1) ∧
     (∀ n, in_bounds b n → n ∉ cells ship →
        mask_get (mask (add_ship ship b).1) n = mask_get (mask b) n)) ∧
  (¬ placeable b ship →
     add_ship ship b = (b, Raise WrongPositionShipException)) ∧
  (placement_inv b → placement_inv (add_ship ship b).1).
Proof.
  intros Hwf. split_and!.
  - destruct (decide (placeable b ship)) as [Hok|Hno].
    + by rewrite add_ship_accepted.
    + by rewrite add_ship_rejected.
  - intros Hok.
    assert (∀ n, in_bounds b n →
              mask_get (mask (add_ship ship b).1) n =
              if decide (n ∈ cells ship)
              then Some (if hide b then SBlank else SShip)
              else mask_get (mask b) n) as Hmask.
    { intros n Hn. rewrite add_ship_accepted by done. simpl.
      rewrite aureole_flat, halo_fold_mask_hidden. simpl.
      apply place_fold_mask; [done| |done].
      eapply Forall_impl; [exact Hok|]. by intros c [? _]. }
    split_and!.
    + rewrite add_ship_accepted by done. simpl.
      by destruct (aureole_fields ship false
        (set_ships (foldl (place_cell (if hide b then SBlank else SShip))
                      b (cells ship)) (ships b ++ [ship])))
        as (_ & _ & _ & ->).
    + intros c Hc. split; [apply add_ship_occupy; tauto|].
      unfold placeable in Hok. rewrite Forall_forall in Hok.
      rewrite Hmask by by apply Hok. by rewrite decide_True.
    + intros n Hn Hb. apply add_ship_occupy; tauto.
    + intros n Hn. apply add_ship_occupy; tauto.
    + intros n Hn Hc. rewrite Hmask by done. by rewrite decide_False.
  - apply add_ship_rejected.
  - apply add_ship_keeps_inv.
Qed.

Lemma add_ship_all_or_nothing_witness :
  ((add_ship corner_ship board6).2 = Return ()
   ↔ placeable board6 corner_ship) ∧
  (placeable board6 corner_ship →
     ships (add_ship corner_ship board6).1 = ships board6 ++ [corner_ship] ∧
     (∀ c, c ∈ cells corner_ship →
        c ∈ occupy_cells (add_ship corner_ship board6).1 ∧
        mask_get (mask (add_ship corner_ship board6).1) c
        = Some (if hide board6 then SBlank else SShip)) ∧
     (∀ n, n ∈ halo_cells corner_ship → in_bounds board6 n →
        n ∈ occupy_cells (add_ship corner_ship board6).1) ∧
     (∀ n, n ∈ occupy_cells board6 →
        n ∈ occupy_cells (add_ship corner_ship board6).1) ∧
     (∀ n, in_bounds board6 n → n ∉ cells corner_ship →
        mask_get (mask (add_ship corner_ship board6).1) n
        = mask_get (mask board6) n)) ∧
  (¬ placeable board6 corner_ship →
     add_ship corner_ship board6
     = (board6, Raise WrongPositionShipException)) ∧
  (placement_inv board6 → placement_inv (add_ship corner_ship board6).1).
Proof.
  apply (add_ship_all_or_nothing corner_ship board6).
  compute_done.
Defined.

(** A one-cell ship in the corner of the 6x6 board occupies its cell and
    the three neighbours that lie on the board. *)
Example corner_halo :
  occupy_cells (add_ship (Ship_init (mkCell 0 0) 1 0) board6).1
  = [mkCell 0 0; mkCell 0 1; mkCell 1 0; mkCell 1 1].
Proof. by vm_compute. Qed.

(** A ship touching the halo of a placed ship is turned down, and so is one
    that leaves the board. *)
Example add_ship_turned_down :
  add_ship near_ship placed_board
  = (placed_board, Raise WrongPositionShipException) ∧
  add_ship (Ship_init (mkCell 0 5) 2 0) placed_board
  = (placed_board, Raise WrongPositionShipException).
Proof. by vm_compute. Qed.

(** ** [shot] *)

Lemma find_ship_first cell i before ship after :
  Forall (λ s, cell ∉ cells s) before → cell ∈ cells ship →
  find_ship cell i (before ++ ship :: after)
  = Some ((i + length before)%nat, ship).
Proof.
  revert i. induction before as [|s0 before IH]; intros i Hb Hc; simpl.
  - rewrite bool_decide_eq_true_2 by done. do 2 f_equal. lia.
  - apply Forall_cons in Hb as [Hs0 Hb].
    rewrite bool_decide_eq_false_2 by done.
    rewrite IH by done. do 2 f_equal. lia.
Qed.

Lemma find_ship_none cell i ss :
  Forall (λ s, cell ∉ cells s) ss → find_ship cell i ss = None.
Proof.
  revert i. induction ss as [|s0 ss IH]; intros i Hb; simpl; [done|].
  apply Forall_cons in Hb as [Hs0 Hb].
  rewrite bool_decide_eq_false_2 by done. by apply IH.
Qed.

Lemma shot_ship_unfold b cell before ship after :
  in_bounds b cell → cell ∉ occupy_cells b →
  ships b = before ++ ship :: after →
  Forall (λ s, cell ∉ cells s) before → cell ∈ cells ship →
  shot cell b =
  let hit := set_health ship (health ship - 1) in
  if bool_decide (health ship - 1 = 0) then
    (aureole hit true
       (set_count (hit_board b cell before hit after) (count b + 1)),
     [MsgHit; MsgDestroyed], Return true)
  else (hit_board b cell before hit after, [MsgHit; MsgWounded], Return true).
Proof.
  intros Hin Hocc Hships Hbefore Hcell. unfold shot.
  apply outside_board_false in Hin. rewrite Hin.
  rewrite bool_decide_eq_false_2 by done. simpl.
  rewrite Hships, find_ship_first by done. simpl.
  rewrite insert_app_r_alt by lia.
  replace (length before - length before)%nat with 0%nat by lia.
  done.
Qed.

(** A shot at a cell of no ship marks the miss and returns [False]. *)
Lemma shot_miss b cell :
  in_bounds b cell → cell ∉ occupy_cells b →
  Forall (λ s, cell ∉ cells s) (ships b) →
  shot cell b =
  (set_mask (set_occupy_cells b (occupy_cells b ++ [cell]))
     (mask_set (mask b) cell SMiss),
   [MsgMiss], Return false).
Proof.
  intros Hin Hocc Hships. unfold shot.
  apply outside_board_false in Hin. rewrite Hin.
  rewrite bool_decide_eq_false_2 by done. simpl.
  by rewrite find_ship_none.
Qed.

(** C6: a shot at a cell that lies on the board, is not in the occupancy
    list and belongs to [ship], the first ship of the list that has it.
    With more than one health left the shot prints the hit and the
    "wounded" line and returns [True]; the ship's health goes down by one
    and no other ship, the counter included, changes.  With exactly one
    health left it prints the hit and the "destroyed" line and returns
    [True]; the health reaches 0, the counter goes up by one, every cell on
    the board at distance one from the ship is occupied and shows the dot,
    unless it is the cell just hit or was occupied already, in which case it
    keeps what it showed; so where every occupied cell was shown before, the
    whole halo is shown afterwards. *)
Theorem shot_wounds_or_destroys b cell before ship after :
  board_wf b → in_bounds b cell → cell ∉ occupy_cells b →
  ships b = before ++ ship :: after →
  Forall (λ s, cell ∉ cells s) before → cell ∈ cells ship →
  (1 < health ship →
     shot cell b =
     (hit_board b cell before (set_health ship (health ship - 1)) after,
      [MsgHit; MsgWounded], Return true)) ∧
  (health ship = 1 →
     ∃ b', shot cell b = (b', [MsgHit; MsgDestroyed], Return true) ∧
       count b' = count b + 1 ∧
       ships b' = before ++ set_health ship 0 :: after ∧
       (∀ n, n ∈ occupy_cells b → n ∈ occupy_cells b') ∧
       (∀ n, n ∈ halo_cells ship → in_bounds b n →
          n ∈ occupy_cells b' ∧
          mask_get (mask b') n =
            if decide (n = cell) then Some SHit
            else if decide (n ∈ occupy_cells b) then mask_get (mask b) n
            else Some SHalo) ∧
       ((∀ c, c ∈ occupy_cells b → in_bounds b c → shown (mask b) c) →
        ∀ n, n ∈ halo_cells ship → in_bounds b n → shown (mask b') n)).
Proof.
  intros Hwf Hin Hocc Hships Hbefore Hcell.
  pose proof (shot_ship_unfold b cell before ship after
                Hin Hocc Hships Hbefore Hcell) as Hshot.
  cbv zeta in Hshot. split.
  - intros Hh. rewrite Hshot. by rewrite bool_decide_eq_false_2 by lia.
  - intros Hh. rewrite Hshot, Hh. change (1 - 1) with 0.
    rewrite bool_decide_eq_true_2 by done.
    set (hit := set_health ship 0).
    set (b3 := set_count (hit_board b cell before hit after) (count b + 1)).
    assert (board_wf b3) as Hwf3.
    { unfold board_wf in *. simpl. by apply mask_set_shape. }
    assert (∀ n, n ∈ halo_cells ship → in_bounds b n →
              mask_get (mask (aureole hit true b3)) n =
              if decide (n = cell) then Some SHit
              else if decide (n ∈ occupy_cells b) then mask_get (mask b) n
              else Some SHalo) as Hmask.
    { intros n Hn Hb. rewrite aureole_flat, halo_fold_mask_visible by done.
      simpl. destruct (decide (n = cell)) as [->|Hne].
      - rewrite decide_True by list_in. destruct Hwf, Hin as [? ?].
        eapply mask_get_set_eq; [done|lia..].
      - assert (mask_get (mask_set (mask b) cell SHit) n
                = mask_get (mask b) n) as ->.
        { destruct Hin as [? ?], Hb as [? ?].
          apply mask_get_set_ne; (lia || done). }
        destruct (decide (n ∈ occupy_cells b)).
        + by rewrite decide_True by list_in.
        + rewrite decide_False by list_in.
          by rewrite decide_True by done. }
    eexists. split; [reflexivity|]. split_and!.
    + by destruct (aureole_fields hit true b3) as (_ & _ & -> & _).
    + by destruct (aureole_fields hit true b3) as (_ & _ & _ & ->).
    + intros n Hn. apply aureole_occupy. left. simpl. list_in.
    + intros n Hn Hb. split; [|by apply Hmask].
      apply aureole_occupy. right. by split.
    + intros Hshown n Hn Hb. unfold shown. rewrite Hmask by done.
      destruct (decide (n = cell)); [by left|].
      destruct (decide (n ∈ occupy_cells b)); [by apply Hshown|].
      by right; right.
Qed.

Lemma shot_wounds_or_destroys_witness :
  (1 < health corner_ship →
     shot (mkCell 0 0) battle_board =
     (hit_board battle_board (mkCell 0 0) []
        (set_health corner_ship (health corner_ship - 1)) [],
      [MsgHit; MsgWounded], Return true)) ∧
  (health corner_ship = 1 →
     ∃ b', shot (mkCell 0 0) battle_board
           = (b', [MsgHit; MsgDestroyed], Return true) ∧
       count b' = count battle_board + 1 ∧
       ships b' = [] ++ set_health corner_ship 0 :: [] ∧
       (∀ n, n ∈ occupy_cells battle_board → n ∈ occupy_cells b') ∧
       (∀ n, n ∈ halo_cells corner_ship → in_bounds battle_board n →
          n ∈ occupy_cells b' ∧
          mask_get (mask b') n =
            if decide (n = mkCell 0 0) then Some SHit
            else if decide (n ∈ occupy_cells battle_board)
                 then mask_get (mask battle_board) n
            else Some SHalo) ∧
       ((∀ c, c ∈ occupy_cells battle_board → in_bounds battle_board c →
           shown (mask battle_board) c) →
        ∀ n, n ∈ halo_cells corner_ship → in_bounds battle_board n →
             shown (mask b') n)).
Proof.
  apply (shot_wounds_or_destroys battle_board (mkCell 0 0) [] corner_ship []).
  - compute_done.
  - compute_done.
  - compute_done.
  - reflexivity.
  - constructor.
  - compute_done.
Defined.

(** Two shots sink [corner_ship]; a third one at the same cell raises. *)
Example shot_twice :
  let b1 := (shot (mkCell 0 0) battle_board).1.1 in
  let b2 := (shot (mkCell 0 1) b1).1.1 in
  (shot (mkCell 0 0) battle_board).2 = Return true ∧
  (shot (mkCell 0 1) b1).1.2 = [MsgHit; MsgDestroyed] ∧
  count b2 = 1 ∧
  take 2 (mask b2) = [ [SHit; SHit; SHalo; SBlank; SBlank; SBlank];
                       [SHalo; SHalo; SHalo; SBlank; SBlank; SBlank] ] ∧
  shot (mkCell 0 1) b2 = (b2, [], Raise OccupiedCellException) ∧
  shot (mkCell 5 5) b2
  = (set_mask (set_occupy_cells b2 (occupy_cells b2 ++ [mkCell 5 5]))
       (mask_set (mask b2) (mkCell 5 5) SMiss),
     [MsgMiss], Return false).
Proof. by vm_compute. Qed.

(** ** The occupancy list over the life of a board *)

Lemma shot_prefix cell b :
  occupy_cells b `prefix_of` occupy_cells (shot cell b).1.1.
Proof.
  unfold shot. destruct (outside_board b cell); [done|].
  case_bool_decide; [done|]. simpl.
  destruct (find_ship cell 0 (ships b)) as [[i ship]|]; simpl.
  - case_bool_decide; simpl.
    + etrans; [|apply aureole_prefix]. simpl. by apply prefix_app_r.
    + by apply prefix_app_r.
  - by apply prefix_app_r.
Qed.

Lemma run_op_prefix b op :
  is_begin op = false →
  occupy_cells b `prefix_of` occupy_cells (run_op b op).
Proof.
  destruct op; simpl; [intros _..|done].
  - apply add_ship_prefix.
  - apply aureole_prefix.
  - apply shot_prefix.
Qed.

(** C7, as stated: no operation of the board would remove a cell from the
    occupancy list.  [begin] does: the corner cell is occupied on
    [placed_board] and is not after [begin]. *)
Lemma begin_forgets_occupancy :
  mkCell 0 0 ∈ occupy_cells placed_board ∧
  mkCell 0 0 ∉ occupy_cells (run_op placed_board OpBegin).
Proof.
  split.
  - vm_compute. apply list_elem_of_here.
  - vm_compute. apply not_elem_of_nil.
Qed.

Lemma shot_wf cell b : board_wf b → board_wf (shot cell b).1.1.
Proof.
  intros Hwf. unfold shot. destruct (outside_board b cell); [done|].
  case_bool_decide; [done|]. cbv zeta.
  destruct (find_ship cell 0 _) as [[i ship]|]; simpl.
  - case_bool_decide; simpl.
    + apply aureole_wf. unfold board_wf. simpl. by apply mask_set_shape.
    + unfold board_wf. simpl. by apply mask_set_shape.
  - unfold board_wf. simpl. by apply mask_set_shape.
Qed.

Lemma run_op_wf b op : board_wf b → board_wf (run_op b op).
Proof.
  destruct op; simpl; [apply add_ship_wf|apply aureole_wf|apply shot_wf|done].
Qed.

Lemma run_ops_wf b ops : board_wf b → board_wf (foldl run_op b ops).
Proof.
  revert b. induction ops as [|op ops IH]; intros b Hwf; [done|].
  simpl. by apply IH, run_op_wf.
Qed.

(** What revealing a halo does to a cell of the board. *)
Lemma reveal_cell ship b n :
  board_wf b → in_bounds b n →
  (n ∈ occupy_cells (aureole ship true b)
   ↔ n ∈ occupy_cells b ∨ n ∈ halo_cells ship) ∧
  mask_get (mask (aureole ship true b)) n
  = if decide (n ∈ halo_cells ship ∧ n ∉ occupy_cells b) then Some SHalo
    else mask_get (mask b) n.
Proof.
  intros Hwf Hn. split.
  - rewrite aureole_occupy. tauto.
  - rewrite aureole_flat, (halo_fold_mask_visible _ _ _ Hwf Hn).
    repeat case_decide; tauto.
Qed.

(** C7, amended: over any sequence of [add_ship], [aureole] and [shot],
    accepted or not, the occupancy list only grows at its end, so a cell
    that is in it stays in it.  Revealing a halo removes nothing either:
    on a board reached this way from one with a square mask, [aureole]
    with visibility appends the cells of the halo on the board that are
    not in the list yet, marks exactly those cells on the mask and leaves
    every other cell as it is shown.  [begin] is the one operation that
    empties the list. *)
Theorem occupancy_grows_until_begin ops b :
  forallb (λ op, negb (is_begin op)) ops = true →
  occupy_cells b `prefix_of` occupy_cells (foldl run_op b ops) ∧
  (∀ c, c ∈ occupy_cells b → c ∈ occupy_cells (foldl run_op b ops)) ∧
  occupy_cells (run_op (foldl run_op b ops) OpBegin) = [] ∧
  (board_wf b →
   ∀ ship n, in_bounds (foldl run_op b ops) n →
     (n ∈ occupy_cells (run_op (foldl run_op b ops) (OpAureole ship true))
      ↔ n ∈ occupy_cells (foldl run_op b ops) ∨ n ∈ halo_cells ship) ∧
     mask_get (mask (run_op (foldl run_op b ops) (OpAureole ship true))) n
     = if decide (n ∈ halo_cells ship ∧ n ∉ occupy_cells (foldl run_op b ops))
       then Some SHalo
       else mask_get (mask (foldl run_op b ops)) n).
Proof.
  intros Hops.
  assert (occupy_cells b `prefix_of` occupy_cells (foldl run_op b ops)) as Hp.
  { revert b. induction ops as [|op ops IH]; intros b; [done|].
    simpl in Hops |- *. apply andb_true_iff in Hops as [Hop Hops].
    etrans; [|by apply IH]. apply run_op_prefix.
    by apply negb_true_iff. }
  split_and!; [done| |done|].
  - intros c Hc. destruct Hp as [k ->]. list_in.
  - intros Hwf ship n Hn. cbn [run_op].
    by apply reveal_cell; [apply run_ops_wf|].
Qed.

Lemma occupancy_grows_until_begin_witness :
  occupy_cells board6 `prefix_of`
    occupy_cells (foldl run_op board6
                    [OpAddShip corner_ship; OpAddShip near_ship;
                     OpShot (mkCell 5 5)]) ∧
  (∀ c, c ∈ occupy_cells board6 →
        c ∈ occupy_cells (foldl run_op board6
                            [OpAddShip corner_ship; OpAddShip near_ship;
                             OpShot (mkCell 5 5)])) ∧
  occupy_cells (run_op (foldl run_op board6
                          [OpAddShip corner_ship; OpAddShip near_ship;
                           OpShot (mkCell 5 5)]) OpBegin) = [] ∧
  (board_wf board6 →
   ∀ ship n,
     in_bounds (foldl run_op board6
                  [OpAddShip corner_ship; OpAddShip near_ship;
                   OpShot (mkCell 5 5)]) n →
     (n ∈ occupy_cells
            (run_op (foldl run_op board6
                       [OpAddShip corner_ship; OpAddShip near_ship;
                        OpShot (mkCell 5 5)]) (OpAureole ship true))
      ↔ n ∈ occupy_cells (foldl run_op board6
                             [OpAddShip corner_ship; OpAddShip near_ship;
                              OpShot (mkCell 5 5)])
        ∨ n ∈ halo_cells ship) ∧
     mask_get
       (mask (run_op (foldl run_op board6
                        [OpAddShip corner_ship; OpAddShip near_ship;
                         OpShot (mkCell 5 5)]) (OpAureole ship true))) n
     = if decide (n ∈ halo_cells ship
                  ∧ n ∉ occupy_cells
                          (foldl run_op board6
                             [OpAddShip corner_ship; OpAddShip near_ship;
                              OpShot (mkCell 5 5)]))
       then Some SHalo
       else mask_get (mask (foldl run_op board6
                              [OpAddShip corner_ship; OpAddShip near_ship;
                               OpShot (mkCell 5 5)])) n).
Proof.
  apply (occupancy_grows_until_begin
           [OpAddShip corner_ship; OpAddShip near_ship; OpShot (mkCell 5 5)]
           board6).
  reflexivity.
Defined.

(** The halo of the sunk ship of [battle_board]: the sinking shot brings
    the occupancy list from one cell to six, and the four cells it adds
    beside the two of the ship are the ones shown as halo. *)
Example reveal_extends_occupancy :
  let b1 := (shot (mkCell 0 0) battle_board).1.1 in
  let b2 := (shot (mkCell 0 1) b1).1.1 in
  occupy_cells b1 = [mkCell 0 0] ∧
  occupy_cells b2
  = [mkCell 0 0; mkCell 0 1; mkCell 1 0; mkCell 1 1; mkCell 0 2; mkCell 1 2] ∧
  filter (λ n, mask_get (mask b2) n = Some SHalo) (occupy_cells b2)
  = [mkCell 1 0; mkCell 1 1; mkCell 0 2; mkCell 1 2].
Proof. by vm_compute. Qed.

(** ** The catalog *)

(** C9, as stated: the catalog for a size below 10 would be the reference
    catalog, longest ships first, less one ship per unit below 10.  For the
    size 6 the game plays on, the loop runs over seven lengths with a 3
    among them; the rule gives six, and no number of ships dropped from the
    long end leaves the lengths the loop runs over. *)
Lemma catalog_not_longest_first :
  catalog 6 = [3; 2; 2; 1; 1; 1; 1] ∧
  catalog_by_spec 6 = [2; 2; 1; 1; 1; 1] ∧
  ¬ catalog 6 ≡ₚ catalog_by_spec 6 ∧
  ∀ n, ¬ catalog 6 ≡ₚ drop n reference_by_length.
Proof.
  split_and!; [done..| |].
  - intros H%Permutation_length. done.
  - intros n H. pose proof (Permutation_length H) as Hlen.
    assert (n = 3%nat) as ->.
    { rewrite length_drop in Hlen. simpl in Hlen. lia. }
    assert (3 ∈ drop 3 reference_by_length) as Hin.
    { rewrite <-H. vm_compute. apply list_elem_of_here. }
    vm_compute in Hin. repeat apply elem_of_cons in Hin as [?|Hin]; try done.
    by apply elem_of_nil in Hin.
Qed.

(** C9, amended: for a size below 10 the loop runs over the list
    4, 3, 2, 3, 2, 2, 1, 1, 1, 1 (one ship of four, two of three, three of
    two, four of one) without its first [9 - size] entries, in the order of
    that list: nothing is dropped at size 9, the 4 at size 8, the 4 and a 3
    at size 7, the 4, a 3 and a 2 at size 6, and the 4, both 3 and a 2 at
    size 5. *)
Theorem catalog_drops_front size :
  size < 10 →
  ships_list = take (Z.to_nat (9 - size)) ships_list ++ catalog size ∧
  (0 ≤ size → length (catalog size) = Z.to_nat (size + 1)) ∧
  ships_list ≡ₚ reference_by_length ∧
  catalog 9 = [4; 3; 2; 3; 2; 2; 1; 1; 1; 1] ∧
  catalog 8 = [3; 2; 3; 2; 2; 1; 1; 1; 1] ∧
  catalog 7 = [2; 3; 2; 2; 1; 1; 1; 1] ∧
  catalog 6 = [3; 2; 2; 1; 1; 1; 1] ∧
  catalog 5 = [2; 2; 1; 1; 1; 1].
Proof.
  intros Hs. unfold catalog. rewrite bool_decide_eq_true_2 by done.
  split_and!; try done.
  - by rewrite take_drop.
  - intros H0. rewrite length_drop. simpl. lia.
  - unfold ships_list, reference_by_length.
    do 2 apply Permutation_skip. apply Permutation_swap.
Qed.

Lemma catalog_drops_front_witness :
  ships_list = take (Z.to_nat (9 - 6)) ships_list ++ catalog 6 ∧
  (0 ≤ 6 → length (catalog 6) = Z.to_nat (6 + 1)) ∧
  ships_list ≡ₚ reference_by_length ∧
  catalog 9 = [4; 3; 2; 3; 2; 2; 1; 1; 1; 1] ∧
  catalog 8 = [3; 2; 3; 2; 2; 1; 1; 1; 1] ∧
  catalog 7 = [2; 3; 2; 2; 1; 1; 1; 1] ∧
  catalog 6 = [3; 2; 2; 1; 1; 1; 1] ∧
  catalog 5 = [2; 2; 1; 1; 1; 1].
Proof. apply (catalog_drops_front 6). lia. Defined.

(** ** [Board.__init__] *)

Lemma Board_init_Return hide size :
  Board_init hide size =
  Return (mkBoard size hide 0
            (replicate (Z.to_nat size) (replicate (Z.to_nat size) SBlank))
            [] []).
Proof.
  unfold Board_init. destruct (decide (5 > size)).
  - by rewrite (bool_decide_eq_false_2 (size > 10)), andb_false_r by lia.
  - by rewrite (bool_decide_eq_false_2 (5 > size)) by done.
Qed.

(** C10: the guard [5 > size > 10] holds for no size, so the constructor
    returns a board for every size; for 3 and for 11, outside 5..10, it
    does not raise. *)
Theorem Board_init_never_raises :
  (∀ hide size,
     Board_init hide size =
     Return (mkBoard size hide 0
               (replicate (Z.to_nat size) (replicate (Z.to_nat size) SBlank))
               [] [])) ∧
  Board_init false 3 ≠ Raise BoardSizeException ∧
  Board_init false 11 ≠ Raise BoardSizeException.
Proof.
  split_and!; [apply Board_init_Return|done..].
Qed.

(** ** Random placement *)

Lemma add_ship_cases ship b :
  (add_ship ship b).2 = Return ()
  ∧ length (ships (add_ship ship b).1) = S (length (ships b))
  ∨ add_ship ship b = (b, Raise WrongPositionShipException).
Proof.
  destruct (decide (placeable b ship)) as [Hok|Hno].
  - left. rewrite add_ship_accepted by done. simpl. split; [done|].
    destruct (aureole_fields ship false
      (set_ships (foldl (place_cell (if hide b then SBlank else SShip))
                    b (cells ship)) (ships b ++ [ship])))
      as (_ & _ & _ & ->).
    simpl. rewrite length_app. simpl. lia.
  - right. by apply add_ship_rejected.
Qed.

Lemma place_ship_S rnd fuel sz len a k b :
  place_ship rnd (S fuel) sz len a k b =
  if bool_decide (a + 1 > 2000) then Some (Exhausted (a + 1) k b)
  else match sample_ship rnd k sz len with
       | None => Some (Crashed ValueError)
       | Some ship =>
           match add_ship ship b with
           | (b', Return _) => Some (Placed (a + 1) (k + 3) b')
           | (b', Raise WrongPositionShipException) =>
               place_ship rnd fuel sz len (a + 1) (k + 3) b'
           | (b', Raise e) => Some (Crashed (GameError e))
           end
       end.
Proof. done. Qed.

(** The loop for one ship leaves within [2001 - a] rounds. *)
Lemma place_ship_exit rnd fuel sz len a k b :
  0 ≤ a ≤ 2000 → 2001 - a ≤ Z.of_nat fuel →
  ∃ r, place_ship rnd fuel sz len a k b = Some r ∧
       exit_within a k r ∧ placed_ships (S (length (ships b))) r.
Proof.
  revert a k. induction fuel as [|fuel IH]; intros a k Ha Hf; [lia|].
  rewrite place_ship_S. case_bool_decide as Hlim.
  - eexists. split; [done|]. simpl. split; [|done]. lia.
  - destruct (sample_ship rnd k sz len) as [ship|];
      [|by eexists; split_and!].
    destruct (add_ship_cases ship b) as [[Hret Hlen]| ->].
    + destruct (add_ship ship b) as [b' o]. simpl in *. subst o.
      eexists. split; [done|]. simpl. split; [lia|done].
    + destruct (IH (a + 1) (k + 3)%nat) as (r & -> & Hr & Hs); [lia..|].
      exists r. split; [done|]. split; [|done].
      destruct r as [a' k' ?|a' k' ?|]; simpl in *; lia.
Qed.

Lemma randint_Some rnd k a b :
  a ≤ b → randint rnd k a b = Some (rnd k a b).
Proof. intros. unfold randint. by rewrite bool_decide_eq_false_2 by lia. Qed.

Lemma sample_ship_Some rnd k sz len :
  0 ≤ sz → len ≤ sz → is_Some (sample_ship rnd k sz len).
Proof.
  intros. unfold sample_ship. rewrite (randint_Some rnd k 0 1) by lia. simpl.
  case_bool_decide;
    rewrite (randint_Some rnd (k + 1)), (randint_Some rnd (k + 2)) by lia;
    by eexists.
Qed.

Lemma place_ship_no_crash rnd fuel sz len a k b r :
  0 ≤ sz → len ≤ sz →
  place_ship rnd fuel sz len a k b = Some r → no_crash r.
Proof.
  intros Hsz Hlen. revert a k.
  induction fuel as [|fuel IH]; intros a k; [done|].
  rewrite place_ship_S. case_bool_decide; [by intros [= <-]|].
  destruct (sample_ship_Some rnd k sz len Hsz Hlen) as [ship ->].
  destruct (add_ship_cases ship b) as [[Hret _]| ->]; [|by apply IH].
  destruct (add_ship ship b) as [b' o]. simpl in *. subst o.
  by intros [= <-].
Qed.

Lemma place_all_cons rnd sz len rest a k b :
  place_all rnd sz (len :: rest) a k b =
  match place_ship rnd 2001 sz len a k b with
  | Some (Placed a' k' b') => place_all rnd sz rest a' k' b'
  | r => r
  end.
Proof. reflexivity. Qed.

(** The same for the loop over the catalog: the attempts of all ships are
    counted together. *)
Lemma place_all_exit rnd sz lengths a k b :
  0 ≤ a ≤ 2000 →
  ∃ r, place_all rnd sz lengths a k b = Some r ∧
       exit_within a k r ∧
       placed_ships (length (ships b) + length lengths) r.
Proof.
  revert a k b. induction lengths as [|len rest IH]; intros a k b Ha.
  - eexists. split; [done|]. simpl. split; lia.
  - rewrite place_all_cons.
    destruct (place_ship_exit rnd 2001 sz len a k b) as (r1 & -> & Hr1 & Hs1);
      [lia..|].
    destruct r1 as [a1 k1 b1|a1 k1 b1|e]; [by eexists; split_and!| |
                                            by eexists; split_and!].
    cbn [exit_within placed_ships] in Hr1, Hs1.
    destruct (IH a1 k1 b1) as (r & -> & Hr & Hs); [lia|].
    exists r. split; [done|].
    destruct r as [a' k' ?|a' k' ?|]; cbn [exit_within placed_ships] in *;
      rewrite ?length_cons; lia.
Qed.

Lemma place_all_no_crash rnd sz lengths a k b r :
  0 ≤ sz → Forall (λ len, len ≤ sz) lengths →
  place_all rnd sz lengths a k b = Some r → no_crash r.
Proof.
  intros Hsz Hl. revert a k b.
  induction Hl as [|len rest Hlen _ IH]; intros a k b.
  - by intros [= <-].
  - rewrite place_all_cons.
    destruct (place_ship rnd 2001 sz len a k b) as [r1|] eqn:E; [|done].
    pose proof (place_ship_no_crash _ _ _ _ _ _ _ _ Hsz Hlen E) as Hn.
    destruct r1; try done; [by intros [= <-]|apply IH].
Qed.

(** Every length of the catalog fits the range [randint] is asked for. *)
Lemma catalog_fits self_size :
  2 ≤ self_size → Forall (λ len, len ≤ self_size - 1) (catalog self_size).
Proof.
  intros Hs. unfold catalog. case_bool_decide as Hlt.
  - assert (self_size = 2 ∨ self_size = 3 ∨ self_size = 4 ∨ self_size = 5
            ∨ self_size = 6 ∨ self_size = 7 ∨ self_size = 8
            ∨ self_size = 9) as Hcases by lia.
    repeat destruct Hcases as [->|Hcases]; try subst self_size;
      vm_compute; repeat constructor; discriminate.
  - simpl. unfold ships_list. repeat constructor; lia.
Qed.

Lemma random_board_after_failures rnd n self_size hide k k1 :
  after_failures rnd n self_size hide k = Some k1 →
  random_board rnd n self_size hide k = None ∧
  ∀ fuel, random_board rnd (n + fuel) self_size hide k
          = random_board rnd fuel self_size hide k1.
Proof.
  revert k. induction n as [|n IH]; intros k; simpl.
  - by intros [= ->].
  - destruct (random_place rnd self_size hide k)
      as [[k' [e|[] b]]|]; try done.
    apply IH.
Qed.

(** With [lowest] every ship is sampled in the corner: the first is placed
    and the pass fails after 2000 attempts.  With [scattered] the pass
    places the seven ships of the size 6 in 31 attempts. *)
Example random_place_runs :
  (∃ b, random_place lowest 6 false 0
        = Some ((3 * 2000)%nat, PassDone false b)
        ∧ length (ships b) = 1%nat) ∧
  (∃ b, random_place scattered 6 false 0 = Some (93%nat, PassDone true b)
        ∧ length (ships b) = 7%nat ∧ count b = 0) ∧
  random_board lowest 1 6 false 0 = None ∧
  random_board scattered 1 6 false 0
  = (λ r, (r.1, inr match r.2 with
                    | PassDone _ b => b
                    | PassError _ => board6
                    end))
    <$> random_place scattered 6 false 0.
Proof.
  split_and!.
  - eexists. split; [by vm_compute|by vm_compute].
  - eexists. split; [by vm_compute|by vm_compute].
  - by vm_compute.
  - by vm_compute.
Qed.

(** C8: a placement pass returns.  It makes at most 2000 sampling attempts
    (three calls of [randint] each): the counter it checks is the one
    counter of the pass, carried from each ship to the next, and whatever
    the catalog, the exit of the loops leaves it at 2000 or less on success
    and at 2001 on failure.  A failing pass has used all 2000 attempts; a
    successful one returns a board with the occupancy list cleared and one
    ship per entry of the catalog; from size 2 on nothing else can happen.
    [random_board] runs pass after pass, each from a new board: while the
    passes fail it has no answer, and it answers with the board of the first
    pass that succeeds. *)
Theorem random_place_shared_budget rnd self_size hide k :
  (∃ k' r,
     random_place rnd self_size hide k = Some (k', r) ∧
     (k ≤ k' ≤ k + 3 * 2000)%nat ∧
     (∀ b, r = PassDone false b → k' = (k + 3 * 2000)%nat) ∧
     (∀ b, r = PassDone true b →
        occupy_cells b = [] ∧
        length (ships b) = length (catalog self_size)) ∧
     (2 ≤ self_size → ∀ e, r ≠ PassError e)) ∧
  (∀ lengths a k0 b,
     0 ≤ a ≤ 2000 →
     ∃ r, place_all rnd (self_size - 1) lengths a k0 b = Some r ∧
          exit_within a k0 r) ∧
  (∀ n k1,
     after_failures rnd n self_size hide k = Some k1 →
     random_board rnd n self_size hide k = None ∧
     ∀ k2 b,
       random_place rnd self_size hide k1 = Some (k2, PassDone true b) →
       ∀ fuel, (n < fuel)%nat →
         random_board rnd fuel self_size hide k = Some (k2, inr b)).
Proof.
  split_and!.
  - unfold random_place. rewrite Board_init_Return.
    set (b0 := mkBoard _ _ _ _ _ _).
    destruct (place_all_exit rnd (self_size - 1) (catalog self_size) 0 k b0)
      as (r & Hr & Hex & Hsh); [lia|].
    pose proof (place_all_no_crash rnd (self_size - 1) (catalog self_size)
                  0 k b0 r) as Hnc.
    rewrite Hr. destruct r as [a' k' b'|a' k' b'|e];
      cbn [exit_within placed_ships] in Hex, Hsh.
    + eexists _, _. split; [done|]. split_and!; [lia|lia|..|done|done].
      intros b [= <-]. lia.
    + eexists _, _. split; [done|]. split_and!; [lia|lia|done| |done].
      intros b [= <-]. split; [done|]. simpl. by rewrite Hsh.
    + eexists _, _. split; [done|]. split_and!; [lia|lia|done|done|].
      intros Hs e' _. apply Hnc; [lia| |done]. by apply catalog_fits.
  - intros lengths a k0 b Ha.
    destruct (place_all_exit rnd (self_size - 1) lengths a k0 b)
      as (r & Hr & Hex & _); [done|]. by exists r.
  - intros n k1 Hn.
    destruct (random_board_after_failures rnd n self_size hide k k1 Hn)
      as [Hnone Hrest].
    split; [done|]. intros k2 b Hpass fuel Hfuel.
    replace fuel with (n + S (fuel - S n))%nat by lia.
    rewrite Hrest. simpl. by rewrite Hpass.
Qed.

Lemma random_place_shared_budget_witness :
  (∃ k' r,
     random_place lowest 6 false 0 = Some (k', r) ∧
     (0 ≤ k' ≤ 0 + 3 * 2000)%nat ∧
     (∀ b, r = PassDone false b → k' = (0 + 3 * 2000)%nat) ∧
     (∀ b, r = PassDone true b →
        occupy_cells b = [] ∧ length (ships b) = length (catalog 6)) ∧
     (2 ≤ 6 → ∀ e, r ≠ PassError e)) ∧
  (∀ lengths a k0 b,
     0 ≤ a ≤ 2000 →
     ∃ r, place_all lowest (6 - 1) lengths a k0 b = Some r ∧
          exit_within a k0 r) ∧
  (∀ n k1,
     after_failures lowest n 6 false 0 = Some k1 →
     random_board lowest n 6 false 0 = None ∧
     ∀ k2 b,
       random_place lowest 6 false k1 = Some (k2, PassDone true b) →
       ∀ fuel, (n < fuel)%nat →
         random_board lowest fuel 6 false 0 = Some (k2, inr b)).
Proof. apply (random_place_shared_budget lowest 6 false 0). Defined.

End SeaBattle_facts.

Module SeaBattle_fleet_facts.
Import SeaBattle SeaBattle_facts.

(** ** Ships and their cells *)

Lemma elem_of_cells ship c :
  c ∈ cells ship ↔
  ∃ i, 0 ≤ i < ship_length ship ∧
       c = if bool_decide (orientation ship ≠ 0)
           then mkCell (row (coord ship) + i) (column (coord ship))
           else mkCell (row (coord ship)) (column (coord ship) + i).
Proof.
  unfold cells. rewrite list_elem_of_fmap. split.
  - intros (i & -> & Hi). apply elem_of_seqZ in Hi. exists i. split; [lia|done].
  - intros (i & Hi & ->). exists i. split; [done|]. apply elem_of_seqZ. lia.
Qed.

Lemma cells_NoDup ship : NoDup (cells ship).
Proof.
  unfold cells. apply NoDup_fmap_2; [|apply NoDup_seqZ].
  intros i j. case_bool_decide; intros [= E]; lia.
Qed.

Lemma cells_set_health ship h : cells (set_health ship h) = cells ship.
Proof. done. Qed.

(** X10: the cells of a ship are as many as its length (none when the length
    is not positive), all different, and [hit_check] accepts exactly the
    cells of the row, or of the column when the orientation is not 0, that
    start at the coordinate of the ship and go on for its length. *)
Theorem cells_straight ship :
  length (cells ship) = Z.to_nat (ship_length ship) ∧
  NoDup (cells ship) ∧
  ∀ c, hit_check ship c = true ↔
       if decide (orientation ship = 0)
       then row c = row (coord ship) ∧
            column (coord ship) ≤ column c
              < column (coord ship) + ship_length ship
       else column c = column (coord ship) ∧
            row (coord ship) ≤ row c < row (coord ship) + ship_length ship.
Proof.
  split_and!.
  - unfold cells. by rewrite length_fmap, length_seqZ.
  - apply cells_NoDup.
  - intros [r c]. unfold hit_check. rewrite bool_decide_eq_true, elem_of_cells.
    simpl. case_decide as Ho.
    + rewrite bool_decide_eq_false_2 by lia. split.
      * intros (i & Hi & [= -> ->]). lia.
      * intros [-> Hc]. exists (c - column (coord ship)).
        split; [lia|]. f_equal. lia.
    + rewrite bool_decide_eq_true_2 by done. split.
      * intros (i & Hi & [= -> ->]). lia.
      * intros [-> Hr]. exists (r - row (coord ship)).
        split; [lia|]. f_equal. lia.
Qed.

(** ** Ships do not touch *)

Lemma near_neighbour c1 c2 :
  near c1 c2 ↔ ∃ d, d ∈ around_ship ∧ c2 = neighbour c1 d.
Proof.
  destruct c1 as [r1 k1], c2 as [r2 k2]. unfold near, neighbour. simpl. split.
  - intros [Hr Hc]. exists (r2 - r1, k2 - k1). split.
    + assert (r2 - r1 = -1 ∨ r2 - r1 = 0 ∨ r2 - r1 = 1) as Hr' by lia.
      assert (k2 - k1 = -1 ∨ k2 - k1 = 0 ∨ k2 - k1 = 1) as Hc' by lia.
      destruct Hr' as [->|[->| ->]], Hc' as [->|[->| ->]]; compute_done.
    + simpl. f_equal; lia.
  - intros ([dr dc] & Hd & [= -> ->]). simpl.
    unfold around_ship in Hd. rewrite !elem_of_cons, elem_of_nil in Hd.
    destruct Hd as [[= -> ->]|[[= -> ->]|[[= -> ->]|[[= -> ->]|[[= -> ->]|
      [[= -> ->]|[[= -> ->]|[[= -> ->]|[[= -> ->]|[]]]]]]]]]]; lia.
Qed.

Lemma near_sym c1 c2 : near c1 c2 → near c2 c1.
Proof. unfold near. lia. Qed.

Lemma apart_sym l1 l2 : apart l1 l2 → apart l2 l1.
Proof. intros H c1 c2 H1 H2 Hn. by apply (H c2 c1 H2 H1), near_sym. Qed.

Lemma separated_snoc ls l :
  separated (ls ++ [l]) ↔ separated ls ∧ Forall (λ l', apart l' l) ls.
Proof.
  induction ls as [|l0 ls IH]; simpl.
  - split; [by intros _; split|by intros _; split].
  - rewrite Forall_app, Forall_singleton, Forall_cons, IH. tauto.
Qed.

Lemma separated_middle l1 l l2 :
  separated (l1 ++ l :: l2) → Forall (apart l) l1 ∧ Forall (apart l) l2.
Proof.
  induction l1 as [|l0 l1 IH]; simpl.
  - intros [H _]. by split.
  - intros [H0 H]. destruct (IH H) as [H1 H2]. split; [|done].
    constructor; [|done]. apply apart_sym.
    apply Forall_app in H0 as [_ H0]. by apply Forall_cons in H0 as [H0 _].
Qed.

Lemma separated_lookup ls i j l1 l2 :
  separated ls → ls !! i = Some l1 → ls !! j = Some l2 → i ≠ j →
  apart l1 l2.
Proof.
  revert i j. induction ls as [|l ls IH]; intros i j Hs Hi Hj Hij; [done|].
  destruct Hs as [Hl Hs]. rewrite Forall_forall in Hl.
  destruct i as [|i], j as [|j]; simpl in Hi, Hj; [done| | |].
  - injection Hi as <-. eapply Hl, list_elem_of_lookup_2, Hj.
  - injection Hj as <-. apply apart_sym.
    eapply Hl, list_elem_of_lookup_2, Hi.
  - eapply (IH i j); eauto.
Qed.

Lemma add_ship_ships ship b :
  placeable b ship → ships (add_ship ship b).1 = ships b ++ [ship].
Proof.
  intros Hp. rewrite (add_ship_accepted _ _ Hp). simpl.
  by destruct (aureole_fields ship false
    (set_ships
       (foldl (place_cell (if hide b then SBlank else SShip)) b (cells ship))
       (ships b ++ [ship]))) as (_ & _ & _ & ->).
Qed.

Lemma add_ship_size ship b : size (add_ship ship b).1 = size b.
Proof. by destruct (add_ship_fields ship b) as (-> & _). Qed.

Lemma add_ship_keeps_fleet ship b :
  placement_inv b → fleet_ok b → fleet_ok (add_ship ship b).1.
Proof.
  intros Hinv [Hin Hsep]. destruct (decide (placeable b ship)) as [Hp|Hp];
    [|by rewrite (add_ship_rejected _ _ Hp)].
  unfold fleet_ok. rewrite (add_ship_ships _ _ Hp). split.
  - apply Forall_app. split.
    + eapply Forall_impl; [exact Hin|]. intros s Hs.
      eapply Forall_impl; [exact Hs|]. intros c Hc.
      by apply (in_bounds_size b); [apply add_ship_size|].
    + apply Forall_singleton. eapply Forall_impl; [exact Hp|].
      intros c [Hc _]. by apply (in_bounds_size b); [apply add_ship_size|].
  - rewrite fmap_app. simpl. apply separated_snoc. split; [done|].
    apply Forall_fmap, Forall_forall. intros s Hs c1 c2 H1 H2 Hn. simpl in *.
    unfold placeable in Hp. rewrite Forall_forall in Hp.
    destruct (Hp c2 H2) as [Hb Hocc]. apply Hocc.
    unfold placement_inv in Hinv. rewrite Forall_forall in Hinv.
    destruct (Hinv s Hs) as [_ Hhalo]. apply Hhalo; [|done].
    apply near_neighbour in Hn as (d & Hd & ->).
    apply elem_of_halo_cells. by exists c1, d.
Qed.

Lemma add_ships_snoc b attempts ship :
  add_ships b (attempts ++ [ship])
  = (add_ship ship (add_ships b attempts)).1.
Proof. unfold add_ships. by rewrite foldl_app. Qed.

Lemma add_ships_inv b attempts :
  placement_inv b → fleet_ok b →
  placement_inv (add_ships b attempts) ∧ fleet_ok (add_ships b attempts).
Proof.
  intros Hinv Hok. induction attempts as [|ship attempts [IH1 IH2]]
    using rev_ind; [done|].
  rewrite add_ships_snoc. split.
  - by apply add_ship_keeps_inv.
  - by apply add_ship_keeps_fleet.
Qed.

Lemma new_board_inv hide size :
  placement_inv (new_board hide size) ∧ fleet_ok (new_board hide size).
Proof. split; [by constructor|]. split; [by constructor|done]. Qed.

(** X11: however many ships are offered to a new board, accepted or turned
    down, the ships on it lie within the board and no two of them touch:
    a cell of one ship is never the same as, beside or diagonal to a cell
    of another ship. *)
Theorem placed_ships_apart hide size attempts :
  let b := add_ships (new_board hide size) attempts in
  (∀ s c, s ∈ ships b → c ∈ cells s → in_bounds b c) ∧
  (∀ i j s1 s2 c1 c2,
     ships b !! i = Some s1 → ships b !! j = Some s2 → i ≠ j →
     c1 ∈ cells s1 → c2 ∈ cells s2 → ¬ near c1 c2).
Proof.
  intros b. destruct (new_board_inv hide size) as [H1 H2].
  destruct (add_ships_inv _ attempts H1 H2) as [_ [Hin Hsep]]. fold b in Hin, Hsep.
  split.
  - intros s c Hs Hc. rewrite Forall_forall in Hin.
    specialize (Hin s Hs). rewrite Forall_forall in Hin. by apply Hin.
  - intros i j s1 s2 c1 c2 Hi Hj Hij Hc1 Hc2.
    eapply (separated_lookup (cells <$> ships b) i j); eauto.
    + by rewrite list_lookup_fmap, Hi.
    + by rewrite list_lookup_fmap, Hj.
Qed.

(** ** What the mask shows after the placement *)

Lemma add_ship_mask ship b n :
  board_wf b → placeable b ship → in_bounds b n →
  mask_get (mask (add_ship ship b).1) n
  = if decide (n ∈ cells ship)
    then Some (if hide b then SBlank else SShip)
    else mask_get (mask b) n.
Proof.
  intros Hwf Hp Hn. rewrite (add_ship_accepted _ _ Hp). simpl.
  rewrite aureole_flat, halo_fold_mask_hidden. simpl.
  apply place_fold_mask; [done| |done].
  eapply Forall_impl; [exact Hp|]. by intros c [? _].
Qed.

Lemma add_ships_fields b attempts :
  size (add_ships b attempts) = size b ∧
  hide (add_ships b attempts) = hide b ∧
  count (add_ships b attempts) = count b.
Proof.
  induction attempts as [|ship attempts (IH1 & IH2 & IH3)] using rev_ind;
    [done|].
  rewrite add_ships_snoc.
  destruct (add_ship_fields ship (add_ships b attempts)) as (-> & -> & ->).
  done.
Qed.

Lemma add_ships_wf b attempts : board_wf b → board_wf (add_ships b attempts).
Proof.
  intros Hwf. induction attempts as [|ship attempts IH] using rev_ind;
    [done|].
  rewrite add_ships_snoc. by apply add_ship_wf.
Qed.

Lemma new_board_wf hide size : board_wf (new_board hide size).
Proof.
  split; simpl; [by rewrite length_replicate|].
  apply Forall_replicate. by rewrite length_replicate.
Qed.

Lemma new_board_mask hide size n :
  in_bounds (new_board hide size) n →
  mask_get (mask (new_board hide size)) n = Some SBlank.
Proof.
  intros [Hr Hc]. simpl in *. unfold mask_get.
  rewrite lookup_replicate_2 by lia. simpl.
  by rewrite lookup_replicate_2 by lia.
Qed.

Lemma add_ships_mask hide size attempts n :
  let b := add_ships (new_board hide size) attempts in
  in_bounds b n →
  mask_get (mask b) n
  = Some (if hide then SBlank
          else if decide (Exists (λ s, n ∈ cells s) (ships b)) then SShip
          else SBlank).
Proof.
  cbv zeta. induction attempts as [|ship attempts IH] using rev_ind.
  - intros Hn. unfold add_ships. simpl foldl.
    rewrite (new_board_mask _ _ _ Hn).
    destruct hide; [done|]. case_decide as E; [|done].
    by apply Exists_nil in E.
  - rewrite add_ships_snoc.
    assert (hide = SeaBattle.hide (add_ships (new_board hide size) attempts))
      as Hh
      by by destruct (add_ships_fields (new_board hide size) attempts)
           as (_ & -> & _).
    set (b := add_ships (new_board hide size) attempts) in *.
    intros Hn. apply (in_bounds_size b) in Hn; [|apply add_ship_size].
    destruct (decide (placeable b ship)) as [Hp|Hp];
      [|rewrite (add_ship_rejected _ _ Hp); by apply IH].
    rewrite add_ship_mask; [|by apply add_ships_wf, new_board_wf|done..].
    rewrite (add_ship_ships _ _ Hp). rewrite (IH Hn), <- Hh.
    destruct hide; [by case_decide|].
    destruct (decide (n ∈ cells ship)) as [Hc|Hc].
    + rewrite decide_True; [done|]. apply Exists_app. right.
      by apply Exists_cons_hd.
    + destruct (decide (Exists (λ s, n ∈ cells s) (ships b))) as [E|E].
      * rewrite decide_True; [done|]. apply Exists_app. by left.
      * rewrite decide_False; [done|]. rewrite Exists_app.
        intros [?|[?|[]%Exists_nil]%Exists_cons]; done.
Qed.

(** X12: after any run of placements on a new board, a cell of the board
    shows a ship exactly when the board is not hidden and the cell belongs
    to a ship on it; every other cell, and every cell of a hidden board, is
    blank.  The cells kept free around the ships are not drawn. *)
Theorem placement_mask hide size attempts n :
  let b := add_ships (new_board hide size) attempts in
  in_bounds b n →
  mask_get (mask b) n
  = Some (if hide then SBlank
          else if decide (Exists (λ s, n ∈ cells s) (ships b)) then SShip
          else SBlank).
Proof. apply add_ships_mask. Qed.

Lemma placement_mask_witness :
  mask_get (mask (add_ships (new_board false 6) [corner_ship; near_ship]))
    (mkCell 0 1)
  = Some (if false then SBlank
          else if decide (Exists (λ s, mkCell 0 1 ∈ cells s)
                            (ships (add_ships (new_board false 6)
                                      [corner_ship; near_ship])))
               then SShip
          else SBlank).
Proof.
  apply (placement_mask false 6 [corner_ship; near_ship] (mkCell 0 1)).
  by vm_compute.
Defined.

(** ** Shots *)

Lemma find_ship_spec cell i ss :
  match find_ship cell i ss with
  | Some (j, ship) =>
      ∃ before after, ss = before ++ ship :: after ∧
        j = (i + length before)%nat ∧
        Forall (λ s, cell ∉ cells s) before ∧ cell ∈ cells ship
  | None => Forall (λ s, cell ∉ cells s) ss
  end.
Proof.
  revert i. induction ss as [|s ss IH]; intros i; simpl; [done|].
  case_bool_decide as Hc.
  - exists [], ss. split_and!; [done|simpl; lia|done|done].
  - specialize (IH (S i)).
    destruct (find_ship cell (S i) ss) as [[j ship]|].
    + destruct IH as (before & after & -> & -> & Hb & Hs).
      exists (s :: before), after.
      split_and!; [done|simpl; lia|by constructor|done].
    + by constructor.
Qed.

Lemma shot_outside b cell :
  ¬ in_bounds b cell → shot cell b = (b, [], Raise BoardOutsideException).
Proof.
  intros H. apply outside_board_true in H. unfold shot. by rewrite H.
Qed.

Lemma shot_occupied b cell :
  in_bounds b cell → cell ∈ occupy_cells b →
  shot cell b = (b, [], Raise OccupiedCellException).
Proof.
  intros H Hocc. apply outside_board_false in H. unfold shot. rewrite H.
  by rewrite bool_decide_eq_true_2.
Qed.

(** The four ways a shot can go. *)
Lemma shot_cases b cell :
  (¬ in_bounds b cell ∧ shot cell b = (b, [], Raise BoardOutsideException))
  ∨ (in_bounds b cell ∧ cell ∈ occupy_cells b ∧
     shot cell b = (b, [], Raise OccupiedCellException))
  ∨ (in_bounds b cell ∧ (cell ∉ occupy_cells b) ∧
     Forall (λ s, cell ∉ cells s) (ships b) ∧
     shot cell b =
     (set_mask (set_occupy_cells b (occupy_cells b ++ [cell]))
        (mask_set (mask b) cell SMiss),
      [MsgMiss], Return false))
  ∨ (in_bounds b cell ∧ (cell ∉ occupy_cells b) ∧
     ∃ before ship after,
       ships b = before ++ ship :: after ∧
       Forall (λ s, cell ∉ cells s) before ∧ cell ∈ cells ship ∧
       shot cell b =
       let hit := set_health ship (health ship - 1) in
       if bool_decide (health ship - 1 = 0) then
         (aureole hit true
            (set_count (hit_board b cell before hit after) (count b + 1)),
          [MsgHit; MsgDestroyed], Return true)
       else (hit_board b cell before hit after, [MsgHit; MsgWounded],
             Return true)).
Proof.
  destruct (decide (in_bounds b cell)) as [Hin|Hin];
    [|left; split; [done|by apply shot_outside]].
  destruct (decide (cell ∈ occupy_cells b)) as [Hocc|Hocc];
    [right; left; split_and!; [done..|by apply shot_occupied]|].
  right. right. pose proof (find_ship_spec cell 0 (ships b)) as Hf.
  destruct (find_ship cell 0 (ships b)) as [[j ship]|].
  - right. destruct Hf as (before & after & Hs & _ & Hb & Hc).
    split_and!; [done..|]. exists before, ship, after.
    split_and!; [done..|]. by apply shot_ship_unfold.
  - left. split_and!; [done..|]. by apply shot_miss.
Qed.

(** What a shot that goes through leaves behind. *)
Lemma shot_through b cell :
  in_bounds b cell → cell ∉ occupy_cells b →
  ∃ b' said,
    shot cell b
    = (b', said,
       Return (bool_decide (Exists (λ s, cell ∈ cells s) (ships b)))) ∧
    size b' = size b ∧ cell ∈ occupy_cells b'.
Proof.
  intros Hin Hocc.
  destruct (shot_cases b cell)
    as [[? _]|[(_ & ? & _)|[(_ & _ & Hm & ->)|
        (_ & _ & before & ship & after & Hs & Hb & Hc & ->)]]]; [done..| |].
  - rewrite bool_decide_eq_false_2 by (by rewrite <- Forall_Exists_neg).
    eexists _, _. split; [reflexivity|]. split; [done|simpl; list_in].
  - assert (bool_decide (Exists (λ s, cell ∈ cells s) (ships b)) = true)
      as ->.
    { apply bool_decide_eq_true_2. rewrite Hs. apply Exists_app. right.
      by apply Exists_cons_hd. }
    cbv zeta. case_bool_decide.
    + eexists _, _. split; [reflexivity|]. split.
      * by destruct (aureole_fields (set_health ship (health ship - 1)) true
          (set_count
             (hit_board b cell before (set_health ship (health ship - 1))
                after) (count b + 1))) as (-> & _).
      * apply aureole_occupy. left. simpl. list_in.
    + eexists _, _. split; [reflexivity|]. split; [done|simpl; list_in].
Qed.

(** X13: a shot outside the board raises [BoardOutsideException], also when
    the cell is in the occupancy list; a shot at a cell of the occupancy
    list raises [OccupiedCellException]; both leave the board as it was and
    print nothing.  Every other shot returns, with [True] exactly when some
    ship has the cell, and a second shot at the same cell is then turned
    down with [OccupiedCellException]. *)
Theorem shot_refuses_or_marks b cell :
  (¬ in_bounds b cell → shot cell b = (b, [], Raise BoardOutsideException)) ∧
  (in_bounds b cell → cell ∈ occupy_cells b →
     shot cell b = (b, [], Raise OccupiedCellException)) ∧
  (in_bounds b cell → cell ∉ occupy_cells b →
     ∃ b' said,
       shot cell b
       = (b', said,
          Return (bool_decide (Exists (λ s, cell ∈ cells s) (ships b)))) ∧
       shot cell b' = (b', [], Raise OccupiedCellException)).
Proof.
  split_and!; [apply shot_outside|apply shot_occupied|].
  intros Hin Hocc.
  destruct (shot_through b cell Hin Hocc) as (b' & said & Hs & Hsz & Hc).
  exists b', said. split; [done|]. apply shot_occupied; [|done].
  by apply (in_bounds_size b).
Qed.

(** ** The health of the ships and the counter *)

Lemma filter_occ_ext (l occ occ' : list Cell) :
  (∀ c, c ∈ l → c ∈ occ' ↔ c ∈ occ) →
  filter (λ c, c ∉ occ') l = filter (λ c, c ∉ occ) l.
Proof.
  induction l as [|a l IH]; intros H; [done|].
  rewrite !filter_cons, IH by (intros c Hc; apply H; by right).
  pose proof (H a (list_elem_of_here _ _)).
  repeat case_decide; tauto.
Qed.

Lemma filter_out_one (l occ occ' : list Cell) x :
  NoDup l → x ∈ l → x ∉ occ → (∀ c, c ∈ occ' ↔ c ∈ occ ∨ c = x) →
  length (filter (λ c, c ∉ occ) l) = S (length (filter (λ c, c ∉ occ') l)).
Proof.
  intros Hnd Hx Hocc H. induction l as [|a l IH]; [by apply elem_of_nil in Hx|].
  apply NoDup_cons in Hnd as [Ha Hnd]. rewrite !filter_cons.
  apply elem_of_cons in Hx as [->|Hx].
  - rewrite decide_True by done. rewrite decide_False by (rewrite H; tauto).
    simpl. f_equal. f_equal. symmetry. apply filter_occ_ext.
    intros c Hc. rewrite H. split; [|tauto]. intros [?| ->]; done.
  - assert (a ≠ x) by (by intros ->).
    specialize (IH Hnd Hx). pose proof (H a).
    repeat case_decide; simpl; try tauto; lia.
Qed.

Lemma unshot_other b b' s s' :
  cells s' = cells s →
  (∀ c, c ∈ cells s → c ∈ occupy_cells b' ↔ c ∈ occupy_cells b) →
  unshot b' s' = unshot b s.
Proof. intros E H. unfold unshot. rewrite E. by apply filter_occ_ext. Qed.

Lemma unshot_nil b s : unshot b s = [] ↔ sunk b s.
Proof.
  unfold unshot, sunk. induction (cells s) as [|a l IH]; [done|].
  rewrite filter_cons, Forall_cons, <- IH. case_decide; [|tauto].
  split; [done|tauto].
Qed.

Lemma dead_count (before : list Ship) (ship hit : Ship) (after : list Ship) :
  health ship ≠ 0 →
  length (filter (λ s, health s = 0) (before ++ hit :: after))
  = Nat.add (length (filter (λ s, health s = 0) (before ++ ship :: after)))
      (if decide (health hit = 0) then 1%nat else 0%nat).
Proof.
  intros Hs. rewrite !filter_app, !filter_cons, !length_app.
  rewrite (decide_False (P := health ship = 0)) by done.
  case_decide; simpl; lia.
Qed.

Lemma apart_cell l1 l2 c : apart l1 l2 → c ∈ l1 → c ∉ l2.
Proof. intros H H1 H2. apply (H c c H1 H2). unfold near. lia. Qed.

Lemma apart_halo ship l c :
  apart (cells ship) l → c ∈ l → c ∉ halo_cells ship.
Proof.
  intros H Hc (c0 & d & Hc0 & Hd & ->)%elem_of_halo_cells.
  apply (H c0 _ Hc0 Hc). apply near_neighbour. by exists d.
Qed.

Lemma battle_inv_hit_board b cell before ship after :
  battle_inv b → cell ∉ occupy_cells b →
  ships b = before ++ ship :: after → cell ∈ cells ship →
  let hit := set_health ship (health ship - 1) in
  battle_inv
    (set_count (hit_board b cell before hit after)
       (count b + if decide (health hit = 0) then 1 else 0)).
Proof.
  intros [Hsep Hh Hcnt] Hocc Hs Hc hit.
  rewrite Hs in Hsep, Hh, Hcnt. rewrite fmap_app, fmap_cons in Hsep.
  destruct (separated_middle _ _ _ Hsep) as [Hb Ha].
  rewrite Forall_fmap in Hb, Ha.
  apply Forall_app in Hh as [Hhb Hh]. apply Forall_cons in Hh as [Hhs Hha].
  assert (∀ l, Forall (apart (cells ship) ∘ cells) l →
               Forall (λ s, health s = Z.of_nat (length (unshot b s))) l →
               Forall (λ s, health s = Z.of_nat
                 (length (unshot
                    (set_count (hit_board b cell before hit after)
                       (count b + if decide (health hit = 0) then 1 else 0))
                    s))) l) as Hothers.
  { intros l Hl Hhl. rewrite Forall_forall in Hl, Hhl. apply Forall_forall.
    intros s Hsl. rewrite (Hhl s Hsl). do 2 f_equal. symmetry.
    apply unshot_other; [done|]. intros c Hcs. simpl.
    rewrite elem_of_app, list_elem_of_singleton. split; [|tauto].
    intros [?| ->]; [done|]. by destruct (apart_cell _ _ _ (Hl s Hsl) Hc). }
  assert (length (unshot b ship)
          = S (length (unshot
                 (set_count (hit_board b cell before hit after)
                    (count b + if decide (health hit = 0) then 1 else 0))
                 hit))) as Hone.
  { unfold unshot. apply (filter_out_one _ _ _ cell);
      [apply cells_NoDup|done..|].
    intros c. simpl. by rewrite elem_of_app, list_elem_of_singleton. }
  constructor.
  - simpl. by rewrite fmap_app, fmap_cons.
  - cbn [ships set_count hit_board]. apply Forall_app. split; [by apply Hothers|].
    apply Forall_cons. split; [|by apply Hothers].
    transitivity (health ship - 1); [done|]. rewrite Hhs, Hone. lia.
  - cbn [ships count set_count hit_board].
    rewrite (dead_count before ship hit after) by lia.
    rewrite Nat2Z.inj_add, <- Hcnt. by case_decide.
Qed.

Lemma battle_inv_aureole b before ship after v :
  battle_inv b → ships b = before ++ ship :: after → health ship = 0 →
  battle_inv (aureole ship v b).
Proof.
  intros [Hsep Hh Hcnt] Hs H0.
  destruct (aureole_fields ship v b) as (Hsz & _ & Hc & Hss).
  assert (∀ s, s ∈ ships b → unshot (aureole ship v b) s = unshot b s)
    as Hsame.
  { intros s Hin. apply unshot_other; [done|]. intros c Hcs.
    rewrite aureole_occupy. split; [|tauto]. intros [?|[Hhalo _]]; [done|].
    rewrite Hs in Hin, Hsep, Hh. rewrite fmap_app, fmap_cons in Hsep.
    destruct (separated_middle _ _ _ Hsep) as [Hb Ha].
    rewrite Forall_fmap, Forall_forall in Hb, Ha.
    apply elem_of_app in Hin as [Hin|[->|Hin]%elem_of_cons].
    - by destruct (apart_halo _ _ _ (Hb s Hin) Hcs).
    - apply Forall_app in Hh as [_ Hh]. apply Forall_cons in Hh as [Hh _].
      assert (unshot b ship = []) as Hn
        by (apply length_zero_iff_nil; lia).
      apply unshot_nil in Hn. unfold sunk in Hn.
      rewrite Forall_forall in Hn. by apply Hn.
    - by destruct (apart_halo _ _ _ (Ha s Hin) Hcs). }
  constructor.
  - by rewrite Hss.
  - rewrite Hss. rewrite Forall_forall in Hh. apply Forall_forall.
    intros s Hin. rewrite (Hsame s Hin). by apply Hh.
  - by rewrite Hss, Hc.
Qed.

Lemma battle_inv_shot cell b : battle_inv b → battle_inv (shot cell b).1.1.
Proof.
  intros Hinv.
  destruct (shot_cases b cell)
    as [[_ ->]|[(_ & _ & ->)|[(Hin & Hocc & Hm & ->)|
        (Hin & Hocc & before & ship & after & Hs & Hb & Hc & ->)]]];
    [done..| |].
  - destruct Hinv as [Hsep Hh Hcnt]. constructor; [done| |done].
    simpl. rewrite Forall_forall in Hh, Hm. apply Forall_forall.
    intros s Hin'. rewrite (Hh s Hin'). do 2 f_equal. symmetry.
    apply unshot_other; [done|]. intros c Hcs. simpl.
    rewrite elem_of_app, list_elem_of_singleton. split; [|tauto].
    intros [?| ->]; [done|]. by destruct (Hm s Hin').
  - pose proof (battle_inv_hit_board b cell before ship after
                  Hinv Hocc Hs Hc) as Hhit.
    cbv zeta in *. case_bool_decide as E; cbn [fst].
    + rewrite decide_True in Hhit by done.
      by apply (battle_inv_aureole _ before _ after).
    + rewrite decide_False in Hhit by done.
      by replace (count b + 0) with (count b) in Hhit by lia.
Qed.

(** ** The fleet a placement pass returns *)

Lemma sample_ship_init rnd k sz len ship :
  sample_ship rnd k sz len = Some ship →
  ship_length ship = len ∧ health ship = len.
Proof.
  unfold sample_ship. destruct (randint rnd k 0 1) as [d|]; [|done]. simpl.
  destruct (bool_decide (d ≠ 0)).
  - destruct (randint rnd (k + 1) 0 sz); [|done]. simpl.
    destruct (randint rnd (k + 2) 0 (sz - len)); [|done]. simpl.
    by intros [= <-].
  - destruct (randint rnd (k + 1) 0 (sz - len)); [|done]. simpl.
    destruct (randint rnd (k + 2) 0 sz); [|done]. simpl.
    by intros [= <-].
Qed.

Lemma place_ship_placed rnd fuel sz len a k b a' k' b' :
  place_ship rnd fuel sz len a k b = Some (Placed a' k' b') →
  ∃ ship, ship_length ship = len ∧ health ship = len ∧
          placeable b ship ∧ b' = (add_ship ship b).1.
Proof.
  revert a k b. induction fuel as [|fuel IH]; intros a k b; [done|].
  rewrite place_ship_S. case_bool_decide; [done|].
  destruct (sample_ship rnd k sz len) as [ship|] eqn:Es; [|done].
  destruct (decide (placeable b ship)) as [Hp|Hp].
  - destruct (add_ship ship b) as [b1 [[]|e]] eqn:Ea.
    + intros [= _ _ <-]. exists ship.
      destruct (sample_ship_init _ _ _ _ _ Es).
      split_and!; [done..|by rewrite Ea].
    + rewrite (add_ship_accepted _ _ Hp) in Ea. by injection Ea.
  - rewrite (add_ship_rejected _ _ Hp). apply IH.
Qed.

Lemma place_all_placed rnd sz lens a k b a' k' b' :
  place_all rnd sz lens a k b = Some (Placed a' k' b') →
  ∃ new, b' = add_ships b new ∧ ships b' = ships b ++ new ∧
         ship_length <$> new = lens ∧
         Forall (λ s, health s = ship_length s) new.
Proof.
  revert a k b. induction lens as [|len rest IH]; intros a k b.
  - intros [= _ _ <-]. exists []. by rewrite app_nil_r.
  - rewrite place_all_cons.
    destruct (place_ship rnd 2001 sz len a k b)
      as [[a1 k1 b1|a1 k1 b1|e]|] eqn:E; [done| |done|done].
    intros H. apply IH in H as (new & -> & Hs & Hl & Hh).
    apply place_ship_placed in E as (ship & Hlen & Hhe & Hp & ->).
    exists (ship :: new). split_and!.
    + done.
    + rewrite Hs, (add_ship_ships _ _ Hp). by rewrite <- app_assoc.
    + by rewrite fmap_cons, Hlen, Hl.
    + constructor; [lia|done].
Qed.

Lemma random_place_placed rnd self_size hide k k' b :
  random_place rnd self_size hide k = Some (k', PassDone true b) →
  ∃ new, b = begin (add_ships (new_board hide self_size) new) ∧
         ships b = new ∧ ship_length <$> new = catalog self_size ∧
         Forall (λ s, health s = ship_length s) new.
Proof.
  unfold random_place. rewrite Board_init_Return.
  fold (new_board hide self_size).
  destruct (place_all rnd (self_size - 1) (catalog self_size) 0 k
              (new_board hide self_size))
    as [[a1 k1 b1|a1 k1 b1|e]|] eqn:E; [done| |done|done].
  intros [= _ <-]. apply place_all_placed in E as (new & -> & Hs & Hl & Hh).
  exists new. by split_and!.
Qed.

Lemma catalog_positive self_size : Forall (λ len, 1 ≤ len) (catalog self_size).
Proof.
  unfold catalog. apply Forall_drop. unfold ships_list.
  repeat constructor; lia.
Qed.

Lemma unshot_begin b s :
  occupy_cells b = [] → unshot b s = cells s.
Proof.
  intros E. unfold unshot. rewrite E. induction (cells s) as [|c l IH]; [done|].
  rewrite filter_cons, IH. rewrite decide_True; [done|]. apply not_elem_of_nil.
Qed.

Lemma alive_count (l : list Ship) :
  Forall (λ s, 1 ≤ health s) l → filter (λ s, health s = 0) l = [].
Proof.
  induction 1 as [|s l Hs _ IH]; [done|].
  rewrite filter_cons, IH. by rewrite decide_False by lia.
Qed.

Lemma fleet_battle_inv b :
  separated (cells <$> ships b) → occupy_cells b = [] → count b = 0 →
  Forall (λ s, health s = ship_length s ∧ 1 ≤ ship_length s) (ships b) →
  battle_inv b.
Proof.
  intros Hsep Hocc Hc Hh. constructor; [done| |].
  - eapply Forall_impl; [exact Hh|]. intros s [-> Hl]. simpl.
    rewrite (unshot_begin _ _ Hocc). unfold cells.
    rewrite length_fmap, length_seqZ. lia.
  - rewrite alive_count, Hc; [done|].
    eapply Forall_impl; [exact Hh|]. intros s [-> Hl]. done.
Qed.

Lemma random_place_inv rnd self_size hide k k' b :
  random_place rnd self_size hide k = Some (k', PassDone true b) →
  ship_length <$> ships b = catalog self_size ∧
  Forall (λ s, health s = ship_length s) (ships b) ∧
  fleet_ok b ∧ size b = self_size ∧ SeaBattle.hide b = hide ∧
  count b = 0 ∧ occupy_cells b = [] ∧ battle_inv b.
Proof.
  intros (new & -> & Hs & Hl & Hh)%random_place_placed.
  destruct (new_board_inv hide self_size) as [H1 H2].
  destruct (add_ships_inv _ new H1 H2) as [_ Hok].
  destruct (add_ships_fields (new_board hide self_size) new)
    as (Hsz & Hhide & Hcnt).
  simpl in Hs. assert (Forall (λ s, health s = ship_length s ∧
                                    1 ≤ ship_length s) new) as Hh'.
  { pose proof (catalog_positive self_size) as Hpos. rewrite <- Hl in Hpos.
    rewrite Forall_fmap in Hpos. rewrite Forall_forall in Hh, Hpos.
    apply Forall_forall. intros s Hin. split; [by apply Hh|by apply Hpos]. }
  split_and!; simpl; try done.
  - by rewrite Hs.
  - by rewrite Hs.
  - apply fleet_battle_inv; simpl; try done; [apply Hok|by rewrite Hs].
Qed.

(** X14: the board a successful pass of [random_place] returns carries the
    ships of the catalog of its size, in the order of the catalog and each
    with its full health; they lie on the board and no two of them touch;
    the counter of destroyed ships is 0 and the occupancy list is empty. *)
Theorem random_place_fleet rnd self_size hide k k' b :
  random_place rnd self_size hide k = Some (k', PassDone true b) →
  ship_length <$> ships b = catalog self_size ∧
  Forall (λ s, health s = ship_length s) (ships b) ∧
  (∀ s c, s ∈ ships b → c ∈ cells s → in_bounds b c) ∧
  (∀ i j s1 s2 c1 c2,
     ships b !! i = Some s1 → ships b !! j = Some s2 → i ≠ j →
     c1 ∈ cells s1 → c2 ∈ cells s2 → ¬ near c1 c2) ∧
  size b = self_size ∧ SeaBattle.hide b = hide ∧
  count b = 0 ∧ occupy_cells b = [].
Proof.
  intros (Hl & Hh & [Hin Hsep] & Hsz & Hhide & Hc & Hocc & _)%random_place_inv.
  split_and!; try done.
  - intros s c Hs Hc'. rewrite Forall_forall in Hin.
    specialize (Hin s Hs). rewrite Forall_forall in Hin. by apply Hin.
  - intros i j s1 s2 c1 c2 Hi Hj Hij Hc1 Hc2.
    eapply (separated_lookup (cells <$> ships b) i j); eauto.
    + by rewrite list_lookup_fmap, Hi.
    + by rewrite list_lookup_fmap, Hj.
Qed.

Lemma random_place_fleet_witness :
  ship_length <$> ships fleet_board = catalog 6 ∧
  Forall (λ s, health s = ship_length s) (ships fleet_board) ∧
  (∀ s c, s ∈ ships fleet_board → c ∈ cells s → in_bounds fleet_board c) ∧
  (∀ i j s1 s2 c1 c2,
     ships fleet_board !! i = Some s1 → ships fleet_board !! j = Some s2 →
     i ≠ j → c1 ∈ cells s1 → c2 ∈ cells s2 → ¬ near c1 c2) ∧
  size fleet_board = 6 ∧ SeaBattle.hide fleet_board = false ∧
  count fleet_board = 0 ∧ occupy_cells fleet_board = [].
Proof.
  apply (random_place_fleet scattered 6 false 0 93 fleet_board).
  by vm_compute.
Defined.

(** ** The counter during the shooting *)

Lemma shot_cells cell b :
  cells <$> ships (shot cell b).1.1 = cells <$> ships b.
Proof.
  destruct (shot_cases b cell)
    as [[_ ->]|[(_ & _ & ->)|[(_ & _ & _ & ->)|
        (_ & _ & before & ship & after & Hs & _ & _ & ->)]]]; [done..|].
  cbv zeta. rewrite Hs. case_bool_decide; cbn [fst].
  - destruct (aureole_fields (set_health ship (health ship - 1)) true
      (set_count
         (hit_board b cell before (set_health ship (health ship - 1)) after)
         (count b + 1))) as (_ & _ & _ & ->).
    simpl. by rewrite !fmap_app, !fmap_cons.
  - simpl. by rewrite !fmap_app, !fmap_cons.
Qed.

Lemma shots_snoc b targets cell :
  shots b (targets ++ [cell]) = (shot cell (shots b targets)).1.1.
Proof. unfold shots. by rewrite foldl_app. Qed.

Lemma shots_inv b targets :
  battle_inv b →
  battle_inv (shots b targets) ∧
  cells <$> ships (shots b targets) = cells <$> ships b.
Proof.
  intros Hinv. induction targets as [|cell targets [IH1 IH2]] using rev_ind;
    [done|].
  rewrite shots_snoc. split; [by apply battle_inv_shot|].
  by rewrite shot_cells.
Qed.

Lemma filter_length_iff {A} (P Q : A → Prop) `{!∀ x, Decision (P x)}
    `{!∀ x, Decision (Q x)} (l : list A) :
  Forall (λ x, P x ↔ Q x) l → length (filter P l) = length (filter Q l).
Proof.
  induction 1 as [|x l Hx _ IH]; [done|].
  rewrite !filter_cons. repeat case_decide; simpl; try tauto; lia.
Qed.

Lemma filter_length_all {A} (P : A → Prop) `{!∀ x, Decision (P x)}
    (l : list A) :
  length (filter P l) = length l ↔ Forall P l.
Proof.
  induction l as [|x l IH]; [done|].
  rewrite filter_cons, Forall_cons, <- IH.
  pose proof (length_filter P l).
  case_decide; simpl; [|split; [intros; lia|tauto]].
  split; [intros [= ?]; by split|intros [_ ->]; done].
Qed.

Lemma battle_inv_sunk b :
  battle_inv b → count b = Z.of_nat (length (sunk_ships b)).
Proof.
  intros [_ Hh Hc]. rewrite Hc. f_equal. unfold sunk_ships.
  apply filter_length_iff. eapply Forall_impl; [exact Hh|].
  intros s Hs. simpl in Hs. rewrite <- unshot_nil, Hs.
  rewrite <- length_zero_iff_nil. lia.
Qed.

(** X15: on a board returned by a successful placement pass, after any run
    of shots (refused ones included) the ships are where they were, the
    health of every ship is the number of its cells not in the occupancy
    list, and [count] is the number of ships whose cells are all in it.  So
    [count] equals the number of ships of the catalog exactly when every
    ship is sunk; at the size 6 of the game that number is the 7 the game
    loop waits for. *)
Theorem count_counts_sunk rnd self_size hide k k' b targets :
  random_place rnd self_size hide k = Some (k', PassDone true b) →
  let b' := shots b targets in
  cells <$> ships b' = cells <$> ships b ∧
  Forall (λ s, health s = Z.of_nat (length (unshot b' s))) (ships b') ∧
  count b' = Z.of_nat (length (sunk_ships b')) ∧
  (count b' = Z.of_nat (length (catalog self_size))
   ↔ Forall (sunk b') (ships b')) ∧
  (self_size = 6 → count b' = 7 ↔ Forall (sunk b') (ships b')).
Proof.
  intros (Hl & _ & _ & _ & _ & _ & _ & Hinv)%random_place_inv b'.
  destruct (shots_inv b targets Hinv) as [Hinv' Hcells]. fold b' in Hinv', Hcells.
  pose proof (battle_inv_sunk _ Hinv') as Hcount.
  assert (length (ships b') = length (catalog self_size)) as Hlen.
  { rewrite <- Hl, length_fmap, <- (length_fmap cells (ships b)), <- Hcells.
    by rewrite length_fmap. }
  assert (count b' = Z.of_nat (length (catalog self_size))
          ↔ Forall (sunk b') (ships b')) as Hall.
  { rewrite Hcount, <- Hlen, <- filter_length_all. unfold sunk_ships.
    by rewrite Nat2Z.inj_iff. }
  split_and!; [done|by destruct Hinv'|done|done|].
  intros ->. by rewrite <- Hall.
Qed.

Lemma count_counts_sunk_witness :
  let b' := shots fleet_board [mkCell 0 0; mkCell 9 9; mkCell 0 0] in
  cells <$> ships b' = cells <$> ships fleet_board ∧
  Forall (λ s, health s = Z.of_nat (length (unshot b' s))) (ships b') ∧
  count b' = Z.of_nat (length (sunk_ships b')) ∧
  (count b' = Z.of_nat (length (catalog 6)) ↔ Forall (sunk b') (ships b')) ∧
  (6 = 6 → count b' = 7 ↔ Forall (sunk b') (ships b')).
Proof.
  apply (count_counts_sunk scattered 6 false 0 93 fleet_board
           [mkCell 0 0; mkCell 9 9; mkCell 0 0]).
  by vm_compute.
Defined.

(** ** Moves and the rounds of the game *)

Lemma move_refused b cell rest :
  ¬ in_bounds b cell ∨ cell ∈ occupy_cells b →
  move (cell :: rest) b
  = match move rest b with
    | Some (b', lines, r) => Some (b', Complaint (refusal b cell) :: lines, r)
    | None => None
    end.
Proof.
  intros H. simpl. unfold refusal.
  destruct (decide (in_bounds b cell)) as [Hin|Hin].
  - destruct H as [?|Hocc]; [done|]. rewrite (shot_occupied _ _ Hin Hocc).
    apply outside_board_false in Hin. by rewrite Hin.
  - rewrite (shot_outside _ _ Hin).
    apply outside_board_true in Hin. by rewrite Hin.
Qed.

(** X16: [Player.move] keeps asking while the coordinates it gets are off the
    board or already shot at; each such answer prints its exception and
    leaves the board alone.  The first other target is shot at, and the
    move returns what that shot returns: [True] exactly when some ship has
    the cell. *)
Theorem move_asks_again b bad target rest :
  Forall (λ c, ¬ in_bounds b c ∨ c ∈ occupy_cells b) bad →
  in_bounds b target → target ∉ occupy_cells b →
  move bad b = None ∧
  ∃ b' said,
    shot target b
    = (b', said,
       Return (bool_decide (Exists (λ s, target ∈ cells s) (ships b)))) ∧
    move (bad ++ target :: rest) b
    = Some (b', (Complaint ∘ refusal b <$> bad) ++ (Said <$> said),
            bool_decide (Exists (λ s, target ∈ cells s) (ships b))).
Proof.
  intros Hbad Hin Hocc.
  destruct (shot_through b target Hin Hocc) as (b' & said & Hs & _).
  split.
  - induction Hbad as [|c bad Hc _ IH]; [done|].
    by rewrite (move_refused _ _ _ Hc), IH.
  - exists b', said. split; [done|].
    induction Hbad as [|c bad Hc _ IH].
    + simpl. by rewrite Hs.
    + rewrite <- app_comm_cons, (move_refused _ _ _ Hc), IH. by rewrite fmap_cons.
Qed.

Lemma move_asks_again_witness :
  move [mkCell 7 0; mkCell 0 0] (shots fleet_board [mkCell 0 0]) = None ∧
  ∃ b' said,
    shot (mkCell 0 1) (shots fleet_board [mkCell 0 0])
    = (b', said,
       Return (bool_decide
                 (Exists (λ s, mkCell 0 1 ∈ cells s)
                    (ships (shots fleet_board [mkCell 0 0]))))) ∧
    move ([mkCell 7 0; mkCell 0 0] ++ mkCell 0 1 :: [mkCell 3 3])
      (shots fleet_board [mkCell 0 0])
    = Some (b',
            (Complaint ∘ refusal (shots fleet_board [mkCell 0 0])
               <$> [mkCell 7 0; mkCell 0 0]) ++ (Said <$> said),
            bool_decide
              (Exists (λ s, mkCell 0 1 ∈ cells s)
                 (ships (shots fleet_board [mkCell 0 0])))).
Proof.
  apply (move_asks_again (shots fleet_board [mkCell 0 0])
           [mkCell 7 0; mkCell 0 0] (mkCell 0 1) [mkCell 3 3]);
    compute_done.
Defined.

Lemma move_inv targets b b' lines r :
  battle_inv b → move targets b = Some (b', lines, r) →
  battle_inv b' ∧ cells <$> ships b' = cells <$> ships b.
Proof.
  revert b lines r. induction targets as [|cell rest IH]; intros b lines r Hinv;
    [done|].
  simpl. pose proof (battle_inv_shot cell b Hinv) as Hs.
  pose proof (shot_cells cell b) as Hc.
  destruct (shot cell b) as [[b1 said] [another|e]]; simpl in Hs, Hc.
  - by intros [= <- _ _].
  - destruct (move rest b1) as [[[b2 lines2] r2]|] eqn:E; [|done].
    intros [= <- _ _]. destruct (IH _ _ _ Hs E) as [? ->]. by split.
Qed.

(** X17: a round of [game_cycle] is one move: of the user at the board of
    the computer when [num] is odd, of the computer at the board of the
    user otherwise.  After the round the board shot at is the board that
    move leaves and the other board is as it was.  The loop is left for
    the user when 7 ships of the computer are sunk after the round, for
    the computer when that is not so and 7 ships of the user are sunk, and
    goes on otherwise; when it goes on, [num] is unchanged after a hit, so
    the same player moves again, and is one more after a miss; when it is
    left, [num] is one less after a hit and unchanged after a miss. *)
Theorem cycle_round_rules st targets st' v :
  battle_inv (user_board st) → battle_inv (computer_board st) →
  cycle_round st targets = Some (st', v) →
  let user_moves := bool_decide (num st `mod` 2 ≠ 0) in
  ∃ shot_at lines another_move,
    move targets (if user_moves then computer_board st else user_board st)
    = Some (shot_at, lines, another_move) ∧
    (if user_moves
     then user_board st' = user_board st ∧ computer_board st' = shot_at
     else computer_board st' = computer_board st ∧ user_board st' = shot_at) ∧
    battle_inv (user_board st') ∧ battle_inv (computer_board st') ∧
    (v = Some UserWon ↔ length (sunk_ships (computer_board st')) = 7%nat) ∧
    (v = Some ComputerWon ↔
       length (sunk_ships (computer_board st')) ≠ 7%nat ∧
       length (sunk_ships (user_board st')) = 7%nat) ∧
    num st' = match v with
              | None => if another_move then num st else num st + 1
              | Some _ => if another_move then num st - 1 else num st
              end.
Proof.
  intros Hu Hc. unfold cycle_round.
  destruct (move targets _) as [[[shot_at lines] another]|] eqn:Em; [|done].
  assert (battle_inv shot_at) as Hs.
  { destruct (bool_decide (num st `mod` 2 ≠ 0));
      [by destruct (move_inv _ _ _ _ _ Hc Em)
      |by destruct (move_inv _ _ _ _ _ Hu Em)]. }
  set (st1 := if bool_decide (num st `mod` 2 ≠ 0)
              then mkCycle (user_board st) shot_at (num st)
              else mkCycle shot_at (computer_board st) (num st)).
  set (st2 := if another
              then mkCycle (user_board st1) (computer_board st1) (num st1 - 1)
              else st1).
  assert (battle_inv (user_board st2) ∧ battle_inv (computer_board st2) ∧
          (if bool_decide (num st `mod` 2 ≠ 0)
           then user_board st2 = user_board st ∧ computer_board st2 = shot_at
           else computer_board st2 = computer_board st
                ∧ user_board st2 = shot_at) ∧
          num st2 = if another then num st - 1 else num st)
    as (Hu2 & Hc2 & Hsame & Hnum).
  { unfold st2, st1.
    by destruct another, (bool_decide (num st `mod` 2 ≠ 0)). }
  pose proof (battle_inv_sunk _ Hu2) as Hcu.
  pose proof (battle_inv_sunk _ Hc2) as Hcc.
  clearbody st2. clear st1.
  destruct (decide (count (computer_board st2) = 7)) as [E1|E1];
    [rewrite bool_decide_eq_true_2 by done
    |rewrite bool_decide_eq_false_2 by done;
     destruct (decide (count (user_board st2) = 7)) as [E2|E2];
     [rewrite bool_decide_eq_true_2 by done
     |rewrite bool_decide_eq_false_2 by done]];
    intros [= <- <-]; cbv zeta; cbn [user_board computer_board num];
    exists shot_at, lines, another;
    (split; [done|]; split; [done|]; split; [done|]; split; [done|];
     split; [|split]).
  - split; [intros _; lia|done].
  - split; [done|intros [? _]; lia].
  - done.
  - split; [done|intros ?; lia].
  - split; [intros _; split; lia|done].
  - done.
  - split; [done|intros ?; lia].
  - split; [done|intros [_ ?]; lia].
  - rewrite Hnum. destruct another; lia.
Qed.

(** The invariant on a board that is given in full. *)
Ltac battle_inv_computed :=
  constructor;
  [apply (@bool_decide_unpack _ (separated_dec _)); by vm_compute
  |compute_done..].

Lemma cycle_round_rules_witness :
  let st := mkCycle fleet_board fleet_board 1 in
  let st' := mkCycle fleet_board (shots fleet_board [mkCell 0 0]) 1 in
  let v : option verdict := None in
  let user_moves := bool_decide (num st `mod` 2 ≠ 0) in
  ∃ shot_at lines another_move,
    move [mkCell 0 0]
      (if user_moves then computer_board st else user_board st)
    = Some (shot_at, lines, another_move) ∧
    (if user_moves
     then user_board st' = user_board st ∧ computer_board st' = shot_at
     else computer_board st' = computer_board st ∧ user_board st' = shot_at) ∧
    battle_inv (user_board st') ∧ battle_inv (computer_board st') ∧
    (v = Some UserWon ↔ length (sunk_ships (computer_board st')) = 7%nat) ∧
    (v = Some ComputerWon ↔
       length (sunk_ships (computer_board st')) ≠ 7%nat ∧
       length (sunk_ships (user_board st')) = 7%nat) ∧
    num st' = match v with
              | None => if another_move then num st else num st + 1
              | Some _ => if another_move then num st - 1 else num st
              end.
Proof.
  intros st st' v.
  apply (cycle_round_rules st [mkCell 0 0] st' v);
    [battle_inv_computed..|by vm_compute].
Defined.

(** X18: when [randint] keeps to the range it is asked for, the computer
    always comes up with a cell of a board of side [BOARD_SIZE] or more, so
    the only exception its shot can raise there is
    [OccupiedCellException]. *)
Theorem ai_target_on_board rnd k b :
  (∀ k a c, a ≤ c → a ≤ rnd k a c ≤ c) → BOARD_SIZE ≤ size b →
  ∃ target, ai_target rnd k = Some target ∧ in_bounds b target ∧
    ∀ b' said e, shot target b = (b', said, Raise e) →
                 e = OccupiedCellException ∧ target ∈ occupy_cells b.
Proof.
  intros Hrnd Hsz. unfold ai_target, BOARD_SIZE in *.
  rewrite !randint_Some by lia.
  pose proof (Hrnd k 0 (6 - 1) ltac:(lia)) as H1.
  pose proof (Hrnd (k + 1)%nat 0 (6 - 1) ltac:(lia)) as H2.
  exists (mkCell (rnd k 0 (6 - 1)) (rnd (k + 1)%nat 0 (6 - 1))).
  split; [done|]. set (target := mkCell _ _).
  assert (in_bounds b target) as Hin by (unfold in_bounds; simpl; lia).
  split; [done|]. intros b' said e.
  destruct (decide (target ∈ occupy_cells b)) as [Hocc|Hocc].
  - rewrite (shot_occupied _ _ Hin Hocc). by intros [= _ _ <-].
  - destruct (shot_through _ _ Hin Hocc) as (b1 & said1 & -> & _). done.
Qed.

Lemma ai_target_on_board_witness :
  ∃ target, ai_target lowest 0 = Some target ∧
    in_bounds fleet_board target ∧
    ∀ b' said e, shot target fleet_board = (b', said, Raise e) →
                 e = OccupiedCellException ∧ target ∈ occupy_cells fleet_board.
Proof.
  apply (ai_target_on_board lowest 0 fleet_board).
  - intros k a c H. unfold lowest. lia.
  - by vm_compute.
Defined.

(** ** The boards the game starts with *)

Lemma random_board_pass rnd fuel self_size hide k k' b :
  random_board rnd fuel self_size hide k = Some (k', inr b) →
  ∃ k0, random_place rnd self_size hide k0 = Some (k', PassDone true b).
Proof.
  revert k. induction fuel as [|fuel IH]; intros k; [done|]. simpl.
  destruct (random_place rnd self_size hide k) as [[k1 [e|[] b1]]|] eqn:E;
    [done| |apply IH|done].
  intros [= <- <-]. by exists k.
Qed.

(** X19: a board that [random_board] returns is the board of a pass of
    [random_place] that succeeded.  It satisfies what the shooting relies
    on, and its mask is blank all over when it is hidden (the board of the
    computer) and shows exactly the cells of its ships when it is not (the
    board of the user). *)
Theorem random_board_result rnd fuel self_size hide k k' b :
  random_board rnd fuel self_size hide k = Some (k', inr b) →
  (∃ k0, random_place rnd self_size hide k0 = Some (k', PassDone true b)) ∧
  battle_inv b ∧
  length (ships b) = length (catalog self_size) ∧
  ∀ n, in_bounds b n →
       mask_get (mask b) n
       = Some (if hide then SBlank
               else if decide (Exists (λ s, n ∈ cells s) (ships b))
                    then SShip
               else SBlank).
Proof.
  intros [k0 Hpass]%random_board_pass. split; [by exists k0|].
  destruct (random_place_inv _ _ _ _ _ _ Hpass)
    as (Hl & _ & _ & _ & _ & _ & _ & Hinv).
  split; [done|]. split; [by rewrite <- Hl, length_fmap|].
  apply random_place_placed in Hpass as (new & -> & _). intros n Hn.
  by apply (add_ships_mask hide self_size new n).
Qed.

Lemma random_board_result_witness :
  (∃ k0, random_place scattered 6 false k0
         = Some (93%nat, PassDone true fleet_board)) ∧
  battle_inv fleet_board ∧
  length (ships fleet_board) = length (catalog 6) ∧
  ∀ n, in_bounds fleet_board n →
       mask_get (mask fleet_board) n
       = Some (if false then SBlank
               else if decide (Exists (λ s, n ∈ cells s) (ships fleet_board))
                    then SShip
               else SBlank).
Proof.
  apply (random_board_result scattered 1 6 false 0 93 fleet_board).
  by vm_compute.
Defined.

(** ** What the user types *)

(** X20: the test of the row number in [User.requesting_coordinates],
    [1 > int(row) > BOARD_SIZE], holds of no number, so its message is never
    printed.  Two characters that pass the other tests are returned as a
    cell whatever the digit is; when the digit is 0 or above [BOARD_SIZE]
    the cell lies outside a board of that size, and it is [shot] that turns
    it down, with [BoardOutsideException]. *)
Theorem row_check_never_rejects t :
  request_round t ≠ AskAgain NoSuchNumber ∧
  ∀ r, coords_len t = 2%nat → row_isdigit t = true →
       column_isalpha t = true → int_row t = Some r →
       column_found t ≠ -1 →
       request_round t = Coordinates (mkCell (r - 1) (column_found t)) ∧
       ∀ b, size b = BOARD_SIZE → ¬ (1 ≤ r ≤ BOARD_SIZE) →
            shot (mkCell (r - 1) (column_found t)) b
            = (b, [], Raise BoardOutsideException).
Proof.
  split.
  - unfold request_round. case_bool_decide; [done|].
    destruct (negb (row_isdigit t) || negb (column_isalpha t)); [done|].
    destruct (int_row t) as [r|]; [|done].
    destruct (decide (1 > r)) as [H1|H1].
    + rewrite (bool_decide_eq_false_2 (r > BOARD_SIZE))
        by (unfold BOARD_SIZE; lia).
      rewrite andb_false_r. by case_bool_decide.
    + rewrite (bool_decide_eq_false_2 (1 > r)) by done. simpl.
      by case_bool_decide.
  - intros r Hlen Hd Ha Hr Hc. split.
    + unfold request_round. rewrite Hlen, Hd, Ha, Hr. simpl.
      destruct (decide (1 > r)) as [H1|H1].
      * rewrite (bool_decide_eq_false_2 (r > BOARD_SIZE))
          by (unfold BOARD_SIZE; lia).
        rewrite andb_false_r. by rewrite bool_decide_eq_false_2.
      * rewrite (bool_decide_eq_false_2 (1 > r)) by done. simpl.
        by rewrite bool_decide_eq_false_2.
    + intros b Hsz Hout. apply shot_outside. unfold in_bounds. simpl.
      rewrite Hsz. lia.
Qed.

Example row_zero_goes_through :
  request_round (mkTyped 2 true true (Some 0) 0) = Coordinates (mkCell (-1) 0) ∧
  move [mkCell (-1) 0; mkCell 0 0] fleet_board
  = match move [mkCell 0 0] fleet_board with
    | Some (b, lines, r) =>
        Some (b, Complaint BoardOutsideException :: lines, r)
    | None => None
    end.
Proof. by vm_compute. Qed.

End SeaBattle_fleet_facts.
